(** * pv.Quadtree (src/physics/Quadtree.js): a shallow embedding

    The quadtree is built by in-place mutation of heap-allocated nodes that
    are recycled through the global free list [pv.Quadtree.$cache].  The
    embedding keeps that shape:

    - JavaScript numbers are IEEE-754 binary64 values: [float] (primitive
      floats), with [NaN], the infinities and round-to-nearest arithmetic;
    - a node reference is an index [loc] into the store of node objects;
    - the store, the global [$cache] and the effect of [fail()] form the
      state [Heap], threaded explicitly through every function;
    - recursion depth is bounded by a fuel argument: [None] is the run that
      exhausts the call stack. *)

From Stdlib Require Import Floats ZArith Lia.
From stdpp Require Import base option list gmap strings.

Set Warnings "-inexact-float".

(** ** Data model *)

Abbreviation loc := nat (only parsing).

(** A [pv.Particle] as far as the quadtree reads it: its coordinates.  The
    field [id] stands for the identity of the JavaScript object. *)
Module Particle.
Record t := mk { id : nat; x : float; y : float }.
End Particle.

(** A [pv.Quadtree.Node].  A field that was never assigned ([undefined]) and
    a field set to [null] are both [None]: the code only tests them for
    truthiness. *)
Module Node.
Record t := mk {
  leaf : bool;
  p : option Particle.t;
  c1 : option loc;
  c2 : option loc;
  c3 : option loc;
  c4 : option loc;
  next : option loc
}.

(** [new pv.Quadtree.Node()]: [leaf] comes from the prototype. *)
Definition fresh : t := mk true None None None None None None.

Definition set_leaf (b : bool) (n : t) : t :=
  mk b (p n) (c1 n) (c2 n) (c3 n) (c4 n) (next n).
Definition set_p (q : option Particle.t) (n : t) : t :=
  mk (leaf n) q (c1 n) (c2 n) (c3 n) (c4 n) (next n).
Definition set_c1 (c : option loc) (n : t) : t :=
  mk (leaf n) (p n) c (c2 n) (c3 n) (c4 n) (next n).
Definition set_c2 (c : option loc) (n : t) : t :=
  mk (leaf n) (p n) (c1 n) c (c3 n) (c4 n) (next n).
Definition set_c3 (c : option loc) (n : t) : t :=
  mk (leaf n) (p n) (c1 n) (c2 n) c (c4 n) (next n).
Definition set_c4 (c : option loc) (n : t) : t :=
  mk (leaf n) (p n) (c1 n) (c2 n) (c3 n) c (next n).

(** The child slots by quadrant index: the [switch] of lines 89-94 maps
    0, 1, 2 to [c1], [c2], [c3] and everything else to [c4]. *)
Definition child (i : nat) (n : t) : option loc :=
  match i with
  | 0 => c1 n
  | 1 => c2 n
  | 2 => c3 n
  | _ => c4 n
  end.
Definition set_child (i : nat) (c : option loc) (n : t) : t :=
  match i with
  | 0 => set_c1 c n
  | 1 => set_c2 c n
  | 2 => set_c3 c n
  | _ => set_c4 c n
  end.

(** The state in which [dispose] leaves a node, up to its [next] link. *)
Definition cleared (n : t) : Prop :=
  leaf n = true ∧ p n = None ∧
  c1 n = None ∧ c2 n = None ∧ c3 n = None ∧ c4 n = None.
End Node.

(** The mutable state: the node objects, the free list head
    [pv.Quadtree.$cache], and the number of [fail()] calls so far. *)
Record Heap := mkHeap {
  store : list Node.t;
  cache : option loc;
  failed : nat
}.

Definition empty_heap : Heap := mkHeap [] None 0.

(** A JavaScript reference never dangles.  Outside the store [deref]
    answers with a fresh node and [update] writes nothing; on the heaps of
    the theorems below neither happens. *)
Definition deref (h : Heap) (n : loc) : Node.t :=
  default Node.fresh (store h !! n).

Definition update (n : loc) (f : Node.t → Node.t) (h : Heap) : Heap :=
  mkHeap (alter f n (store h)) (cache h) (failed h).

(** Modelled from the spec: [fail] is called by [insert] but defined nowhere
    in src/, so that the call, run as the source stands, throws.  The spec
    has the rejection signalled to the caller, "e.g., via a collected list
    of rejected points, a counter, or a logged diagnostic"; the call passes
    no argument, so it is the counter.  [failed] counts how often line 44
    is reached: a run that leaves it as it was never called [fail]. *)
Definition fail (h : Heap) : Heap :=
  mkHeap (store h) (cache h) (S (failed h)).

(** The tree object: [this.root], [this.xMin], ... *)
Record Quadtree := mkQuadtree {
  root : loc;
  xMin : float;
  yMin : float;
  xMax : float;
  yMax : float
}.

(** ** The constructor's local functions *)

Open Scope float_scope.

(** [function node()], lines 27-34. *)
Definition node (h : Heap) : loc * Heap :=
  match cache h with
  | Some n => (n, mkHeap (store h) (Node.next (deref h n)) (failed h))
  | None => (length (store h),
             mkHeap (store h ++ [Node.fresh]) (cache h) (failed h))
  end.

(** [isNaN(p.x) || isNaN(p.y)], line 43. *)
Definition invalid (p : Particle.t) : bool :=
  is_nan (Particle.x p) || is_nan (Particle.y p).

(** [(Math.abs(n.p.x - p.x) + Math.abs(n.p.y - p.y)) < .01], line 56. *)
Definition coincident (q p : Particle.t) : bool :=
  abs (Particle.x q - Particle.x p) + abs (Particle.y q - Particle.y p)
    <? 0.01.

(** [c = (p.x >= sx) + (p.y >= sy) * 2], line 81. *)
Definition quadrant (p : Particle.t) (sx sy : float) : nat :=
  Nat.b2n (sx <=? Particle.x p) + Nat.b2n (sy <=? Particle.y p) * 2.

(** [n.ci || (n.ci = node())], lines 90-93. *)
Definition child_or_new (get : Node.t → option loc)
    (set : option loc → Node.t → Node.t) (n : loc) (h : Heap) : loc * Heap :=
  match get (deref h n) with
  | Some k => (k, h)
  | None => let '(k, h) := node h in (k, update n (set (Some k)) h)
  end.

(** [insert] and [insertChild], lines 41-96.  Each call uses one unit of
    fuel; the NaN guard returns before anything else happens. *)
Fixpoint insert (fuel : nat) (n : loc) (p : Particle.t)
    (x1 y1 x2 y2 : float) (h : Heap) : option Heap :=
  if invalid p then Some (fail h)
  else match fuel with
  | O => None
  | S fuel =>
    if Node.leaf (deref h n) then
      match Node.p (deref h n) with
      | Some q =>
        if coincident q p then insertChild fuel n p x1 y1 x2 y2 h
        else
          let v := q in
          let h := update n (Node.set_p None) h in
          h ← insertChild fuel n v x1 y1 x2 y2 h;
          insertChild fuel n p x1 y1 x2 y2 h
      | None => Some (update n (Node.set_p (Some p)) h)
      end
    else insertChild fuel n p x1 y1 x2 y2 h
  end
with insertChild (fuel : nat) (n : loc) (p : Particle.t)
    (x1 y1 x2 y2 : float) (h : Heap) : option Heap :=
  match fuel with
  | O => None
  | S fuel =>
    let sx := (x1 + x2) / 2 in
    let sy := (y1 + y2) / 2 in
    let c := quadrant p sx sy in
    let '(x1, x2) := if (c =? 1)%nat || (c =? 3)%nat
                     then (sx, x2) else (x1, sx) in
    let '(y1, y2) := if (1 <? c)%nat then (sy, y2) else (y1, sy) in
    let h := update n (Node.set_leaf false) h in
    let '(n, h) :=
      match c with
      | 0%nat => child_or_new Node.c1 Node.set_c1 n h
      | 1%nat => child_or_new Node.c2 Node.set_c2 n h
      | 2%nat => child_or_new Node.c3 Node.set_c3 n h
      | _ => child_or_new Node.c4 Node.set_c4 n h
      end in
    insert fuel n p x1 y1 x2 y2 h
  end.

(** The bounds loop, lines 12-19. *)
Definition scan_step (b : float * float * float * float) (p : Particle.t)
    : float * float * float * float :=
  let '(x1, y1, x2, y2) := b in
  let x1 := if Particle.x p <? x1 then Particle.x p else x1 in
  let y1 := if Particle.y p <? y1 then Particle.y p else y1 in
  let x2 := if x2 <? Particle.x p then Particle.x p else x2 in
  let y2 := if y2 <? Particle.y p then Particle.y p else y2 in
  (x1, y1, x2, y2).

Definition scan (particles : list Particle.t)
    : float * float * float * float :=
  fold_left scan_step particles
    (infinity, infinity, neg_infinity, neg_infinity).

(** "Squarify the bounds", lines 22-24. *)
Definition squarify (b : float * float * float * float)
    : float * float * float * float :=
  let '(x1, y1, x2, y2) := b in
  let dx := x2 - x1 in
  let dy := y2 - y1 in
  if dy <? dx then (x1, y1, x2, y1 + dx) else (x1, y1, x1 + dy, y2).

(** The insertion loop, line 100. *)
Fixpoint insert_all (fuel : nat) (n : loc) (particles : list Particle.t)
    (x1 y1 x2 y2 : float) (h : Heap) : option Heap :=
  match particles with
  | [] => Some h
  | p :: rest =>
    h ← insert fuel n p x1 y1 x2 y2 h;
    insert_all fuel n rest x1 y1 x2 y2 h
  end.

(** [new pv.Quadtree(particles)], lines 8-106; [fuel] bounds the depth of
    each top-level [insert]. *)
Definition new_Quadtree (fuel : nat) (particles : list Particle.t)
    (h : Heap) : option (Quadtree * Heap) :=
  let '(x1, y1, x2, y2) := squarify (scan particles) in
  let '(r, h) := node h in
  h ← insert_all fuel r particles x1 y1 x2 y2 h;
  Some (mkQuadtree r x1 y1 x2 y2, h).

(** ** Disposal, lines 109-121 *)

Definition dispose_child (rec : loc → Heap → option Heap)
    (get : Node.t → option loc) (n : loc) (h : Heap) : option Heap :=
  match get (deref h n) with
  | Some c => rec c h
  | None => Some h
  end.

Definition recycle (n : loc) (h : Heap) : Heap :=
  let h := update n (λ nd, Node.mk true None None None None None (cache h)) h in
  mkHeap (store h) (Some n) (failed h).

Fixpoint dispose_node (fuel : nat) (n : loc) (h : Heap) : option Heap :=
  match fuel with
  | O => None
  | S fuel =>
    h ← dispose_child (dispose_node fuel) Node.c1 n h;
    h ← dispose_child (dispose_node fuel) Node.c2 n h;
    h ← dispose_child (dispose_node fuel) Node.c3 n h;
    h ← dispose_child (dispose_node fuel) Node.c4 n h;
    Some (recycle n h)
  end.

Definition dispose (fuel : nat) (t : Quadtree) (h : Heap) : option Heap :=
  dispose_node fuel (root t) h.

(** [k] successive calls of [node()]. *)
Fixpoint acquire (k : nat) (h : Heap) : list loc * Heap :=
  match k with
  | O => ([], h)
  | S k => let '(n, h) := node h in
           let '(ns, h) := acquire k h in (n :: ns, h)
  end.

Close Scope float_scope.

(** ** Tree-shaped heaps

    The nodes reachable from a root form a tree whose nodes are pairwise
    distinct and distinct from the nodes of the free list.  A [shape] records
    which node sits where; [tree_at] and [pool_at] relate shapes and free
    lists to the store. *)

Inductive shape : Type :=
  | Nil
  | Sh (a : loc) (lf : bool) (pt : option Particle.t) (k1 k2 k3 k4 : shape).

Definition leafS (a : loc) : shape := Sh a true None Nil Nil Nil Nil.

Definition childS (i : nat) (t : shape) : shape :=
  match t with
  | Nil => Nil
  | Sh _ _ _ k1 k2 k3 k4 =>
    match i with 0 => k1 | 1 => k2 | 2 => k3 | _ => k4 end
  end.

Definition set_childS (i : nat) (k : shape) (t : shape) : shape :=
  match t with
  | Nil => Nil
  | Sh a lf pt k1 k2 k3 k4 =>
    match i with
    | 0 => Sh a lf pt k k2 k3 k4
    | 1 => Sh a lf pt k1 k k3 k4
    | 2 => Sh a lf pt k1 k2 k k4
    | _ => Sh a lf pt k1 k2 k3 k
    end
  end.

Definition rootS (t : shape) : option loc :=
  match t with Nil => None | Sh a _ _ _ _ _ _ => Some a end.

Fixpoint addrs (t : shape) : list loc :=
  match t with
  | Nil => []
  | Sh a _ _ k1 k2 k3 k4 => a :: addrs k1 ++ addrs k2 ++ addrs k3 ++ addrs k4
  end.

Fixpoint points (t : shape) : list Particle.t :=
  match t with
  | Nil => []
  | Sh _ _ pt k1 k2 k3 k4 =>
    option_list pt ++ points k1 ++ points k2 ++ points k3 ++ points k4
  end.

Fixpoint height (t : shape) : nat :=
  match t with
  | Nil => 0
  | Sh _ _ _ k1 k2 k3 k4 =>
    S (Nat.max (Nat.max (height k1) (height k2))
               (Nat.max (height k3) (height k4)))
  end.

Fixpoint tree_at (st : list Node.t) (o : option loc) (t : shape) : Prop :=
  match t with
  | Nil => o = None
  | Sh a lf pt k1 k2 k3 k4 =>
    o = Some a ∧ ∃ nd, st !! a = Some nd ∧
      Node.leaf nd = lf ∧ Node.p nd = pt ∧
      tree_at st (Node.c1 nd) k1 ∧ tree_at st (Node.c2 nd) k2 ∧
      tree_at st (Node.c3 nd) k3 ∧ tree_at st (Node.c4 nd) k4
  end.

Fixpoint pool_at (st : list Node.t) (o : option loc) (l : list loc) : Prop :=
  match l with
  | [] => o = None
  | a :: l => o = Some a ∧ ∃ nd, st !! a = Some nd ∧
      Node.cleared nd ∧ pool_at st (Node.next nd) l
  end.

(** The allocator as the shapes see it: the free list and the next unused
    index of the store. *)
Definition alloc : Type := list loc * nat.

Definition repr (h : Heap) (n : loc) (t : shape) (al : alloc) : Prop :=
  tree_at (store h) (Some n) t ∧ pool_at (store h) (cache h) al.1 ∧
  al.2 = length (store h) ∧ NoDup (addrs t ++ al.1).

(** The free list alone: acyclic, made of cleared nodes. *)
Definition pool_ok (h : Heap) : Prop :=
  ∃ l, pool_at (store h) (cache h) l ∧ NoDup l.

(** A tree rooted at [r] next to a well-formed free list. *)
Definition tree_shaped (h : Heap) (r : loc) : Prop :=
  ∃ t al, repr h r t al.

(** ** The insertion on shapes

    [insertS] and [insertChildS] follow [insert] and [insertChild] line by
    line, on a shape and an allocator instead of the store.  They are the
    proof device through which the heap functions are analysed: the
    simulation lemma [insert_sim] below shows that on a tree-shaped heap the
    heap functions compute exactly what these compute. *)

Definition nodeS (al : alloc) : loc * alloc :=
  match al.1 with
  | a :: l => (a, (l, al.2))
  | [] => (al.2, ([], S al.2))
  end.

Definition child_or_newS (i : nat) (t : shape) (al : alloc) : shape * alloc :=
  match childS i t with
  | Nil => let '(k, al) := nodeS al in (leafS k, al)
  | k => (k, al)
  end.

Definition set_leafS (b : bool) (t : shape) : shape :=
  match t with
  | Nil => Nil
  | Sh a _ pt k1 k2 k3 k4 => Sh a b pt k1 k2 k3 k4
  end.

Definition set_pS (q : option Particle.t) (t : shape) : shape :=
  match t with
  | Nil => Nil
  | Sh a lf _ k1 k2 k3 k4 => Sh a lf q k1 k2 k3 k4
  end.

(** The quadrant of [p] in the cell [x1,x2] x [y1,y2] and the bounds of
    that quadrant, as the spec words them: split at the midpoint, index
    [(x >= sx ? 1 : 0) + (y >= sy ? 2 : 0)], and [x1 <- sx] or [x2 <- sx],
    [y1 <- sy] or [y2 <- sy]. *)
Definition descend (p : Particle.t) (x1 y1 x2 y2 : float)
    : nat * (float * float * float * float) :=
  let sx := ((x1 + x2) / 2)%float in
  let sy := ((y1 + y2) / 2)%float in
  let bx := (sx <=? Particle.x p)%float in
  let by' := (sy <=? Particle.y p)%float in
  ((if bx then 1 else 0) + (if by' then 2 else 0),
   (if bx then sx else x1, if by' then sy else y1,
    if bx then x2 else sx, if by' then y2 else sy)).

Fixpoint insertS (fuel : nat) (t : shape) (p : Particle.t)
    (x1 y1 x2 y2 : float) (al : alloc) : option (shape * alloc) :=
  if invalid p then Some (t, al)
  else match fuel with
  | O => None
  | S fuel =>
    match t with
    | Nil => None
    | Sh a lf pt k1 k2 k3 k4 =>
      if lf then
        match pt with
        | Some q =>
          if coincident q p then insertChildS fuel t p x1 y1 x2 y2 al
          else
            r ← insertChildS fuel (set_pS None t) q x1 y1 x2 y2 al;
            insertChildS fuel r.1 p x1 y1 x2 y2 r.2
        | None => Some (set_pS (Some p) t, al)
        end
      else insertChildS fuel t p x1 y1 x2 y2 al
    end
  end
with insertChildS (fuel : nat) (t : shape) (p : Particle.t)
    (x1 y1 x2 y2 : float) (al : alloc) : option (shape * alloc) :=
  match fuel with
  | O => None
  | S fuel =>
    let '(c, (a1, b1, a2, b2)) := descend p x1 y1 x2 y2 in
    let '(k, al) := child_or_newS c t al in
    r ← insertS fuel k p a1 b1 a2 b2 al;
    Some (set_childS c r.1 (set_leafS false t), r.2)
  end.

Arguments descend : simpl never.
Arguments child_or_newS : simpl never.
Arguments nodeS : simpl never.
Arguments node : simpl never.
Arguments child_or_new : simpl never.
Arguments update : simpl never.
Arguments fail : simpl never.
Arguments invalid : simpl never.
Arguments coincident : simpl never.
Arguments quadrant : simpl never.
Arguments deref : simpl never.

(** ** Auxiliary notions on shapes and heaps *)

Definition nonNil (t : shape) : Prop := t ≠ Nil.

(** The addresses of [t] outside its [c]-th subtree. *)
Definition others (c : nat) (t : shape) : list loc :=
  addrs (set_childS c Nil t).

Definition leaf_of (t : shape) : bool :=
  match t with Nil => true | Sh _ lf _ _ _ _ _ => lf end.

Definition pt_of (t : shape) : option Particle.t :=
  match t with Nil => None | Sh _ _ pt _ _ _ _ => pt end.

(** Nodes allocated before the call and outside the footprint [X] are not
    written. *)
Definition frame (h h' : Heap) (X : list loc) : Prop :=
  ∀ a, a < length (store h) → a ∉ X → store h' !! a = store h !! a.

Definition sim_post (h : Heap) (n : loc) (t : shape) (al : alloc)
    (h' : Heap) (r : shape * alloc) : Prop :=
  repr h' n r.1 r.2 ∧ length (store h) ≤ length (store h') ∧
  frame h h' (addrs t ++ al.1).

(** ** Invariants of the insertion, on shapes *)

Abbreviation Bounds := (float * float * float * float)%type (only parsing).

Definition descendB (p : Particle.t) (b : Bounds) : nat * Bounds :=
  let '(x1, y1, x2, y2) := b in descend p x1 y1 x2 y2.

(** The bounds of quadrant [i], by the tests of lines 84-85. *)
Definition cell (i : nat) (b : Bounds) : Bounds :=
  let '(x1, y1, x2, y2) := b in
  let sx := ((x1 + x2) / 2)%float in
  let sy := ((y1 + y2) / 2)%float in
  (if (i =? 1) || (i =? 3) then sx else x1, if 1 <? i then sy else y1,
   if (i =? 1) || (i =? 3) then x2 else sx, if 1 <? i then y2 else sy).

(** Leaves have no children and internal nodes have one, everywhere in the
    tree. *)
Fixpoint shape_ok (t : shape) : Prop :=
  match t with
  | Nil => True
  | Sh _ lf _ k1 k2 k3 k4 =>
    (if lf then k1 = Nil ∧ k2 = Nil ∧ k3 = Nil ∧ k4 = Nil
     else ¬ (k1 = Nil ∧ k2 = Nil ∧ k3 = Nil ∧ k4 = Nil)) ∧
    shape_ok k1 ∧ shape_ok k2 ∧ shape_ok k3 ∧ shape_ok k4
  end.

Definition in_quadrant (b : Bounds) (i : nat) (k : shape) : Prop :=
  ∀ q, q ∈ points k → (descendB q b).1 = i.

(** Every particle below the [i]-th child slot of a node belongs to
    quadrant [i] of that node's cell, everywhere in the tree. *)
Fixpoint routed (b : Bounds) (t : shape) : Prop :=
  match t with
  | Nil => True
  | Sh _ _ _ k1 k2 k3 k4 =>
    (in_quadrant b 0 k1 ∧ routed (cell 0 b) k1) ∧
    (in_quadrant b 1 k2 ∧ routed (cell 1 b) k2) ∧
    (in_quadrant b 2 k3 ∧ routed (cell 2 b) k3) ∧
    (in_quadrant b 3 k4 ∧ routed (cell 3 b) k4)
  end.

Definition valid_points (t : shape) : Prop :=
  ∀ q, q ∈ points t → invalid q = false.

Definition shape_inv (b : Bounds) (t : shape) : Prop :=
  shape_ok t ∧ routed b t ∧ valid_points t.

(** The particles of [t] outside its [c]-th subtree. *)
Definition pothers (c : nat) (t : shape) : list Particle.t :=
  points (set_childS c Nil t).

Definition arriving (p : Particle.t) : list Particle.t :=
  if invalid p then [] else [p].

(** ** The heap during a build *)

Definition bounds (T : Quadtree) : Bounds :=
  (xMin T, yMin T, xMax T, yMax T).

(** The valid particles of the input, in input order. *)
Definition accepted (ps : list Particle.t) : list Particle.t :=
  filter (λ p, invalid p = false) ps.

(** The state of a build that has taken the particles [ps] so far: a tree
    at [r] next to a well-formed free list, the tree obeying the shape
    invariants for the cell [b] and holding the valid particles of [ps]. *)
Definition built (h : Heap) (r : loc) (b : Bounds)
    (ps : list Particle.t) : Prop :=
  ∃ t al, repr h r t al ∧ shape_inv b t ∧ points t ≡ₚ accepted ps.

Definition insert_allB (fuel : nat) (n : loc) (ps : list Particle.t)
    (b : Bounds) (h : Heap) : option Heap :=
  let '(x1, y1, x2, y2) := b in insert_all fuel n ps x1 y1 x2 y2 h.

(** ** Reading the tree from the heap *)

(** The nodes a consumer can reach from [r] through child slots. *)
Inductive reachable (h : Heap) (r : loc) : loc → Prop :=
  | reach_root : reachable h r r
  | reach_child n i k :
      reachable h r n → Node.child i (deref h n) = Some k →
      reachable h r k.

Definition has_child (nd : Node.t) : Prop :=
  Node.c1 nd ≠ None ∨ Node.c2 nd ≠ None ∨
  Node.c3 nd ≠ None ∨ Node.c4 nd ≠ None.

Definition nonleaf_inv (h : Heap) (r : loc) : Prop :=
  ∀ n, reachable h r n →
    Node.leaf (deref h n) = false → has_child (deref h n).

(** The top-down walk of a consumer looking for [p]: at each node it
    recomputes the quadrant of [p] from the current bounds and steps into
    that child slot with the bounds of that quadrant.  [walk h p n b n']
    holds when the walk started at [n] with bounds [b] visits [n']. *)
Inductive walk (h : Heap) (p : Particle.t) : loc → Bounds → loc → Prop :=
  | walk_here n b : walk h p n b n
  | walk_down n b k n' :
      Node.child (descendB p b).1 (deref h n) = Some k →
      walk h p k (descendB p b).2 n' →
      walk h p n b n'.

(** ** Disposal on a tree-shaped heap *)

(** The free list after the nodes of [t] have been pushed onto [l] in the
    order of [dispose]: children first, slot by slot, then the node. *)
Fixpoint flat (t : shape) (l : list loc) : list loc :=
  match t with
  | Nil => l
  | Sh a _ _ k1 k2 k3 k4 => a :: flat k4 (flat k3 (flat k2 (flat k1 l)))
  end.

Definition dispose_opt (fuel : nat) (o : option loc) (h : Heap)
    : option Heap :=
  match o with
  | Some c => dispose_node fuel c h
  | None => Some h
  end.

(** ** The order of binary64 values *)

Definition key (f : spec_float) : option (Z * Z * Z) :=
  match f with
  | S754_nan => None
  | S754_infinity true => Some (-2, 0, 0)%Z
  | S754_infinity false => Some (2, 0, 0)%Z
  | S754_zero _ => Some (0, 0, 0)%Z
  | S754_finite true m e => Some (-1, - e, Zneg m)%Z
  | S754_finite false m e => Some (1, e, Zpos m)%Z
  end.

Definition fkey (a : float) : option (Z * Z * Z) := key (Prim2SF a).

Definition lexlt (a b : Z * Z * Z) : Prop :=
  (a.1.1 < b.1.1 ∨
   (a.1.1 = b.1.1 ∧ (a.1.2 < b.1.2 ∨ (a.1.2 = b.1.2 ∧ a.2 < b.2))))%Z.

Definition lexcmp (a b : Z * Z * Z) : comparison :=
  match (a.1.1 ?= b.1.1)%Z with
  | Eq => match (a.1.2 ?= b.1.2)%Z with
          | Eq => (a.2 ?= b.2)%Z
          | c => c
          end
  | c => c
  end.

(** ** The bounds loop, coordinate by coordinate *)

Definition lo_step (m v : float) : float := if (v <? m)%float then v else m.
Definition hi_step (m v : float) : float := if (m <? v)%float then v else m.

Definition xs (ps : list Particle.t) : list float := map Particle.x ps.
Definition ys (ps : list Particle.t) : list float := map Particle.y ps.

(** The least and the greatest of the values that are not NaN. *)
Definition least (vs : list float) (r : float) : Prop :=
  (∀ v, v ∈ vs → is_nan v = false → (r <=? v)%float = true) ∧
  ((∃ v, v ∈ vs ∧ is_nan v = false) → r ∈ vs ∧ is_nan r = false).

Definition greatest (vs : list float) (r : float) : Prop :=
  (∀ v, v ∈ vs → is_nan v = false → (v <=? r)%float = true) ∧
  ((∃ v, v ∈ vs ∧ is_nan v = false) → r ∈ vs ∧ is_nan r = false).

(** ** Concrete inputs *)

Definition off_grid : list Particle.t :=
  [Particle.mk 0 0.1 0; Particle.mk 1 0.2 0.3]%float.

Definition diagonal : list Particle.t :=
  [Particle.mk 0 0 0; Particle.mk 1 1 1]%float.

Definition half_nan : Particle.t := Particle.mk 2 nan 4.

Definition four_corners : list Particle.t :=
  [Particle.mk 0 0 0; Particle.mk 1 10 0;
   Particle.mk 2 0 10; Particle.mk 3 10 10]%float.

Definition near_pair : list Particle.t :=
  [Particle.mk 0 5 5; Particle.mk 1 5.005 5.005]%float.

(** The heap after (5,5) has been attached to a fresh root. *)
Definition anchored : Heap :=
  mkHeap [Node.mk true (Some (Particle.mk 0 5 5)) None None None None None]
         None 0.

(** The heap that the build of [near_pair] leaves, and its tree. *)
Definition pair_heap : Heap :=
  mkHeap [Node.mk false (Some (Particle.mk 0 5 5))
            None None None (Some 1) None;
          Node.mk true (Some (Particle.mk 1 5.005 5.005))
            None None None None None]
         None 0.

Definition pair_shape : shape :=
  Sh 0 false (Some (Particle.mk 0 5 5)) Nil Nil Nil
    (Sh 1 true (Some (Particle.mk 1 5.005 5.005)) Nil Nil Nil Nil).

(** * Further definitions *)

(** ** More about the tree in the heap *)

Definition childless (nd : Node.t) : Prop :=
  Node.c1 nd = None ∧ Node.c2 nd = None ∧
  Node.c3 nd = None ∧ Node.c4 nd = None.

(** [sub t s]: [s] is [t] or sits below one of its child slots. *)
Inductive sub (t : shape) : shape → Prop :=
  | sub_root : sub t t
  | sub_kid s i : sub t s → sub t (childS i s).

(** Every leaf of [t] holds a particle. *)
Fixpoint stocked (t : shape) : Prop :=
  match t with
  | Nil => True
  | Sh _ lf pt k1 k2 k3 k4 =>
    (lf = true → pt ≠ None) ∧
    stocked k1 ∧ stocked k2 ∧ stocked k3 ∧ stocked k4
  end.

(** The particles below the child slots of the root of [t]. *)
Definition below (t : shape) : list Particle.t :=
  match t with
  | Nil => []
  | Sh _ _ _ k1 k2 k3 k4 => points k1 ++ points k2 ++ points k3 ++ points k4
  end.

(** Every internal node of [t] that kept a particle has, below it, a
    particle coincident with the one it kept. *)
Fixpoint anchors_ok (t : shape) : Prop :=
  match t with
  | Nil => True
  | Sh _ lf pt k1 k2 k3 k4 =>
    (lf = false → ∀ q, pt = Some q →
       ∃ p, p ∈ points k1 ++ points k2 ++ points k3 ++ points k4 ∧
            coincident q p = true) ∧
    anchors_ok k1 ∧ anchors_ok k2 ∧ anchors_ok k3 ∧ anchors_ok k4
  end.

(** [t] without the identity of its nodes. *)
Fixpoint skel (t : shape) : shape :=
  match t with
  | Nil => Nil
  | Sh _ lf pt k1 k2 k3 k4 => Sh 0 lf pt (skel k1) (skel k2) (skel k3) (skel k4)
  end.

(** The insertion loop on shapes, as [insert_all] on the heap. *)
Fixpoint insert_allS (fuel : nat) (t : shape) (particles : list Particle.t)
    (x1 y1 x2 y2 : float) (al : alloc) : option (shape * alloc) :=
  match particles with
  | [] => Some (t, al)
  | p :: rest =>
    r ← insertS fuel t p x1 y1 x2 y2 al;
    insert_allS fuel r.1 rest x1 y1 x2 y2 r.2
  end.

(** What the loop keeps besides [shape_inv]: below the root every leaf holds
    a particle, every kept particle has a coincident one below it, and the
    root itself is an empty leaf only while the tree holds no particle. *)
Definition stock_inv (t : shape) : Prop :=
  (∀ i, stocked (childS i t)) ∧ anchors_ok t ∧ (stocked t ∨ points t = []).

(** The free list is consumed from its head, and the store grows only once
    it is empty. *)
Definition drained (al al' : alloc) : Prop :=
  al'.1 `suffix_of` al.1 ∧ (al.2 < al'.2 → al'.1 = []).


(** A heap with a node in use, which holds a particle, and three cleared
    nodes on the free list, in the order 1, 2, 3. *)
Definition spare_heap : Heap :=
  mkHeap
    [Node.mk true (Some (Particle.mk 7 1 2)) None None None None None;
     Node.mk true None None None None None (Some 2);
     Node.mk true None None None None None (Some 3);
     Node.mk true None None None None None None]
    (Some 1) 0.

(** ** pv.Text and its FontSizeCache (src/physics/Quadtree.js, 198-348)

    The text measurer keeps, in the closure variable [_cache], a reference
    to the [FontSizeCache] in use.  A [FontSizeCache] holds one object
    [_fontsCache], a map from font keys to one object per font, itself a
    map from texts to measured boxes.  Both kinds of object are mutated in
    place through references, so the embedding keeps a store for each:

    - a JavaScript object used as a map is the finite map of its own
      properties, [gmap string V];
    - a [font] or [text] argument is a string or missing: [option string];
    - a reference is an index into the store of its kind;
    - [measureCore], which asks the DOM and can be replaced by the caller,
      is a function that the measurer takes as an argument, and returns a
      box or throws; every call is recorded in the state. *)
Module Text.

(** The object [{width: ..., height: ...}]. *)
Record bbox := Bbox { width : float; height : float }.

(** What a call comes to: a value, or an exception with its message. *)
Inductive outcome (A : Type) : Type :=
  | Return (a : A)
  | Throw (e : string).
Arguments Return {A} a.
Arguments Throw {A} e.

(** The argument [cache] of [usingCache]: a [FontSizeCache] instance or
    any other value. *)
Inductive value : Type :=
  | Instance (c : nat)
  | Other.

Record State := mkState {
  (** the objects created by [{}] in [_getFont] *)
  fontCaches : list (gmap string bbox);
  (** the [_fontsCache] of every [FontSizeCache] instance *)
  instances : list (gmap string nat);
  (** [var _cache], line 200 *)
  _cache : option nat;
  (** the calls of [measureCore] so far, latest last *)
  calls : list (string * option string)
}.

Definition M (A : Type) : Type := State → outcome A * State.

(** [v || ''] for a string or missing [v]. *)
Definition or_empty (v : option string) : string := default "" v.

(** [o[k] = v] on an object that inherits from [Object.prototype]: an own
    property is created or overwritten, except that the key ["__proto__"],
    unless it is an own property already, reaches the inherited accessor,
    which stores no own property. *)
Definition assign {V} (k : string) (v : V) (o : gmap string V)
    : gmap string V :=
  if decide (k = "__proto__" ∧ o !! k = None) then o else <[k:=v]> o.

(** [var FontSizeCache = function()], lines 322-324, called by
    [pv.Text.createCache], lines 204-206. *)
Definition createCache (s : State) : value * State :=
  (Instance (length (instances s)),
   mkState (fontCaches s) (instances s ++ [∅]) (_cache s) (calls s)).

(** [FontSizeCache.prototype._getFont], lines 328-333. *)
Definition _getFont (this : nat) (font : option string) (s : State)
    : nat * State :=
  let font := or_empty font in
  match default ∅ (instances s !! this) !! font with
  | Some o => (o, s)
  | None =>
    let o := length (fontCaches s) in
    (o, mkState (fontCaches s ++ [∅])
                (alter (assign font o) this (instances s))
                (_cache s) (calls s))
  end.

(** [FontSizeCache.prototype.get], lines 335-342; [None] is [null]. *)
Definition get (this : nat) (font text : option string) (s : State)
    : option bbox * State :=
  let text := or_empty text in
  let '(fontCache, s) := _getFont this font s in
  (default ∅ (fontCaches s !! fontCache) !! text, s).

(** [FontSizeCache.prototype.put], lines 344-346. *)
Definition put (this : nat) (font text : option string) (size : bbox)
    (s : State) : bbox * State :=
  let '(fontCache, s) := _getFont this font s in
  (size, mkState (alter (assign (or_empty text) size) fontCache
                    (fontCaches s))
                 (instances s) (_cache s) (calls s)).

(** [pv.Text.measure], lines 223-244. *)
Definition measure (measureCore : string → option string → outcome bbox)
    (text font : option string) : M bbox := λ s,
  let text := default "" text in
  let '(bbox, s) :=
    match _cache s with
    | Some c => get c font (Some text) s
    | None => (None, s)
    end in
  match bbox with
  | Some bbox => (Return bbox, s)
  | None =>
    let '(r, s) :=
      if decide (text = "") then (Return (Bbox 0 0), s)
      else (measureCore text font,
            mkState (fontCaches s) (instances s) (_cache s)
                    (calls s ++ [(text, font)])) in
    match r with
    | Throw e => (Throw e, s)
    | Return bbox =>
      (Return bbox,
       match _cache s with
       | Some c => (put c font (Some text) bbox s).2
       | None => s
       end)
    end
  end.

(** [pv.Text.fontHeight], lines 246-248. *)
Definition fontHeight (measureCore : string → option string → outcome bbox)
    (font : option string) : M float := λ s,
  match measure measureCore (Some "M") font s with
  | (Return bbox, s) => (Return (height bbox), s)
  | (Throw e, s) => (Throw e, s)
  end.

(** [pv.Text.usingCache], lines 208-221; [fun_] is [fun.call(ctx)]. *)
Definition usingCache {A} (cache : value) (fun_ : M A) : M A := λ s,
  match cache with
  | Other => (Throw "Not a valid cache.", s)
  | Instance c =>
    let prevCache := _cache s in
    let '(r, s) :=
      fun_ (mkState (fontCaches s) (instances s) (Some c) (calls s)) in
    (r, mkState (fontCaches s) (instances s) prevCache (calls s))
  end.

(** The state when the script has been loaded. *)
Definition init : State := mkState [] [] None [].

(** The object that the cache [c] keeps for the font key [k]. *)
Definition entry (s : State) (c : nat) (k : string) : option nat :=
  fc ← instances s !! c; fc !! k.

(** What the cache [c] holds for the font key [k] and the text [t]. *)
Definition held (s : State) (c : nat) (k t : string) : option bbox :=
  o ← entry s c k; m ← fontCaches s !! o; m !! t.

(** Whether the font key [k] of the cache [c] can be given an entry. *)
Definition storable (s : State) (c : nat) (k : string) : Prop :=
  c < length (instances s) ∧ k ≠ "__proto__".

(** The states the code reaches: every font entry refers to an object of
    the store, no object is the entry of two fonts, no object has an own
    property ["__proto__"], and [_cache] refers to an instance. *)
Record wf (s : State) : Prop := {
  wf_bound c k o : entry s c k = Some o → o < length (fontCaches s);
  wf_inj c c' k k' o :
    entry s c k = Some o → entry s c' k' = Some o → c = c' ∧ k = k';
  wf_proto_font c : entry s c "__proto__" = None;
  wf_proto_text o m :
    fontCaches s !! o = Some m → m !! "__proto__" = None;
  wf_cache c : _cache s = Some c → c < length (instances s)
}.

(** One [FontSizeCache], created and in use, with nothing measured yet. *)
Definition session0 : State := mkState [] [∅] (Some 0) [].

(** A [measureCore] that gives every text the same box, and one whose
    [getBBox] fails. *)
Definition fixed_box (text : string) (font : option string) : outcome bbox :=
  Return (Bbox 30 12).
Definition no_box (text : string) (font : option string) : outcome bbox :=
  Throw "getBBox".

End Text.

(** ** pv.Layout.indent (src/unnamed/part_000)

    The layout walks the tree that [pv.dom(map)] builds and writes a
    position into every node.  A node is its two position fields, unset
    until the walk reaches it, and its children in the order of
    [firstChild] and [nextSibling].  The counters [breadth] and [depth]
    count nodes and levels: they are natural numbers, turned into a number
    where the code multiplies them by a spacing. *)
Module Indent.

Inductive node : Type :=
  | Node (x y : option float) (childNodes : list node).

Definition number (n : nat) : float :=
  PrimFloat.of_uint63 (Uint63.of_Z (Z.of_nat n)).

(** The closure variables of [pv.Layout.indent], lines 1-6, with the tree
    of [map]. *)
Record layout := mkLayout {
  map : node;
  nodes : option node;
  bspace : float;
  dspace : float;
  ax : option float;
  ay : option float
}.

Open Scope float_scope.

(** [function position(n, breadth, depth)], lines 9-16, with the values of
    [ax], [ay], [dspace] and [bspace] that it reads; the result is the
    node as the walk leaves it, with the returned [breadth]. *)
Fixpoint position (ax ay dspace bspace : float) (n : node)
    (breadth depth : nat) : node * nat :=
  match n with
  | Node _ _ childNodes =>
    let x := ax + number depth * dspace in
    let depth := S depth in
    let y := ay + number breadth * bspace in
    let breadth := S breadth in
    let '(cs, breadth) :=
      (fix loop (cs : list node) (breadth : nat) : list node * nat :=
         match cs with
         | [] => ([], breadth)
         | c :: rest =>
           let '(c', breadth) :=
             position ax ay dspace bspace c breadth depth in
           let '(rest', breadth) := loop rest breadth in
           (c' :: rest', breadth)
         end) childNodes breadth in
    (Node (Some x) (Some y) cs, breadth)
  end.

(** [pv.Layout.indent = function(map)], lines 1-6: the state of a new
    layout. *)
Definition indent (map : node) : layout := mkLayout map None 15 15 None None.

(** [function data()], lines 19-26; the array [nodes] is the tree of its
    first element. *)
Definition data (l : layout) : node * layout :=
  match nodes l with
  | Some ns => (ns, l)
  | None =>
    let ax := dspace l - 0.5 in
    let ay := bspace l - 0.5 in
    let ns := (position ax ay (dspace l) (bspace l) (map l) 0 0).1 in
    (ns, mkLayout (map l) (Some ns) (bspace l) (dspace l) (Some ax) (Some ay))
  end.

(** [layout.spacing], lines 38-42. *)
Definition spacing (depth breadth : float) (l : layout) : layout :=
  mkLayout (map l) (nodes l) breadth depth (ax l) (ay l).

Close Scope float_scope.

(** The number of nodes of a tree. *)
Fixpoint size (n : node) : nat :=
  match n with
  | Node _ _ cs => S (list_sum (List.map size cs))
  end.

(** The positions of the nodes of a tree, parents before children. *)
Fixpoint coords (n : node) : list (option float * option float) :=
  match n with
  | Node x y cs => (x, y) :: flat_map coords cs
  end.

(** The level of the nodes of a tree whose root is at level [d], parents
    before children. *)
Fixpoint levels (d : nat) (n : node) : list nat :=
  match n with
  | Node _ _ cs => d :: flat_map (levels (S d)) cs
  end.

(** The position of the node of rank [row] and level [level]. *)
Definition place (ax ay dspace bspace : float) (row level : nat)
    : option float * option float :=
  (Some (ax + number level * dspace)%float,
   Some (ay + number row * bspace)%float).

(** A root with two children, the first with a child of its own. *)
Definition family : node :=
  Node None None [Node None None [Node None None []]; Node None None []].

End Indent.

(** * Lemmas and theorems *)

(** ** The order of binary64 values *)

Lemma lexcmp_spec a b :
  match lexcmp a b with
  | Lt => lexlt a b
  | Eq => a = b
  | Gt => lexlt b a
  end.
Proof.
  destruct a as [[a1 a2] a3], b as [[b1 b2] b3]. unfold lexcmp, lexlt.
  cbn [fst snd].
  destruct (Z.compare_spec a1 b1); [|lia..].
  destruct (Z.compare_spec a2 b2); [|lia..].
  destruct (Z.compare_spec a3 b3); [|lia..]. by subst.
Qed.

Lemma SFcompare_key f1 f2 :
  SFcompare f1 f2 = a ← key f1; b ← key f2; Some (lexcmp a b).
Proof.
  destruct f1 as [[]|[]| |[] m1 e1], f2 as [[]|[]| |[] m2 e2];
    try reflexivity.
  cbn. unfold lexcmp. cbn [fst snd]. rewrite Z.compare_opp.
  rewrite (Z.compare_antisym e1 e2).
  destruct (e1 ?= e2)%Z; reflexivity.
Qed.

Lemma fkey_nan a : is_nan a = true → fkey a = None.
Proof. intros H. unfold fkey, Prim2SF. by rewrite H. Qed.

Lemma fkey_valid a : is_nan a = false → is_Some (fkey a).
Proof.
  intros H. unfold fkey, Prim2SF. rewrite H.
  destruct (is_zero a); [by eexists|].
  destruct (is_infinity a); [destruct (get_sign a); by eexists|].
  destruct (Z.frexp a) as [r e]. destruct (shr_fexp _ _ _ _ _) as [shr e'].
  destruct (shr_m shr); [by eexists| |by eexists].
  destruct (get_sign a); by eexists.
Qed.

Lemma is_nan_key a : is_nan a = false ↔ is_Some (fkey a).
Proof.
  split; [apply fkey_valid|]. intros [k Hk].
  destruct (is_nan a) eqn:H; [|done]. by rewrite fkey_nan in Hk.
Qed.

Lemma ltb_key a b :
  (a <? b)%float = true ↔
  ∃ ka kb, fkey a = Some ka ∧ fkey b = Some kb ∧ lexlt ka kb.
Proof.
  rewrite ltb_spec. unfold SFltb. rewrite SFcompare_key. fold (fkey a) (fkey b).
  destruct (fkey a) as [ka|], (fkey b) as [kb|]; simpl;
    try (split; [done|by intros (? & ? & ? & ? & ?)]).
  pose proof (lexcmp_spec ka kb) as Hs. pose proof (lexcmp_spec kb ka) as Hs'.
  split.
  - destruct (lexcmp ka kb); try done. intros _. by exists ka, kb.
  - intros (? & ? & [= <-] & [= <-] & Hlt).
    destruct (lexcmp ka kb); try done.
    + subst. unfold lexlt in Hlt. lia.
    + unfold lexlt in *. lia.
Qed.

Lemma leb_key a b :
  (a <=? b)%float = true ↔
  ∃ ka kb, fkey a = Some ka ∧ fkey b = Some kb ∧ ¬ lexlt kb ka.
Proof.
  rewrite leb_spec. unfold SFleb. rewrite SFcompare_key. fold (fkey a) (fkey b).
  destruct (fkey a) as [ka|], (fkey b) as [kb|]; simpl;
    try (split; [done|by intros (? & ? & ? & ? & ?)]).
  pose proof (lexcmp_spec ka kb) as Hs.
  split.
  - destruct (lexcmp ka kb); try done; intros _; exists ka, kb;
      (split; [done|split; [done|]]); subst; unfold lexlt in *; lia.
  - intros (? & ? & [= <-] & [= <-] & Hlt).
    destruct (lexcmp ka kb); done.
Qed.

Lemma ltb_nan_l a b : is_nan a = true → (a <? b)%float = false.
Proof.
  intros Ha%fkey_nan. apply not_true_is_false.
  intros (? & ? & ? & _)%ltb_key. congruence.
Qed.

Lemma ltb_nan_r a b : is_nan b = true → (a <? b)%float = false.
Proof.
  intros Hb%fkey_nan. apply not_true_is_false.
  intros (? & ? & _ & ? & _)%ltb_key. congruence.
Qed.

Lemma ltb_valid a b :
  (a <? b)%float = true → is_nan a = false ∧ is_nan b = false.
Proof.
  intros (ka & kb & Ha & Hb & _)%ltb_key. rewrite !is_nan_key, Ha, Hb.
  by split; eexists.
Qed.

Lemma leb_refl a : is_nan a = false → (a <=? a)%float = true.
Proof.
  intros [k Hk]%is_nan_key. apply leb_key. exists k, k.
  split_and!; try done. unfold lexlt. lia.
Qed.

Lemma leb_total a b :
  is_nan a = false → is_nan b = false →
  (a <? b)%float = false → (b <=? a)%float = true.
Proof.
  intros [ka Ha]%is_nan_key [kb Hb]%is_nan_key Hlt. apply leb_key.
  exists kb, ka. split_and!; try done. intros Hab.
  assert ((a <? b)%float = true); [|congruence].
  apply ltb_key. by exists ka, kb.
Qed.

Lemma leb_trans a b c :
  (a <=? b)%float = true → (b <=? c)%float = true → (a <=? c)%float = true.
Proof.
  intros (ka & kb & Ha & Hb & Hab)%leb_key (kb' & kc & Hb' & Hc & Hbc)%leb_key.
  rewrite Hb in Hb'. injection Hb' as <-. apply leb_key.
  exists ka, kc. split_and!; try done. unfold lexlt in *. lia.
Qed.

Lemma ltb_leb a b : (a <? b)%float = true → (a <=? b)%float = true.
Proof.
  intros (ka & kb & Ha & Hb & Hab)%ltb_key. apply leb_key.
  exists ka, kb. split_and!; try done. unfold lexlt in *. lia.
Qed.

Lemma leb_infinity v : (infinity <=? v)%float = true → v = infinity.
Proof.
  rewrite leb_spec. intros H. apply Prim2SF_inj.
  change (Prim2SF infinity) with (S754_infinity false) in *.
  by destruct (Prim2SF v) as [[]|[]| |[] m e].
Qed.

Lemma leb_neg_infinity v : (v <=? neg_infinity)%float = true → v = neg_infinity.
Proof.
  rewrite leb_spec. intros H. apply Prim2SF_inj.
  change (Prim2SF neg_infinity) with (S754_infinity true) in *.
  by destruct (Prim2SF v) as [[]|[]| |[] m e].
Qed.

(** NaN propagates through the arithmetic of the coincidence test. *)
Lemma is_nan_SF a : is_nan a = true ↔ Prim2SF a = S754_nan.
Proof.
  split.
  - intros H. unfold Prim2SF. by rewrite H.
  - intros H. destruct (is_nan a) eqn:Hn; [done|].
    apply fkey_valid in Hn as [k Hk]. unfold fkey in Hk.
    by rewrite H in Hk.
Qed.

Lemma sub_nan a b :
  is_nan a = true ∨ is_nan b = true → is_nan (a - b)%float = true.
Proof.
  rewrite !is_nan_SF, sub_spec. unfold SF64sub.
  intros [->| ->]; [done|]. by destruct (Prim2SF a) as [[]|[]| |[]].
Qed.

Lemma abs_nan a : is_nan a = true → is_nan (abs a) = true.
Proof. rewrite !is_nan_SF, abs_spec. by intros ->. Qed.

Lemma add_nan a b :
  is_nan a = true ∨ is_nan b = true → is_nan (a + b)%float = true.
Proof.
  rewrite !is_nan_SF, add_spec. unfold SF64add.
  intros [->| ->]; [done|]. by destruct (Prim2SF a) as [[]|[]| |[]].
Qed.

(** A particle with a NaN coordinate is coincident with nothing. *)
Lemma coincident_valid q p :
  coincident q p = true → invalid q = false ∧ invalid p = false.
Proof.
  unfold coincident, invalid. intros [Hn _]%ltb_valid.
  destruct (is_nan (Particle.x q)) eqn:Hqx, (is_nan (Particle.y q)) eqn:Hqy,
    (is_nan (Particle.x p)) eqn:Hpx, (is_nan (Particle.y p)) eqn:Hpy;
    try done; exfalso;
    rewrite add_nan in Hn; try done;
    first [ left; apply abs_nan, sub_nan; by auto
          | right; apply abs_nan, sub_nan; by auto ].
Qed.

(** ** Unfolding equations *)

Lemma insertS_0 t p x1 y1 x2 y2 al :
  insertS 0 t p x1 y1 x2 y2 al = if invalid p then Some (t, al) else None.
Proof. reflexivity. Qed.

Lemma insertS_S fuel t p x1 y1 x2 y2 al :
  insertS (S fuel) t p x1 y1 x2 y2 al =
  if invalid p then Some (t, al)
  else match t with
  | Nil => None
  | Sh a lf pt k1 k2 k3 k4 =>
    if lf then
      match pt with
      | Some q =>
        if coincident q p then insertChildS fuel t p x1 y1 x2 y2 al
        else
          r ← insertChildS fuel (set_pS None t) q x1 y1 x2 y2 al;
          insertChildS fuel r.1 p x1 y1 x2 y2 r.2
      | None => Some (set_pS (Some p) t, al)
      end
    else insertChildS fuel t p x1 y1 x2 y2 al
  end.
Proof. reflexivity. Qed.

Lemma insertChildS_S fuel t p x1 y1 x2 y2 al :
  insertChildS (S fuel) t p x1 y1 x2 y2 al =
  let '(c, (a1, b1, a2, b2)) := descend p x1 y1 x2 y2 in
  let '(k, al) := child_or_newS c t al in
  r ← insertS fuel k p a1 b1 a2 b2 al;
  Some (set_childS c r.1 (set_leafS false t), r.2).
Proof. reflexivity. Qed.

Lemma insert_0 n p x1 y1 x2 y2 h :
  insert 0 n p x1 y1 x2 y2 h = if invalid p then Some (fail h) else None.
Proof. reflexivity. Qed.

Lemma insert_S fuel n p x1 y1 x2 y2 h :
  insert (S fuel) n p x1 y1 x2 y2 h =
  if invalid p then Some (fail h)
  else if Node.leaf (deref h n) then
    match Node.p (deref h n) with
    | Some q =>
      if coincident q p then insertChild fuel n p x1 y1 x2 y2 h
      else
        h ← insertChild fuel n q x1 y1 x2 y2 (update n (Node.set_p None) h);
        insertChild fuel n p x1 y1 x2 y2 h
    | None => Some (update n (Node.set_p (Some p)) h)
    end
  else insertChild fuel n p x1 y1 x2 y2 h.
Proof. reflexivity. Qed.

Lemma descend_lt p x1 y1 x2 y2 : (descend p x1 y1 x2 y2).1 < 4.
Proof. unfold descend. simpl. repeat case_match; lia. Qed.

Lemma descend_quadrant p x1 y1 x2 y2 :
  (descend p x1 y1 x2 y2).1
  = quadrant p ((x1 + x2) / 2)%float ((y1 + y2) / 2)%float.
Proof. unfold descend, quadrant. simpl. by repeat case_match. Qed.

(** [insertChild] goes to the child slot of the quadrant of [p], with the
    bounds of that quadrant. *)
Lemma insertChild_S fuel n p x1 y1 x2 y2 h :
  insertChild (S fuel) n p x1 y1 x2 y2 h =
  let '(c, (a1, b1, a2, b2)) := descend p x1 y1 x2 y2 in
  let '(k, h) := child_or_new (Node.child c) (Node.set_child c) n
                   (update n (Node.set_leaf false) h) in
  insert fuel k p a1 b1 a2 b2 h.
Proof.
  unfold descend, quadrant. cbn [insertChild].
  unfold quadrant.
  destruct (_ <=? Particle.x p)%float, (_ <=? Particle.y p)%float;
    reflexivity.
Qed.

(** ** Store lemmas *)

Section store_lemmas.
Implicit Types (h : Heap) (n a : loc) (nd : Node.t) (st : list Node.t).

Lemma store_update n f h : store (update n f h) = alter f n (store h).
Proof. reflexivity. Qed.

Lemma deref_lookup h n nd : store h !! n = Some nd → deref h n = nd.
Proof. unfold deref. by intros ->. Qed.

Lemma lookup_update_eq n f h nd :
  store h !! n = Some nd → store (update n f h) !! n = Some (f nd).
Proof. intros H. by rewrite store_update, list_lookup_alter_eq, H. Qed.

Lemma lookup_update_ne n a f h :
  n ≠ a → store (update n f h) !! a = store h !! a.
Proof. intros H. by rewrite store_update, list_lookup_alter_ne. Qed.

Lemma length_update n f h :
  length (store (update n f h)) = length (store h).
Proof. by rewrite store_update, length_alter. Qed.

Lemma tree_at_frame st st' o t :
  (∀ a, a ∈ addrs t → st' !! a = st !! a) →
  tree_at st o t → tree_at st' o t.
Proof.
  revert o. induction t as [|a lf pt k1 IH1 k2 IH2 k3 IH3 k4 IH4];
    intros o Hfr; simpl; [done|].
  intros (-> & nd & Hnd & Hlf & Hpt & H1 & H2 & H3 & H4).
  split; [done|]. exists nd.
  rewrite Hfr by (simpl; left).
  repeat split; try done.
  - apply IH1; [|done]. intros b Hb. apply Hfr. simpl.
    right. rewrite !elem_of_app. tauto.
  - apply IH2; [|done]. intros b Hb. apply Hfr. simpl.
    right. rewrite !elem_of_app. tauto.
  - apply IH3; [|done]. intros b Hb. apply Hfr. simpl.
    right. rewrite !elem_of_app. tauto.
  - apply IH4; [|done]. intros b Hb. apply Hfr. simpl.
    right. rewrite !elem_of_app. tauto.
Qed.

Lemma pool_at_frame st st' o l :
  (∀ a, a ∈ l → st' !! a = st !! a) →
  pool_at st o l → pool_at st' o l.
Proof.
  revert o. induction l as [|a l IH]; intros o Hfr; simpl; [done|].
  intros (-> & nd & Hnd & Hcl & Hrest).
  split; [done|]. exists nd. rewrite Hfr by left.
  do 2 (split; [done|]). apply IH; [|done].
  intros b Hb. apply Hfr. by right.
Qed.

Lemma tree_at_bound st o t a :
  tree_at st o t → a ∈ addrs t → a < length st.
Proof.
  revert o. induction t as [|b lf pt k1 IH1 k2 IH2 k3 IH3 k4 IH4];
    intros o; simpl; [by intros _ ?%elem_of_nil|].
  intros (-> & nd & Hnd & _ & _ & H1 & H2 & H3 & H4).
  rewrite elem_of_cons, !elem_of_app.
  intros [->|[?|[?|[?|?]]]]; eauto using lookup_lt_Some.
Qed.

Lemma pool_at_bound st o l a :
  pool_at st o l → a ∈ l → a < length st.
Proof.
  revert o. induction l as [|b l IH]; intros o; simpl;
    [by intros _ ?%elem_of_nil|].
  intros (-> & nd & Hnd & _ & Hrest).
  rewrite elem_of_cons. intros [->|?]; eauto using lookup_lt_Some.
Qed.

Lemma tree_at_root st o t : tree_at st o t → o = rootS t.
Proof. destruct t; simpl; [done|]. by intros [-> _]. Qed.
End store_lemmas.

(** ** Shape lemmas *)

Section shape_lemmas.
Implicit Types (t s : shape) (c i j : nat).

Lemma addrs_split c t : addrs t ≡ₚ addrs (childS c t) ++ others c t.
Proof.
  destruct t as [|a lf pt k1 k2 k3 k4]; [done|].
  unfold others. destruct c as [|[|[|c]]]; simpl; solve_Permutation.
Qed.

Lemma addrs_set_child c s t :
  nonNil t → addrs (set_childS c s t) ≡ₚ addrs s ++ others c t.
Proof.
  intros Ht. rewrite (addrs_split c (set_childS c s t)).
  destruct t as [|a lf pt k1 k2 k3 k4]; [done|].
  unfold others. by destruct c as [|[|[|c]]].
Qed.

Lemma others_set_leaf c b t : others c (set_leafS b t) = others c t.
Proof. destruct t; [done|]. by destruct c as [|[|[|c]]]. Qed.

Lemma addrs_set_p q t : addrs (set_pS q t) = addrs t.
Proof. by destruct t. Qed.

Lemma childS_set_leaf c b t : childS c (set_leafS b t) = childS c t.
Proof. by destruct t. Qed.

Lemma childS_set_p c q t : childS c (set_pS q t) = childS c t.
Proof. by destruct t. Qed.

Lemma rootS_set_child c s t : rootS (set_childS c s t) = rootS t.
Proof. destruct t; [done|]. by destruct c as [|[|[|c]]]. Qed.

Lemma rootS_set_leaf b t : rootS (set_leafS b t) = rootS t.
Proof. by destruct t. Qed.

Lemma rootS_set_p q t : rootS (set_pS q t) = rootS t.
Proof. by destruct t. Qed.

Lemma nonNil_root t : nonNil t ↔ is_Some (rootS t).
Proof.
  destruct t; unfold nonNil; simpl; split; intros H;
    by first [done | destruct H | eexists].
Qed.

Lemma root_in_others c t a : rootS t = Some a → a ∈ others c t.
Proof.
  destruct t; [done|]. intros [= ->].
  unfold others. destruct c as [|[|[|c]]]; simpl; left.
Qed.
End shape_lemmas.

(** ** The allocator on shapes *)

Section alloc_lemmas.
Implicit Types (t s : shape) (al : alloc).

Lemma seq_join m m1 m2 :
  m ≤ m1 → m1 ≤ m2 → seq m (m1 - m) ++ seq m1 (m2 - m1) = seq m (m2 - m).
Proof.
  intros H1 H2. replace (m2 - m) with ((m1 - m) + (m2 - m1)) by lia.
  rewrite seq_app. do 2 f_equal. lia.
Qed.

Lemma nodeS_spec al a al' :
  nodeS al = (a, al') →
  al.2 ≤ al'.2 ∧ a :: al'.1 ≡ₚ al.1 ++ seq al.2 (al'.2 - al.2).
Proof.
  destruct al as [[|b l] m]; unfold nodeS; simpl; intros [= <- <-]; simpl.
  - split; [lia|]. by replace (S m - m) with 1 by lia.
  - split; [lia|]. by rewrite Nat.sub_diag, app_nil_r.
Qed.

Lemma child_or_newS_spec c t al k al' :
  child_or_newS c t al = (k, al') →
  nonNil k ∧ al.2 ≤ al'.2 ∧
  addrs k ++ al'.1 ≡ₚ addrs (childS c t) ++ al.1 ++ seq al.2 (al'.2 - al.2).
Proof.
  unfold child_or_newS. destruct (childS c t) as [|a lf pt k1 k2 k3 k4] eqn:Hc.
  - destruct (nodeS al) as [a al1] eqn:Hn. intros [= <- <-].
    apply nodeS_spec in Hn as [? Hp]. by split; [|split].
  - intros [= <- <-]. split; [done|]. split; [lia|].
    by rewrite Nat.sub_diag, app_nil_r.
Qed.

Lemma insertS_addrs fuel :
  (∀ t p x1 y1 x2 y2 al r,
    nonNil t → insertS fuel t p x1 y1 x2 y2 al = Some r →
    rootS r.1 = rootS t ∧ al.2 ≤ r.2.2 ∧
    addrs r.1 ++ r.2.1 ≡ₚ addrs t ++ al.1 ++ seq al.2 (r.2.2 - al.2)) ∧
  (∀ t p x1 y1 x2 y2 al r,
    nonNil t → insertChildS fuel t p x1 y1 x2 y2 al = Some r →
    rootS r.1 = rootS t ∧ al.2 ≤ r.2.2 ∧
    addrs r.1 ++ r.2.1 ≡ₚ addrs t ++ al.1 ++ seq al.2 (r.2.2 - al.2)).
Proof.
  assert (Hid : ∀ t al, addrs t ++ al.1
                ≡ₚ addrs t ++ al.1 ++ seq al.2 (al.2 - al.2)).
  { intros. by rewrite Nat.sub_diag, app_nil_r. }
  induction fuel as [|fuel [IHi IHc]]; split;
    intros t p x1 y1 x2 y2 al r Ht.
  - rewrite insertS_0. destruct (invalid p); [|done].
    intros [= <-]. simpl. eauto.
  - done.
  - rewrite insertS_S.
    destruct (invalid p); [intros [= <-]; simpl; eauto|].
    destruct t as [|a lf pt k1 k2 k3 k4]; [done|].
    destruct lf; [|by apply IHc].
    destruct pt as [q|].
    + destruct (coincident q p); [by apply IHc|].
      destruct (insertChildS fuel _ q _ _ _ _ _) as [r1|] eqn:H1; [|done].
      cbn [mbind option_bind]. intros H2.
      apply IHc in H1 as (Hr1 & Hm1 & Hp1); [|done].
      apply IHc in H2 as (Hr2 & Hm2 & Hp2);
        [|by apply nonNil_root; rewrite Hr1].
      split; [by rewrite Hr2, Hr1|]. split; [lia|].
      rewrite Hp2, app_assoc, Hp1. cbn [set_pS addrs].
      rewrite <-!app_assoc. by rewrite seq_join.
    + intros [= <-]. split; [done|]. split; [simpl; lia|].
      apply (Hid (Sh a true (Some p) k1 k2 k3 k4)).
  - rewrite insertChildS_S.
    destruct (descend p x1 y1 x2 y2) as [c [[[a1 b1] a2] b2]].
    destruct (child_or_newS c t al) as [k al1] eqn:Hk.
    destruct (insertS fuel k p a1 b1 a2 b2 al1) as [r1|] eqn:H1; [|done].
    cbn [mbind option_bind]. intros [= <-]. cbn [fst snd].
    apply child_or_newS_spec in Hk as (Hk & Hm & Hp).
    apply IHi in H1 as (Hr1 & Hm1 & Hp1); [|done].
    split; [by rewrite rootS_set_child, rootS_set_leaf|]. split; [lia|].
    rewrite addrs_set_child by (by destruct t).
    rewrite others_set_leaf.
    rewrite (Permutation_app_comm (addrs r1.1)), <-app_assoc, Hp1.
    rewrite (app_assoc (addrs k)), Hp, <-!app_assoc, seq_join by lia.
    rewrite (addrs_split c t). solve_Permutation.
Qed.
End alloc_lemmas.

(** ** Nodes of a tree-shaped heap, slot by slot *)

Section slots.
Implicit Types (t s : shape) (c i : nat) (nd : Node.t)
  (st : list Node.t).

Lemma tree_at_elim st n t :
  tree_at st (Some n) t →
  ∃ nd, rootS t = Some n ∧ st !! n = Some nd ∧
    Node.leaf nd = leaf_of t ∧ Node.p nd = pt_of t ∧
    ∀ i, tree_at st (Node.child i nd) (childS i t).
Proof.
  destruct t as [|a lf pt k1 k2 k3 k4]; simpl; [done|].
  intros ([= <-] & nd & Hnd & Hlf & Hpt & H1 & H2 & H3 & H4).
  exists nd. repeat split; try done.
  by intros [|[|[|i]]].
Qed.

Lemma tree_at_intro st n nd t :
  rootS t = Some n → st !! n = Some nd →
  Node.leaf nd = leaf_of t → Node.p nd = pt_of t →
  (∀ i, i < 4 → tree_at st (Node.child i nd) (childS i t)) →
  tree_at st (Some n) t.
Proof.
  destruct t as [|a lf pt k1 k2 k3 k4]; simpl; [done|].
  intros [= ->] Hnd Hlf Hpt Hc. split; [done|]. exists nd.
  repeat split; try done.
  - apply (Hc 0); lia.
  - apply (Hc 1); lia.
  - apply (Hc 2); lia.
  - apply (Hc 3); lia.
Qed.

Lemma tree_at_None st t : tree_at st None t → t = Nil.
Proof. destruct t; simpl; [done|]. by intros [? _]. Qed.

Lemma tree_at_Some st k t : tree_at st (Some k) t → nonNil t.
Proof. by destruct t. Qed.

Lemma child_set_child c i v nd :
  c < 4 → i < 4 →
  Node.child i (Node.set_child c v nd)
  = if decide (i = c) then v else Node.child i nd.
Proof.
  intros Hc Hi. destruct c as [|[|[|[|]]]]; try lia;
    destruct i as [|[|[|[|]]]]; try lia; reflexivity.
Qed.

Lemma childS_set_child c i s t :
  nonNil t → c < 4 → i < 4 →
  childS i (set_childS c s t) = if decide (i = c) then s else childS i t.
Proof.
  intros Ht Hc Hi. destruct t; [done|].
  destruct c as [|[|[|[|]]]]; try lia;
    destruct i as [|[|[|[|]]]]; try lia; reflexivity.
Qed.

Lemma leaf_set_child c v nd :
  Node.leaf (Node.set_child c v nd) = Node.leaf nd.
Proof. by destruct c as [|[|[|]]]. Qed.

Lemma p_set_child c v nd : Node.p (Node.set_child c v nd) = Node.p nd.
Proof. by destruct c as [|[|[|]]]. Qed.

Lemma leaf_of_set_child c s t : leaf_of (set_childS c s t) = leaf_of t.
Proof. destruct t; [done|]. by destruct c as [|[|[|]]]. Qed.

Lemma pt_of_set_child c s t : pt_of (set_childS c s t) = pt_of t.
Proof. destruct t; [done|]. by destruct c as [|[|[|]]]. Qed.

Lemma child_in_addrs c t a : a ∈ addrs (childS c t) → a ∈ addrs t.
Proof. rewrite (addrs_split c t), elem_of_app. tauto. Qed.

Lemma child_in_others i c t a :
  i < 4 → c < 4 → i ≠ c → a ∈ addrs (childS i t) → a ∈ others c t.
Proof.
  intros Hi Hc Hic. destruct t as [|b lf pt k1 k2 k3 k4]; [done|].
  unfold others.
  destruct c as [|[|[|[|]]]]; try lia;
    destruct i as [|[|[|[|]]]]; try lia; simpl;
    rewrite elem_of_cons, !elem_of_app; tauto.
Qed.

Lemma others_in_addrs c t a : a ∈ others c t → a ∈ addrs t.
Proof. rewrite (addrs_split c t), elem_of_app. tauto. Qed.

Lemma NoDup_split c t l :
  NoDup (addrs t ++ l) →
  NoDup (addrs (childS c t) ++ l) ∧
  ∀ a, a ∈ others c t → a ∉ addrs (childS c t) ++ l.
Proof.
  rewrite (addrs_split c t).
  rewrite (Permutation_app_comm (addrs (childS c t))), <-app_assoc.
  rewrite NoDup_app. intros (_ & Hd & Hn). split; [done|].
  intros a Ha Hb. by apply (Hd a).
Qed.

Lemma NoDup_others c t l : NoDup (addrs t ++ l) → NoDup (others c t).
Proof.
  rewrite (addrs_split c t).
  rewrite (Permutation_app_comm (addrs (childS c t))), <-app_assoc.
  rewrite NoDup_app. tauto.
Qed.
End slots.

(** ** The heap functions compute what the shape functions compute *)

Section simulation.
Implicit Types (h : Heap) (t s : shape) (al : alloc) (n k a c : nat).

Lemma repr_bound h n t al a :
  repr h n t al → a ∈ addrs t ++ al.1 → a < length (store h).
Proof.
  intros (Ht & Hp & _ & _). rewrite elem_of_app.
  intros [?|?]; eauto using tree_at_bound, pool_at_bound.
Qed.

Lemma child_set_leaf c b (nd : Node.t) :
  Node.child c (Node.set_leaf b nd) = Node.child c nd.
Proof. by destruct c as [|[|[|]]]. Qed.

Lemma root_not_in_child c t l n :
  NoDup (addrs t ++ l) → rootS t = Some n →
  n ∉ addrs (childS c t) ++ l.
Proof.
  intros Hnd Hr. apply (NoDup_split c) in Hnd as [_ Hd].
  by apply Hd, root_in_others.
Qed.

Lemma node_sim h al k h' :
  pool_at (store h) (cache h) al.1 → al.2 = length (store h) →
  node h = (k, h') →
  ∃ al' ndk, nodeS al = (k, al') ∧
    pool_at (store h') (cache h') al'.1 ∧ al'.2 = length (store h') ∧
    (∀ a, a < length (store h) → store h' !! a = store h !! a) ∧
    store h' !! k = Some ndk ∧ Node.cleared ndk ∧
    length (store h) ≤ length (store h').
Proof.
  unfold node, nodeS. destruct al as [l m]; simpl. intros Hp ->.
  destruct l as [|a l]; simpl in Hp.
  - rewrite Hp. intros [= <- <-].
    exists ([], S (length (store h))), Node.fresh. simpl.
    rewrite length_app. simpl. split_and!; try done; try lia.
    + intros a Ha. by rewrite lookup_app_l.
    + by rewrite list_lookup_middle.
  - destruct Hp as (Hc & nd & Hnd & Hcl & Hrest). rewrite Hc.
    intros [= <- <-]. exists (l, length (store h)), nd. simpl.
    rewrite (deref_lookup _ _ _ Hnd). by split_and!.
Qed.

Lemma nodeS_elem al k al' a :
  nodeS al = (k, al') → a ∈ k :: al'.1 → a ∈ al.1 ∨ al.2 ≤ a.
Proof.
  intros [_ Hp]%nodeS_spec. rewrite Hp, elem_of_app, elem_of_seq.
  intros [?|?]; [by left|right; lia].
Qed.

Lemma nodeS_NoDup al k al' :
  nodeS al = (k, al') → NoDup al.1 → (∀ a, a ∈ al.1 → a < al.2) →
  NoDup (k :: al'.1).
Proof.
  intros [_ Hp]%nodeS_spec Hnd Hb. rewrite Hp.
  apply NoDup_app. split; [done|]. split; [|apply NoDup_seq].
  intros a Ha [? _]%elem_of_seq. apply Hb in Ha. lia.
Qed.

Lemma child_or_new_sim h n t al c k h3 :
  repr h n t al → c < 4 →
  child_or_new (Node.child c) (Node.set_child c) n
    (update n (Node.set_leaf false) h) = (k, h3) →
  ∃ s al3 nd3,
    child_or_newS c t al = (s, al3) ∧ repr h3 k s al3 ∧
    store h3 !! n = Some nd3 ∧ Node.leaf nd3 = false ∧
    Node.p nd3 = pt_of t ∧ Node.child c nd3 = Some k ∧
    (∀ i, i < 4 → i ≠ c →
       tree_at (store h3) (Node.child i nd3) (childS i t)) ∧
    (∀ a, a ∈ others c t → a ∉ addrs s ++ al3.1) ∧
    length (store h) ≤ length (store h3) ∧
    (∀ a, a < length (store h) → a ≠ n →
       store h3 !! a = store h !! a) ∧
    (∀ a, a < length (store h) → a ∉ addrs t ++ al.1 →
       a ∉ addrs s ++ al3.1).
Proof.
  intros Hrepr Hc. pose proof Hrepr as (Ht & Hp & Hm & Hnd).
  destruct (tree_at_elim _ _ _ Ht) as (nd & Hroot & Hn & Hlf & Hpt & Hch).
  pose proof (NoDup_split c t al.1 Hnd) as [Hnd' Hdisj].
  pose proof (root_in_others c t n Hroot) as Hno.
  assert (Hnt : n ∈ addrs t) by by apply (others_in_addrs c).
  assert (Hnl : n ∉ al.1).
  { intros ?. apply (Hdisj n Hno), elem_of_app. by right. }
  set (h1 := update n (Node.set_leaf false) h).
  assert (Hn1 : store h1 !! n = Some (Node.set_leaf false nd))
    by by apply lookup_update_eq.
  unfold child_or_new. rewrite (deref_lookup _ _ _ Hn1), child_set_leaf.
  destruct (Node.child c nd) as [k'|] eqn:Hk.
  - intros [= <- <-]. pose proof (Hch c) as Hcc. rewrite Hk in Hcc.
    exists (childS c t), al, (Node.set_leaf false nd).
    split_and!.
    + unfold child_or_newS. by destruct (childS c t).
    + split_and!.
      * eapply tree_at_frame; [|done]. intros a Ha.
        apply lookup_update_ne. intros <-.
        apply (Hdisj n Hno), elem_of_app. by left.
      * eapply pool_at_frame; [|done]. intros a Ha.
        apply lookup_update_ne. by intros <-.
      * unfold h1. by rewrite length_update.
      * done.
    + done.
    + done.
    + done.
    + by rewrite child_set_leaf.
    + intros i Hi Hic. rewrite child_set_leaf.
      eapply tree_at_frame; [|apply Hch]. intros a Ha.
      apply lookup_update_ne. intros <-.
      eapply (root_not_in_child i t al.1 n); [done..|].
      apply elem_of_app. by left.
    + done.
    + unfold h1. rewrite length_update. lia.
    + intros a Ha Hna. by apply lookup_update_ne.
    + intros a Ha Hna Hin. apply Hna. revert Hin. rewrite !elem_of_app.
      intros [?%child_in_addrs|?]; tauto.
  - pose proof (Hch c) as Hcc. rewrite Hk in Hcc.
    apply tree_at_None in Hcc.
    destruct (node h1) as [k2 h2] eqn:Hnode. intros [= <- <-].
    assert (Hp1 : pool_at (store h1) (cache h1) al.1).
    { eapply pool_at_frame; [|apply Hp]. intros a Ha.
      apply lookup_update_ne. by intros <-. }
    assert (Hm1 : al.2 = length (store h1))
      by (unfold h1; by rewrite length_update).
    destruct (node_sim h1 al k2 h2 Hp1 Hm1 Hnode)
      as (al2 & ndk & HnS & Hp2 & Hm2 & Hfr2 & Hk2 & Hcl & Hle).
    assert (Hlen1 : length (store h1) = length (store h))
      by apply length_update.
    assert (Hbound : ∀ a, a ∈ addrs t ++ al.1 → a < length (store h))
      by (intros a; by apply repr_bound with n).
    assert (Hnew : ∀ a, a ∈ k2 :: al2.1 → a ∈ al.1 ∨ length (store h) ≤ a).
    { intros a Ha. rewrite <-Hlen1, <-Hm1. by eapply nodeS_elem. }
    assert (Hold : ∀ a, a ∈ addrs t → a ∉ k2 :: al2.1).
    { intros a Ha [Hb|Hb]%Hnew.
      - apply NoDup_app in Hnd as (_ & Hd & _). by apply (Hd a).
      - assert (a < length (store h)); [|lia].
        apply Hbound, elem_of_app. by left. }
    assert (Hkn : n ≠ k2).
    { intros ->. apply (Hold k2 Hnt). left. }
    exists (leafS k2), al2,
      (Node.set_child c (Some k2) (Node.set_leaf false nd)).
    assert (Hn2 : store h2 !! n = Some (Node.set_leaf false nd)).
    { rewrite Hfr2; [done|]. rewrite Hlen1. apply Hbound, elem_of_app.
      by left. }
    split_and!.
    + unfold child_or_newS. by rewrite Hcc, HnS.
    + split_and!.
      * unfold leafS. cbn [tree_at]. split; [done|]. exists ndk.
        rewrite lookup_update_ne by done.
        destruct Hcl as (? & ? & -> & -> & -> & ->). by split_and!.
      * eapply pool_at_frame; [|done]. intros a Ha.
        apply lookup_update_ne. intros <-. apply (Hold n Hnt). by right.
      * by rewrite length_update.
      * simpl. eapply nodeS_NoDup; [done|..].
        -- by apply NoDup_app in Hnd as (_ & _ & ?).
        -- intros a Ha. rewrite Hm. apply Hbound, elem_of_app. by right.
    + by apply lookup_update_eq.
    + by rewrite leaf_set_child.
    + by rewrite p_set_child.
    + rewrite child_set_child by done. by rewrite decide_True.
    + intros i Hi Hic. rewrite child_set_child by done.
      rewrite decide_False by done. rewrite child_set_leaf.
      eapply tree_at_frame; [|apply Hch]. intros a Ha.
      assert (a ≠ n).
      { intros ->. eapply (root_not_in_child i t al.1 n); [done..|].
        apply elem_of_app. by left. }
      rewrite lookup_update_ne by done.
      rewrite Hfr2.
      * by apply lookup_update_ne.
      * rewrite Hlen1. apply Hbound, elem_of_app. left.
        by apply (child_in_addrs i).
    + intros a Ha. simpl. by apply Hold, (others_in_addrs c).
    + rewrite length_update. lia.
    + intros a Ha Hna.
      rewrite lookup_update_ne by done. rewrite Hfr2 by lia.
      by apply lookup_update_ne.
    + intros a Ha Hna. simpl. intros [Hb|Hb]%Hnew; [|lia].
      apply Hna, elem_of_app. by right.
Qed.

Lemma after_elem t al (r : shape * alloc) a :
  addrs r.1 ++ r.2.1 ≡ₚ addrs t ++ al.1 ++ seq al.2 (r.2.2 - al.2) →
  a ∈ addrs r.1 ++ r.2.1 → a ∈ addrs t ++ al.1 ∨ al.2 ≤ a.
Proof.
  intros ->. rewrite app_assoc, (elem_of_app _ (seq _ _)), elem_of_seq.
  intros [?|?]; [by left|right; lia].
Qed.

Lemma repr_set_p h n t al q :
  repr h n t al → repr (update n (Node.set_p q) h) n (set_pS q t) al.
Proof.
  intros (Ht & Hp & Hm & Hnd).
  destruct (tree_at_elim _ _ _ Ht) as (nd & Hroot & Hn & Hlf & Hpt & Hch).
  split_and!.
  - apply tree_at_intro with (Node.set_p q nd).
    + by rewrite rootS_set_p.
    + by apply lookup_update_eq.
    + by destruct t.
    + by destruct t.
    + intros i Hi. rewrite childS_set_p.
      eapply tree_at_frame; [|apply (Hch i)]. intros a Ha.
      apply lookup_update_ne. intros <-.
      eapply (root_not_in_child i t al.1 n); [done..|].
      apply elem_of_app. by left.
  - eapply pool_at_frame; [|done]. intros a Ha.
    apply lookup_update_ne. intros <-.
    apply NoDup_app in Hnd as (_ & Hd & _). apply (Hd n); [|done].
    destruct t; [done|]. injection Hroot as ->. left.
  - by rewrite length_update.
  - by rewrite addrs_set_p.
Qed.

Lemma sim_post_fail h n t al : repr h n t al → sim_post h n t al (fail h) (t, al).
Proof. intros Hr. split; [done|]. split; [done|]. by intros a _ _. Qed.

Lemma insert_sim fuel :
  (∀ n p x1 y1 x2 y2 h h' t al,
    repr h n t al → insert fuel n p x1 y1 x2 y2 h = Some h' →
    ∃ r, insertS fuel t p x1 y1 x2 y2 al = Some r ∧
         sim_post h n t al h' r) ∧
  (∀ n p x1 y1 x2 y2 h h' t al,
    repr h n t al → insertChild fuel n p x1 y1 x2 y2 h = Some h' →
    ∃ r, insertChildS fuel t p x1 y1 x2 y2 al = Some r ∧
         sim_post h n t al h' r).
Proof.
  induction fuel as [|fuel [IHi IHc]]; split;
    intros n p x1 y1 x2 y2 h h' t al Hrepr.
  - rewrite insert_0, insertS_0. destruct (invalid p); [|done].
    intros [= <-]. eauto using sim_post_fail.
  - done.
  - rewrite insert_S, insertS_S.
    destruct (invalid p); [intros [= <-]; eauto using sim_post_fail|].
    pose proof Hrepr as (Ht & Hp & Hm & Hnd).
    destruct (tree_at_elim _ _ _ Ht) as (nd & Hroot & Hn & Hlf & Hpt & Hch).
    rewrite (deref_lookup _ _ _ Hn), Hlf, Hpt.
    destruct t as [|a lf pt k1 k2 k3 k4]; [done|].
    cbn [leaf_of pt_of]. destruct lf; [|by apply IHc].
    destruct pt as [q|].
    + destruct (coincident q p); [by apply IHc|].
      set (t := Sh a true (Some q) k1 k2 k3 k4) in *.
      destruct (insertChild fuel n q _ _ _ _ _) as [h1|] eqn:E1; [|done].
      cbn [mbind option_bind]. intros E2.
      pose proof (repr_set_p h n t al None Hrepr) as Hrepr0.
      destruct (IHc _ _ _ _ _ _ _ _ _ _ Hrepr0 E1)
        as (r1 & ES1 & Hr1 & Hle1 & Hfr1).
      destruct (IHc _ _ _ _ _ _ _ _ _ _ Hr1 E2)
        as (r2 & ES2 & Hr2 & Hle2 & Hfr2).
      exists r2. rewrite ES1. split; [done|].
      rewrite length_update in Hle1.
      split; [done|]. split; [lia|].
      intros b Hb Hnb.
      assert (b ≠ n).
      { intros ->. apply Hnb. injection Hroot as ->. left. }
      rewrite Hfr2, Hfr1.
      * by apply lookup_update_ne.
      * by rewrite length_update.
      * by rewrite addrs_set_p.
      * lia.
      * apply (proj2 (insertS_addrs fuel)) in ES1 as (_ & _ & Hperm);
          [|done].
        intros [Hin|Hin]%(after_elem _ _ _ _ Hperm).
        -- by rewrite addrs_set_p in Hin.
        -- lia.
    + intros [= <-]. eexists. split; [done|].
      split; [by apply repr_set_p|]. split; [by rewrite length_update|].
      intros b Hb Hnb. apply lookup_update_ne. intros <-.
      apply Hnb. injection Hroot as ->. left.
  - rewrite insertChild_S, insertChildS_S.
    pose proof (descend_lt p x1 y1 x2 y2) as Hc.
    destruct (descend p x1 y1 x2 y2) as [c [[[a1 b1] a2] b2]].
    cbn [fst] in Hc.
    destruct (child_or_new _ _ _ _) as [k h3] eqn:Hcn. intros Hins.
    destruct (child_or_new_sim _ _ _ _ _ _ _ Hrepr Hc Hcn)
      as (s & al3 & nd3 & HcS & Hrepr3 & Hn3 & Hlf3 & Hpt3 & Hk3 &
          Hsib & Hdisj & Hle3 & Hfr3 & Hout3).
    destruct (IHi _ _ _ _ _ _ _ _ _ _ Hrepr3 Hins)
      as (r1 & ES & Hr1 & Hle & Hfr).
    rewrite HcS, ES. cbn [mbind option_bind]. eexists. split; [done|].
    unfold sim_post. cbn [fst snd].
    pose proof Hrepr as (Ht & Hp & Hm & Hnd).
    pose proof Hrepr3 as (Ht3 & Hp3 & Hm3 & Hnd3).
    pose proof Hr1 as (Ht1 & Hp1 & Hm1 & Hnd1).
    assert (Hnon : nonNil t) by by eapply tree_at_Some.
    assert (Hroot : rootS t = Some n) by (symmetry; by eapply tree_at_root).
    apply (proj1 (insertS_addrs fuel)) in ES as (Hroot1 & _ & Hperm);
      [|by eapply tree_at_Some].
    assert (Hout : ∀ b, b < length (store h3) → b ∉ addrs s ++ al3.1 →
                        b ∉ addrs r1.1 ++ r1.2.1).
    { intros b Hb Hnb [Hin|Hin]%(after_elem _ _ _ _ Hperm); [done|lia]. }
    split_and!.
    + split_and!; [|done..|].
      * apply tree_at_intro with nd3.
        -- by rewrite rootS_set_child, rootS_set_leaf.
        -- rewrite Hfr; [done|by eapply lookup_lt_Some|].
           by apply Hdisj, root_in_others.
        -- rewrite leaf_of_set_child. by destruct t.
        -- rewrite pt_of_set_child. by destruct t.
        -- intros i Hi. rewrite childS_set_child by (by destruct t || done).
           destruct (decide (i = c)) as [->|Hic]; [by rewrite Hk3|].
           rewrite childS_set_leaf.
           eapply tree_at_frame; [|by apply Hsib]. intros b Hb.
           apply Hfr.
           ++ eapply tree_at_bound; [by apply Hsib|done].
           ++ by eapply Hdisj, child_in_others.
      * rewrite addrs_set_child by (by destruct t).
        rewrite others_set_leaf, (Permutation_app_comm (addrs r1.1)).
        rewrite <-app_assoc. apply NoDup_app. split_and!.
        -- by eapply NoDup_others.
        -- intros b Hb. apply Hout; [|by apply Hdisj].
           assert (b < length (store h)); [|lia].
           eapply repr_bound; [done|]. apply elem_of_app. left.
           by eapply others_in_addrs.
        -- done.
    + lia.
    + intros b Hb Hnb. rewrite <-(Hfr3 b Hb).
      * apply Hfr; [lia|by apply Hout3].
      * intros ->. apply Hnb, elem_of_app. left.
        by apply (others_in_addrs c), root_in_others.
Qed.
End simulation.

(** ** Invariants of the insertion, on shapes *)

Section invariants.
Implicit Types (t s k : shape) (c i : nat) (b : Bounds) (p q : Particle.t).

Lemma descend_cell p b : (descendB p b).2 = cell (descendB p b).1 b.
Proof.
  destruct b as [[[x1 y1] x2] y2]. unfold descendB, descend, cell.
  cbn [fst snd]. by repeat case_match.
Qed.

Lemma descendB_lt p b : (descendB p b).1 < 4.
Proof. destruct b as [[[x1 y1] x2] y2]. apply descend_lt. Qed.

Lemma points_split c t : points t ≡ₚ points (childS c t) ++ pothers c t.
Proof.
  destruct t as [|a lf pt k1 k2 k3 k4]; [done|].
  unfold pothers. destruct c as [|[|[|c]]]; simpl; solve_Permutation.
Qed.

Lemma points_set_child c s t :
  nonNil t → points (set_childS c s t) ≡ₚ points s ++ pothers c t.
Proof.
  intros Ht. rewrite (points_split c (set_childS c s t)).
  destruct t as [|a lf pt k1 k2 k3 k4]; [done|].
  unfold pothers. by destruct c as [|[|[|c]]].
Qed.

Lemma pothers_set_leaf c lf t : pothers c (set_leafS lf t) = pothers c t.
Proof. destruct t; [done|]. by destruct c as [|[|[|c]]]. Qed.

Lemma shape_ok_elim t i : shape_ok t → shape_ok (childS i t).
Proof.
  destruct t as [|a lf pt k1 k2 k3 k4]; [done|].
  intros (_ & ? & ? & ? & ?). by destruct i as [|[|[|i]]].
Qed.

Lemma shape_ok_leaf t i : shape_ok t → leaf_of t = true → childS i t = Nil.
Proof.
  destruct t as [|a lf pt k1 k2 k3 k4]; [done|]. simpl.
  intros [Hl _] ->. destruct Hl as (? & ? & ? & ?).
  by destruct i as [|[|[|i]]].
Qed.

Lemma shape_ok_internal t :
  shape_ok t → leaf_of t = false → ∃ i, i < 4 ∧ nonNil (childS i t).
Proof.
  destruct t as [|a lf pt k1 k2 k3 k4]; [done|]. simpl.
  intros [Hl _] ->.
  destruct k1; [|exists 0; split; [lia|done]].
  destruct k2; [|exists 1; split; [lia|done]].
  destruct k3; [|exists 2; split; [lia|done]].
  destruct k4; [|exists 3; split; [lia|done]].
  by destruct Hl.
Qed.

Lemma shape_ok_set_child c s t :
  c < 4 → shape_ok t → shape_ok s → nonNil s →
  shape_ok (set_childS c s (set_leafS false t)).
Proof.
  intros Hc Ht Hs Hn. destruct t as [|a lf pt k1 k2 k3 k4]; [done|].
  destruct Ht as (_ & ? & ? & ? & ?).
  destruct c as [|[|[|c]]]; simpl; split_and!; try done;
    by intros (? & ? & ? & ?).
Qed.

Lemma shape_ok_set_p (o : option Particle.t) t :
  shape_ok t → shape_ok (set_pS o t).
Proof. by destruct t. Qed.

Lemma routed_child b t i :
  i < 4 → routed b t →
  in_quadrant b i (childS i t) ∧ routed (cell i b) (childS i t).
Proof.
  intros Hi. destruct t as [|a lf pt k1 k2 k3 k4].
  - intros _. split; [|done]. by intros q ?%elem_of_nil.
  - intros (? & ? & ? & ?). destruct i as [|[|[|[|]]]]; try lia; done.
Qed.

Lemma routed_set_child b c s t :
  c < 4 → routed b t → in_quadrant b c s → routed (cell c b) s →
  routed b (set_childS c s (set_leafS false t)).
Proof.
  intros Hc Ht Hq Hs. destruct t as [|a lf pt k1 k2 k3 k4]; [done|].
  destruct Ht as ([? ?] & [? ?] & [? ?] & [? ?]).
  destruct c as [|[|[|[|]]]]; try lia;
    cbn [set_childS set_leafS routed]; by split_and!.
Qed.

Lemma routed_set_p b (o : option Particle.t) t :
  routed b t → routed b (set_pS o t).
Proof. by destruct t. Qed.

Lemma points_set_p (o : option Particle.t) t :
  nonNil t → option_list (pt_of t) ++ points (set_pS o t)
             ≡ₚ option_list o ++ points t.
Proof.
  destruct t as [|a lf pt k1 k2 k3 k4]; [done|]. intros _. simpl.
  solve_Permutation.
Qed.
End invariants.

Section insert_invariants.
Implicit Types (t s k : shape) (c i : nat) (b : Bounds) (p q : Particle.t)
  (al : alloc).

Lemma shape_inv_set_p b (o : option Particle.t) t :
  (∀ q, o = Some q → invalid q = false) →
  shape_inv b t → shape_inv b (set_pS o t).
Proof.
  intros Ho (Hs & Hr & Hv). split_and!.
  - by apply shape_ok_set_p.
  - by apply routed_set_p.
  - intros q Hq.
    destruct t as [|a lf pt k1 k2 k3 k4]; [by apply elem_of_nil in Hq|].
    simpl in Hq. apply elem_of_app in Hq as [Hq|Hq].
    + destruct o; [|by apply elem_of_nil in Hq].
      apply list_elem_of_singleton in Hq as ->. by apply Ho.
    + apply Hv. simpl. apply elem_of_app. by right.
Qed.

Lemma shape_inv_leafS b a : shape_inv b (leafS a).
Proof.
  assert (Hq : ∀ b i, in_quadrant b i Nil) by by intros ? ? q ?%elem_of_nil.
  split_and!.
  - by simpl.
  - simpl. split_and!; by try apply Hq.
  - by intros q ?%elem_of_nil.
Qed.

Lemma child_or_newS_inv c t al k al' b :
  c < 4 → child_or_newS c t al = (k, al') → shape_inv b t →
  shape_inv (cell c b) k ∧ points k = points (childS c t).
Proof.
  intros Hc Hk (Hs & Hr & Hv). unfold child_or_newS in Hk.
  destruct (childS c t) as [|a lf pt k1 k2 k3 k4] eqn:Hct.
  - destruct (nodeS al) as [a al1]. injection Hk as <- <-.
    split; [|done]. apply shape_inv_leafS.
  - injection Hk as <- <-. split; [|done]. rewrite <-Hct. split_and!.
    + by apply shape_ok_elim.
    + by apply routed_child.
    + intros q Hq. apply Hv. rewrite (points_split c t).
      apply elem_of_app. by left.
Qed.

Lemma valid_points_perm t l :
  points t ≡ₚ l → (∀ q, q ∈ l → invalid q = false) → valid_points t.
Proof. intros Hp Hl q Hq. apply Hl. by rewrite <-Hp. Qed.

Lemma arriving_valid p q : q ∈ arriving p → invalid q = false.
Proof.
  unfold arriving. destruct (invalid p) eqn:Hp.
  - by intros ?%elem_of_nil.
  - by intros ->%list_elem_of_singleton.
Qed.

Lemma insertS_inv fuel :
  (∀ t p x1 y1 x2 y2 al r,
    nonNil t → shape_inv (x1, y1, x2, y2) t →
    insertS fuel t p x1 y1 x2 y2 al = Some r →
    shape_inv (x1, y1, x2, y2) r.1 ∧
    points r.1 ≡ₚ arriving p ++ points t) ∧
  (∀ t p x1 y1 x2 y2 al r,
    nonNil t → shape_inv (x1, y1, x2, y2) t →
    insertChildS fuel t p x1 y1 x2 y2 al = Some r →
    shape_inv (x1, y1, x2, y2) r.1 ∧
    points r.1 ≡ₚ arriving p ++ points t).
Proof.
  induction fuel as [|fuel [IHi IHc]]; split;
    intros t p x1 y1 x2 y2 al r Ht Hinv.
  - rewrite insertS_0. unfold arriving.
    destruct (invalid p); [|done]. by intros [= <-].
  - done.
  - rewrite insertS_S. unfold arriving at 1.
    destruct (invalid p) eqn:Hp; [by intros [= <-]|].
    destruct t as [|a lf pt k1 k2 k3 k4]; [done|].
    assert (Harr : arriving p = [p]) by (unfold arriving; by rewrite Hp).
    destruct lf; [|rewrite <-Harr; by apply IHc].
    destruct pt as [q|].
    + destruct (coincident q p); [rewrite <-Harr; by apply IHc|].
      set (t := Sh a true (Some q) k1 k2 k3 k4) in *.
      destruct (insertChildS fuel _ q _ _ _ _ _) as [r1|] eqn:H1; [|done].
      cbn [mbind option_bind]. intros H2.
      assert (Hq : invalid q = false).
      { apply Hinv. simpl. left. }
      pose proof H1 as Hroot1.
      apply (proj2 (insertS_addrs fuel)) in Hroot1 as (Hroot1 & _);
        [|done].
      apply IHc in H1 as (Hinv1 & Hp1);
        [|done|by apply shape_inv_set_p].
      apply IHc in H2 as (Hinv2 & Hp2);
        [|by apply nonNil_root; rewrite Hroot1|done].
      split; [done|]. rewrite Hp2, Hp1, Harr.
      unfold arriving. rewrite Hq.
      rewrite <-(points_set_p None t) by done. simpl. solve_Permutation.
    + intros [= <-]. cbn [fst]. split.
      * apply (shape_inv_set_p _ (Some p) (Sh a true None k1 k2 k3 k4));
          [|done]. by intros q [= <-].
      * done.
  - rewrite insertChildS_S.
    pose proof (descendB_lt p (x1, y1, x2, y2)) as Hc.
    pose proof (descend_cell p (x1, y1, x2, y2)) as Hcell.
    cbn [descendB] in Hc, Hcell.
    destruct (descend p x1 y1 x2 y2) as [c [[[a1 b1] a2] b2]] eqn:Hd.
    cbn [fst snd] in Hc, Hcell.
    destruct (child_or_newS c t al) as [k al1] eqn:Hk.
    destruct (insertS fuel k p a1 b1 a2 b2 al1) as [r1|] eqn:H1; [|done].
    cbn [mbind option_bind]. intros [= <-]. cbn [fst snd].
    pose proof (child_or_newS_spec _ _ _ _ _ Hk) as (Hkn & _).
    apply (child_or_newS_inv _ _ _ _ _ (x1, y1, x2, y2) Hc) in Hk
      as (Hinvk & Hptk); [|done].
    rewrite <-Hcell in Hinvk.
    pose proof H1 as Hroot1.
    apply (proj1 (insertS_addrs fuel)) in Hroot1 as (Hroot1 & _); [|done].
    apply IHi in H1 as (Hinv1 & Hp1); [|done..].
    destruct Hinv as (Hs & Hr & Hv). destruct Hinv1 as (Hs1 & Hr1 & Hv1).
    assert (Hperm : points (set_childS c r1.1 (set_leafS false t))
                    ≡ₚ arriving p ++ points t).
    { rewrite points_set_child by (by destruct t).
      rewrite pothers_set_leaf, Hp1, Hptk, (points_split c t).
      solve_Permutation. }
    split; [|done]. split_and!.
    + apply shape_ok_set_child; try done.
      apply nonNil_root. rewrite Hroot1. by apply nonNil_root.
    + apply routed_set_child; try done; [|by rewrite <-Hcell].
      intros q. rewrite Hp1, Hptk, elem_of_app. intros [Hq|Hq].
      * unfold arriving in Hq. destruct (invalid p);
          [by apply elem_of_nil in Hq|].
        apply list_elem_of_singleton in Hq as ->.
        cbn [descendB]. by rewrite Hd.
      * by apply (routed_child _ t c).
    + eapply valid_points_perm; [done|]. intros q.
      rewrite elem_of_app. intros [?|?]; [by eapply arriving_valid|].
      by apply Hv.
Qed.
End insert_invariants.

(** ** The heap during a build *)

Section build.
Implicit Types (h : Heap) (t : shape) (al : alloc) (b : Bounds)
  (p : Particle.t) (ps : list Particle.t).

Lemma accepted_snoc ps p : accepted (ps ++ [p]) = accepted ps ++ arriving p.
Proof.
  unfold accepted, arriving. rewrite filter_app. f_equal.
  destruct (invalid p) eqn:Hp.
  - by rewrite filter_cons_False, filter_nil by by rewrite Hp.
  - by rewrite filter_cons_True, filter_nil by done.
Qed.

Lemma built_node h r h0 b :
  pool_ok h → node h = (r, h0) → built h0 r b [].
Proof.
  intros (l & Hp & Hnd) Hn.
  destruct (node_sim h (l, length (store h)) r h0 Hp eq_refl Hn)
    as (al' & ndk & HnS & Hp' & Hm' & Hfr & Hk & Hcl & Hle).
  exists (leafS r), al'. split_and!.
  - split_and!; try done.
    + unfold leafS. cbn [tree_at]. split; [done|]. exists ndk.
      destruct Hcl as (? & ? & -> & -> & -> & ->). by split_and!.
    + simpl. eapply nodeS_NoDup; [done..|].
      intros a Ha. simpl. by eapply pool_at_bound.
  - apply shape_inv_leafS.
  - done.
Qed.

Lemma built_insert fuel h r x1 y1 x2 y2 ps p h' :
  built h r (x1, y1, x2, y2) ps →
  insert fuel r p x1 y1 x2 y2 h = Some h' →
  built h' r (x1, y1, x2, y2) (ps ++ [p]).
Proof.
  intros (t & al & Hrepr & Hinv & Hpts) Hins.
  destruct (proj1 (insert_sim fuel) _ _ _ _ _ _ _ _ _ _ Hrepr Hins)
    as (r1 & HS & Hrepr1 & _).
  assert (Hnon : nonNil t) by (destruct Hrepr; by eapply tree_at_Some).
  apply (proj1 (insertS_inv fuel)) in HS as (Hinv1 & Hp1); [|done..].
  exists r1.1, r1.2. split_and!; [done..|].
  rewrite Hp1, Hpts, accepted_snoc. solve_Permutation.
Qed.

Lemma insert_all_app fuel n ps1 ps2 x1 y1 x2 y2 h :
  insert_all fuel n (ps1 ++ ps2) x1 y1 x2 y2 h
  = h1 ← insert_all fuel n ps1 x1 y1 x2 y2 h;
    insert_all fuel n ps2 x1 y1 x2 y2 h1.
Proof.
  revert h. induction ps1 as [|p ps1 IH]; intros h; [done|].
  simpl. destruct (insert fuel n p x1 y1 x2 y2 h) as [h1|]; [|done].
  simpl. apply IH.
Qed.

Lemma built_insert_all fuel r x1 y1 x2 y2 ps :
  ∀ h ps0 h', built h r (x1, y1, x2, y2) ps0 →
  insert_all fuel r ps x1 y1 x2 y2 h = Some h' →
  built h' r (x1, y1, x2, y2) (ps0 ++ ps).
Proof.
  induction ps as [|p ps IH]; intros h ps0 h' Hb; simpl.
  - intros [= <-]. by rewrite app_nil_r.
  - destruct (insert fuel r p x1 y1 x2 y2 h) as [h1|] eqn:H1; [|done].
    simpl. intros H2. rewrite (cons_middle p ps0 ps), app_assoc.
    eapply IH; [|done]. by eapply built_insert.
Qed.

(** What the constructor returns, step by step. *)
Lemma new_Quadtree_inv fuel ps h T h' :
  new_Quadtree fuel ps h = Some (T, h') →
  root T = (node h).1 ∧ bounds T = squarify (scan ps) ∧
  insert_allB fuel (root T) ps (bounds T) (node h).2 = Some h'.
Proof.
  unfold new_Quadtree, insert_allB, bounds.
  destruct (squarify (scan ps)) as [[[x1 y1] x2] y2].
  destruct (node h) as [r h0].
  destruct (insert_all fuel r ps x1 y1 x2 y2 h0) as [h1|] eqn:H1; [|done].
  simpl. by intros [= <- <-].
Qed.

Lemma new_Quadtree_built fuel ps h T h' :
  pool_ok h → new_Quadtree fuel ps h = Some (T, h') →
  built h' (root T) (bounds T) ps.
Proof.
  intros Hp (Hr & Hb & Hins)%new_Quadtree_inv.
  unfold insert_allB in Hins.
  destruct (bounds T) as [[[x1 y1] x2] y2].
  apply (built_insert_all _ _ _ _ _ _ _ _ [] _) in Hins; [done|].
  apply built_node with h; [done|]. rewrite Hr. by destruct (node h).
Qed.

(** A built tree and the free list next to it are tree-shaped, which is
    what the theorems on insertion and disposal ask of a heap. *)
Lemma new_Quadtree_tree_shaped fuel ps h T h' :
  pool_ok h → new_Quadtree fuel ps h = Some (T, h') →
  tree_shaped h' (root T).
Proof.
  intros Hp Hnew.
  destruct (new_Quadtree_built _ _ _ _ _ Hp Hnew) as (t & al & Hr & _).
  by exists t, al.
Qed.
End build.

(** ** Reading the tree from the heap *)

Section readers.
Implicit Types (h : Heap) (t s : shape) (b : Bounds) (p : Particle.t).

Lemma child_nonNil (st : list Node.t) o t :
  tree_at st o t → nonNil t → ∃ k, o = Some k.
Proof. destruct t; [done|]. intros [-> _] _. by eexists. Qed.

Lemma has_child_slot (nd : Node.t) i :
  is_Some (Node.child i nd) → has_child nd.
Proof.
  unfold has_child. intros [k Hk].
  destruct i as [|[|[|i]]]; simpl in Hk; rewrite Hk; naive_solver.
Qed.

Lemma reachable_shape h r t n :
  tree_at (store h) (Some r) t → shape_ok t → reachable h r n →
  ∃ s, tree_at (store h) (Some n) s ∧ shape_ok s.
Proof.
  intros Ht Hs. induction 1 as [|n i k _ (s & Hts & Hss) Hk]; [by eauto|].
  destruct (tree_at_elim _ _ _ Hts) as (nd & _ & Hn & _ & _ & Hch).
  rewrite (deref_lookup _ _ _ Hn) in Hk.
  exists (childS i s). split; [|by apply shape_ok_elim].
  rewrite <-Hk. apply Hch.
Qed.

Lemma built_nonleaf_inv h r b ps : built h r b ps → nonleaf_inv h r.
Proof.
  intros (t & al & (Ht & _) & (Hs & _) & _) n Hreach Hlf.
  destruct (reachable_shape _ _ _ _ Ht Hs Hreach) as (s & Hts & Hss).
  destruct (tree_at_elim _ _ _ Hts) as (nd & _ & Hn & Hlfs & _ & Hch).
  rewrite (deref_lookup _ _ _ Hn) in *.
  destruct (shape_ok_internal s Hss) as (i & Hi & Hnon); [congruence|].
  apply (has_child_slot _ i).
  destruct (child_nonNil _ _ _ (Hch i) Hnon) as [k ->]. by eexists.
Qed.

Lemma points_cases p t :
  p ∈ points t → pt_of t = Some p ∨ ∃ i, i < 4 ∧ p ∈ points (childS i t).
Proof.
  destruct t as [|a lf pt k1 k2 k3 k4]; [by intros ?%elem_of_nil|].
  simpl. rewrite !elem_of_app. intros [Hp|[Hp|[Hp|[Hp|Hp]]]].
  - left. destruct pt; [|by apply elem_of_nil in Hp].
    by apply list_elem_of_singleton in Hp as ->.
  - right. exists 0. split; [lia|done].
  - right. exists 1. split; [lia|done].
  - right. exists 2. split; [lia|done].
  - right. exists 3. split; [lia|done].
Qed.

Lemma routed_walk h p t :
  ∀ n b, tree_at (store h) (Some n) t → routed b t → p ∈ points t →
  ∃ n', walk h p n b n' ∧ Node.p (deref h n') = Some p.
Proof.
  induction t as [|a lf pt k1 IH1 k2 IH2 k3 IH3 k4 IH4];
    intros n b Ht Hr Hp; [by apply elem_of_nil in Hp|].
  set (t := Sh a lf pt k1 k2 k3 k4) in *.
  assert (IH : ∀ i n b, tree_at (store h) (Some n) (childS i t) →
               routed b (childS i t) → p ∈ points (childS i t) →
               ∃ n', walk h p n b n' ∧ Node.p (deref h n') = Some p)
    by (by intros [|[|[|i]]]).
  destruct (tree_at_elim _ _ _ Ht) as (nd & _ & Hn & _ & Hpt & Hch).
  apply points_cases in Hp as [Hp|(i & Hi & Hp)].
  - exists n. split; [constructor|].
    by rewrite (deref_lookup _ _ _ Hn), Hpt.
  - destruct (routed_child b t i Hi Hr) as [Hq Hri].
    pose proof (Hq p Hp) as Hd.
    assert (Hnon : nonNil (childS i t)).
    { intros Hnil. rewrite Hnil in Hp. by apply elem_of_nil in Hp. }
    destruct (child_nonNil _ _ _ (Hch i) Hnon) as [k Hk].
    pose proof (Hch i) as Hti. rewrite Hk in Hti.
    destruct (IH i k (cell i b) Hti Hri Hp) as (n' & Hw & Hn').
    exists n'. split; [|done]. apply walk_down with k.
    + by rewrite Hd, (deref_lookup _ _ _ Hn).
    + by rewrite descend_cell, Hd.
Qed.
End readers.

(** ** The built tree: containment, internal nodes, root, quadrants *)

(** C1. Containment: in the tree returned by a build that started from a
    well-formed free list, every valid particle of the input is attached to
    a node that the top-down walk for that particle visits, whether that
    node is a leaf or an internal node that kept its particle as anchor. *)
Theorem containment fuel ps h T h' p :
  pool_ok h → new_Quadtree fuel ps h = Some (T, h') →
  p ∈ ps → invalid p = false →
  ∃ n, walk h' p (root T) (bounds T) n ∧ Node.p (deref h' n) = Some p.
Proof.
  intros Hpool Hnew Hp Hv.
  destruct (new_Quadtree_built _ _ _ _ _ Hpool Hnew)
    as (t & al & (Ht & _) & (_ & Hr & _) & Hpts).
  apply (routed_walk h' p t); [done..|].
  rewrite Hpts. unfold accepted. by apply list_elem_of_filter.
Qed.

(** C4. Non-leaf invariant: at every point of the insertion loop, that is
    after the particles of any prefix [ps1] of the input have been taken,
    every node reachable from the root with [leaf = false] has a non-null
    child slot; the last such state is the tree the build returns. *)
Theorem nonleaf_invariant fuel ps h T h' :
  pool_ok h → new_Quadtree fuel ps h = Some (T, h') →
  ∀ ps1 ps2, ps = ps1 ++ ps2 →
  ∃ h1, insert_allB fuel (root T) ps1 (bounds T) (node h).2 = Some h1 ∧
        insert_allB fuel (root T) ps2 (bounds T) h1 = Some h' ∧
        nonleaf_inv h1 (root T).
Proof.
  intros Hpool (Hroot & _ & Hins)%new_Quadtree_inv ps1 ps2 ->.
  unfold insert_allB in *. destruct (bounds T) as [[[x1 y1] x2] y2].
  rewrite insert_all_app in Hins.
  destruct (insert_all fuel (root T) ps1 x1 y1 x2 y2 (node h).2)
    as [h1|] eqn:H1; [|done].
  exists h1. split; [done|]. split; [done|].
  apply built_nonleaf_inv with (x1, y1, x2, y2) ([] ++ ps1).
  eapply built_insert_all; [|done].
  apply built_node with h; [done|]. rewrite Hroot. by destruct (node h).
Qed.

Lemma pool_ok_empty : pool_ok empty_heap.
Proof. exists []. split; [done|constructor]. Qed.

(** C10. The root is acquired before any particle is looked at: the root of
    a built tree is the node returned by the first [node()] call and it is
    an allocated node; with no particles the build returns, for any fuel,
    and its root is a leaf without particle and without children. *)
Theorem root_always_acquired fuel ps h :
  pool_ok h →
  (∀ T h', new_Quadtree fuel ps h = Some (T, h') →
     root T = (node h).1 ∧ is_Some (store h' !! root T)) ∧
  (∃ T h', new_Quadtree fuel [] h = Some (T, h') ∧
     root T = (node h).1 ∧ is_Some (store h' !! root T) ∧
     Node.cleared (deref h' (root T))).
Proof.
  intros Hpool. split.
  - intros T h' Hnew.
    pose proof (new_Quadtree_built _ _ _ _ _ Hpool Hnew)
      as (t & al & (Ht & _) & _).
    apply new_Quadtree_inv in Hnew as (Hroot & _). split; [done|].
    destruct (tree_at_elim _ _ _ Ht) as (nd & _ & Hn & _). by eexists.
  - destruct Hpool as (l & Hp & Hnd).
    destruct (node h) as [r h0] eqn:Hn.
    destruct (node_sim h (l, length (store h)) r h0 Hp eq_refl Hn)
      as (al' & ndk & _ & _ & _ & _ & Hk & Hcl & _).
    unfold new_Quadtree. rewrite Hn.
    destruct (squarify (scan [])) as [[[x1 y1] x2] y2].
    eexists _, h0. split; [done|]. simpl. split; [done|].
    split; [by eexists|]. by rewrite (deref_lookup _ _ _ Hk).
Qed.

(** C5. A particle [p] arriving at a leaf [n] whose particle [q] is
    coincident with it, which no particle with a NaN coordinate is:
    [insert] is the one call [insertChild(n, p)]; with
    three units of fuel or more it returns; afterwards [q] is still the
    particle of [n], which is now internal, [p] is the particle of a new
    leaf in the child slot of its quadrant, and no other node that existed
    before has been written. *)
Theorem coincident_keeps_anchor fuel n p q x1 y1 x2 y2 h :
  (∃ t al, repr h n t al ∧ shape_ok t) →
  Node.leaf (deref h n) = true → Node.p (deref h n) = Some q →
  coincident q p = true →
  insert (S (S (S fuel))) n p x1 y1 x2 y2 h
    = insertChild (S (S fuel)) n p x1 y1 x2 y2 h ∧
  ∃ h' k,
    insert (S (S (S fuel))) n p x1 y1 x2 y2 h = Some h' ∧
    Node.p (deref h' n) = Some q ∧ Node.leaf (deref h' n) = false ∧
    Node.child (descend p x1 y1 x2 y2).1 (deref h' n) = Some k ∧
    k ≠ n ∧
    Node.p (deref h' k) = Some p ∧ Node.leaf (deref h' k) = true ∧
    (∀ a, a < length (store h) → a ≠ n → a ≠ k →
       store h' !! a = store h !! a).
Proof.
  intros (t & al & Hrepr & Hok) Hlf Hq Hco.
  destruct (coincident_valid _ _ Hco) as [_ Hv].
  rewrite insert_S, Hv, Hlf, Hq, Hco. split; [done|].
  rewrite insertChild_S.
  pose proof (descend_lt p x1 y1 x2 y2) as Hc.
  destruct (descend p x1 y1 x2 y2) as [c [[[a1 b1] a2] b2]].
  cbn [fst] in *.
  destruct (child_or_new _ _ _ _) as [k h3] eqn:Hcn.
  destruct (child_or_new_sim _ _ _ _ _ _ _ Hrepr Hc Hcn)
    as (s & al3 & nd3 & HcS & Hrepr3 & Hn3 & Hlf3 & Hpt3 & Hk3 &
        _ & Hdisj & _ & Hfr3 & _).
  pose proof Hrepr as (Ht & _).
  destruct (tree_at_elim _ _ _ Ht) as (nd & Hroot & Hn & Hlft & Hptt & _).
  rewrite (deref_lookup _ _ _ Hn) in Hlf, Hq.
  assert (Hnil : childS c t = Nil).
  { apply shape_ok_leaf; [done|congruence]. }
  unfold child_or_newS in HcS. rewrite Hnil in HcS.
  destruct (nodeS al) as [k' al'] eqn:HnS. injection HcS as <- <-.
  destruct Hrepr3 as (Ht3 & _).
  destruct (tree_at_elim _ _ _ Ht3) as (ndk & Hrootk & Hk & Hlfk & Hptk & _).
  injection Hrootk as ->. cbn [leafS leaf_of pt_of] in Hlfk, Hptk.
  assert (Hnk : k ≠ n).
  { intros ->. eapply Hdisj; [by apply root_in_others|]. simpl. left. }
  rewrite insert_S, Hv, (deref_lookup _ _ _ Hk), Hlfk, Hptk.
  eexists _, k. split; [done|].
  rewrite (deref_lookup _ _ nd3)
    by (by rewrite lookup_update_ne by done).
  rewrite (deref_lookup _ _ (Node.set_p (Some p) ndk))
    by (by apply lookup_update_eq).
  split_and!; try done.
  - congruence.
  - intros a Ha Han Hak. rewrite lookup_update_ne by done.
    by apply Hfr3.
Qed.


(** ** Disposal on a tree-shaped heap *)

Section disposal.
Implicit Types (h : Heap) (t : shape) (l : list loc).

Lemma flat_app t l : flat t l = flat t [] ++ l.
Proof.
  revert l. induction t as [|a lf pt k1 IH1 k2 IH2 k3 IH3 k4 IH4];
    intros l; [done|].
  simpl. rewrite (IH4 (flat k3 _)), (IH3 (flat k2 _)), (IH2 (flat k1 _)),
    (IH1 l).
  rewrite (IH4 (flat k3 _)), (IH3 (flat k2 _)), (IH2 (flat k1 [])).
  by rewrite <-!app_assoc.
Qed.

Lemma flat_perm t l : flat t l ≡ₚ addrs t ++ l.
Proof.
  revert l. induction t as [|a lf pt k1 IH1 k2 IH2 k3 IH3 k4 IH4];
    intros l; [done|].
  simpl. rewrite IH4, IH3, IH2, IH1. solve_Permutation.
Qed.

Lemma NoDup_sub (l1 big : list loc) : NoDup big → l1 ⊆+ big → NoDup l1.
Proof.
  intros Hnd [k Hk]%submseteq_Permutation. rewrite Hk in Hnd.
  by apply NoDup_app in Hnd as [? _].
Qed.

Lemma NoDup_disj (l1 l2 big : list loc) x :
  x ∈ l1 → x ∈ l2 → NoDup big → l1 ++ l2 ⊆+ big → False.
Proof.
  intros H1 H2 Hnd Hsub. apply (NoDup_sub _ _ Hnd) in Hsub.
  apply NoDup_app in Hsub as (_ & Hd & _). by apply (Hd x).
Qed.

Lemma dispose_child_opt fuel get n h nd :
  store h !! n = Some nd →
  dispose_child (dispose_node fuel) get n h = dispose_opt fuel (get nd) h.
Proof.
  intros Hn. unfold dispose_child. by rewrite (deref_lookup _ _ _ Hn).
Qed.

Lemma elem_of_singleton_list (a : loc) : a ∈ [a].
Proof. left. Qed.

Lemma dispose_sim t :
  ∀ fuel o h l,
  tree_at (store h) o t → pool_at (store h) (cache h) l →
  NoDup (addrs t ++ l) → height t ≤ fuel →
  ∃ h', dispose_opt fuel o h = Some h' ∧
    pool_at (store h') (cache h') (flat t l) ∧
    length (store h') = length (store h) ∧
    (∀ a, a ∉ addrs t → store h' !! a = store h !! a).
Proof.
  induction t as [|a lf pt k1 IH1 k2 IH2 k3 IH3 k4 IH4];
    intros fuel o h l Ht Hp Hnd Hfuel.
  { simpl in Ht. subst o. by exists h. }
  destruct Ht as (-> & nd & Hn & _ & _ & H1 & H2 & H3 & H4).
  destruct fuel as [|fuel]; [simpl in Hfuel; lia|].
  simpl in Hfuel, Hnd. cbn [dispose_opt dispose_node].
  pose proof (elem_of_singleton_list a) as Ha.
  (* first child *)
  rewrite (dispose_child_opt _ _ _ _ _ Hn).
  destruct (IH1 fuel (Node.c1 nd) h l H1 Hp)
    as (h1 & -> & Hp1 & Hl1 & Hf1);
    [eapply NoDup_sub; [exact Hnd|solve_submseteq]|lia|].
  cbn [mbind option_bind].
  assert (Hn1 : store h1 !! a = Some nd).
  { rewrite Hf1; [done|]. intros Hx.
    eapply NoDup_disj; [exact Ha|exact Hx|exact Hnd|solve_submseteq]. }
  (* second child *)
  rewrite (dispose_child_opt _ _ _ _ _ Hn1).
  destruct (IH2 fuel (Node.c2 nd) h1 (flat k1 l))
    as (h2 & -> & Hp2 & Hl2 & Hf2); [| |rewrite flat_perm|lia|].
  { eapply tree_at_frame; [|exact H2]. intros x Hx. apply Hf1.
    intros Hx1.
    eapply NoDup_disj; [exact Hx|exact Hx1|exact Hnd|solve_submseteq]. }
  { done. }
  { eapply NoDup_sub; [exact Hnd|solve_submseteq]. }
  cbn [mbind option_bind].
  assert (Hn2 : store h2 !! a = Some nd).
  { rewrite Hf2; [done|]. intros Hx.
    eapply NoDup_disj; [exact Ha|exact Hx|exact Hnd|solve_submseteq]. }
  (* third child *)
  rewrite (dispose_child_opt _ _ _ _ _ Hn2).
  destruct (IH3 fuel (Node.c3 nd) h2 (flat k2 (flat k1 l)))
    as (h3 & -> & Hp3 & Hl3 & Hf3); [| |rewrite !flat_perm|lia|].
  { eapply tree_at_frame; [|exact H3]. intros x Hx.
    rewrite Hf2, Hf1; [done|intros Hx1..];
    (eapply NoDup_disj; [exact Hx|exact Hx1|exact Hnd|solve_submseteq]). }
  { done. }
  { eapply NoDup_sub; [exact Hnd|solve_submseteq]. }
  cbn [mbind option_bind].
  assert (Hn3 : store h3 !! a = Some nd).
  { rewrite Hf3; [done|]. intros Hx.
    eapply NoDup_disj; [exact Ha|exact Hx|exact Hnd|solve_submseteq]. }
  (* fourth child *)
  rewrite (dispose_child_opt _ _ _ _ _ Hn3).
  destruct (IH4 fuel (Node.c4 nd) h3 (flat k3 (flat k2 (flat k1 l))))
    as (h4 & -> & Hp4 & Hl4 & Hf4); [| |rewrite !flat_perm|lia|].
  { eapply tree_at_frame; [|exact H4]. intros x Hx.
    rewrite Hf3, Hf2, Hf1; [done|intros Hx1..];
    (eapply NoDup_disj; [exact Hx|exact Hx1|exact Hnd|solve_submseteq]). }
  { done. }
  { eapply NoDup_sub; [exact Hnd|solve_submseteq]. }
  cbn [mbind option_bind].
  assert (Hn4 : store h4 !! a = Some nd).
  { rewrite Hf4; [done|]. intros Hx.
    eapply NoDup_disj; [exact Ha|exact Hx|exact Hnd|solve_submseteq]. }
  (* the node itself *)
  eexists. split; [done|]. unfold recycle, update. cbn [store cache].
  split_and!.
  - cbn [flat pool_at]. split; [done|]. eexists.
    rewrite list_lookup_alter_eq, Hn4. split; [done|].
    split; [by repeat split|]. cbn [Node.next].
    eapply pool_at_frame; [|exact Hp4]. intros x Hx.
    apply list_lookup_alter_ne. intros <-.
    rewrite !flat_perm in Hx.
    eapply NoDup_disj; [exact Ha|exact Hx|exact Hnd|solve_submseteq].
  - rewrite length_alter. lia.
  - intros x Hx. simpl in Hx.
    rewrite not_elem_of_cons, !not_elem_of_app in Hx.
    destruct Hx as (? & ? & ? & ? & ?).
    rewrite list_lookup_alter_ne by done.
    by rewrite Hf4, Hf3, Hf2, Hf1.
Qed.

Lemma acquire_pool l1 :
  ∀ h l2, pool_at (store h) (cache h) (l1 ++ l2) →
  ∃ h', acquire (length l1) h = (l1, h') ∧ store h' = store h ∧
        pool_at (store h') (cache h') l2.
Proof.
  induction l1 as [|a l1 IH]; intros h l2 Hp; [by exists h|].
  destruct Hp as (Hc & nd & Hn & _ & Hrest).
  cbn [length acquire]. unfold node. rewrite Hc.
  rewrite (deref_lookup _ _ _ Hn).
  destruct (IH (mkHeap (store h) (Node.next nd) (failed h)) l2 Hrest)
    as (h' & -> & Hs & Hp').
  by exists h'.
Qed.

Lemma pool_at_cleared (st : list Node.t) o l a :
  pool_at st o l → a ∈ l → ∃ nd, st !! a = Some nd ∧ Node.cleared nd.
Proof.
  revert o. induction l as [|b l IH]; intros o; simpl;
    [by intros _ ?%elem_of_nil|].
  intros (-> & nd & Hnd & Hcl & Hrest).
  rewrite elem_of_cons. intros [->|?]; eauto.
Qed.

Lemma addrs_reachable h r t n :
  tree_at (store h) (Some r) t → (n ∈ addrs t ↔ reachable h r n).
Proof.
  intros Ht. split.
  - revert r Ht.
    induction t as [|a lf pt k1 IH1 k2 IH2 k3 IH3 k4 IH4];
      intros r Ht Hn; [by apply elem_of_nil in Hn|].
    set (t := Sh a lf pt k1 k2 k3 k4) in *.
    assert (IH : ∀ i k, tree_at (store h) (Some k) (childS i t) →
                 n ∈ addrs (childS i t) → reachable h k n)
      by (by intros [|[|[|i]]]).
    destruct (tree_at_elim _ _ _ Ht) as (nd & [= <-] & Hnd & _ & _ & Hch).
    assert (Hsub : ∀ i, n ∈ addrs (childS i t) → reachable h a n).
    { intros i Hi.
      assert (Hnon : nonNil (childS i t)).
      { intros Hnil. rewrite Hnil in Hi. by apply elem_of_nil in Hi. }
      destruct (child_nonNil _ _ _ (Hch i) Hnon) as [k Hk].
      pose proof (Hch i) as Hti. rewrite Hk in Hti.
      pose proof (IH i k Hti Hi) as Hreach.
      clear -Hreach Hk Hnd. induction Hreach as [|m j k' _ IHr Hj].
      - eapply reach_child; [constructor|].
        by rewrite (deref_lookup _ _ _ Hnd).
      - by eapply reach_child. }
    simpl in Hn. rewrite elem_of_cons, !elem_of_app in Hn.
    destruct Hn as [->|[Hn|[Hn|[Hn|Hn]]]]; [constructor| | | |].
    + by apply (Hsub 0).
    + by apply (Hsub 1).
    + by apply (Hsub 2).
    + by apply (Hsub 3).
  - induction 1 as [|m i k Hreach IH Hk].
    + destruct t; [done|]. destruct Ht as [[= ->] _]. left.
    + clear Hreach. revert r Ht IH.
      induction t as [|a lf pt k1 IH1 k2 IH2 k3 IH3 k4 IH4];
        intros r Ht Hm; [by apply elem_of_nil in Hm|].
      set (t := Sh a lf pt k1 k2 k3 k4) in *.
      assert (IH : ∀ i r, tree_at (store h) (Some r) (childS i t) →
                   m ∈ addrs (childS i t) → k ∈ addrs (childS i t))
        by (by intros [|[|[|j]]]).
      destruct (tree_at_elim _ _ _ Ht) as (nd & [= <-] & Hnd & _ & _ & Hch).
      assert (Hsub : ∀ j, m ∈ addrs (childS j t) → k ∈ addrs t).
      { intros j Hj. apply (child_in_addrs j).
        assert (Hnon : nonNil (childS j t)).
        { intros Hnil. rewrite Hnil in Hj. by apply elem_of_nil in Hj. }
        destruct (child_nonNil _ _ _ (Hch j) Hnon) as [k' Hk'].
        pose proof (Hch j) as Htj. rewrite Hk' in Htj. by eapply IH. }
      simpl in Hm. rewrite elem_of_cons, !elem_of_app in Hm.
      destruct Hm as [->|[Hm|[Hm|[Hm|Hm]]]].
      * rewrite (deref_lookup _ _ _ Hnd) in Hk.
        apply (child_in_addrs i). pose proof (Hch i) as Hti.
        rewrite Hk in Hti. destruct (childS i t); [done|].
        destruct Hti as [[= ->] _]. left.
      * by apply (Hsub 0).
      * by apply (Hsub 1).
      * by apply (Hsub 2).
      * by apply (Hsub 3).
Qed.

(** After a disposal the free list is well formed again: the next build
    can start from it. *)
Lemma dispose_pool_ok fuel T h t al :
  repr h (root T) t al → height t ≤ fuel →
  ∃ h', dispose fuel T h = Some h' ∧ pool_ok h'.
Proof.
  intros (Ht & Hp & Hm & Hnd) Hfuel.
  destruct (dispose_sim t fuel (Some (root T)) h al.1 Ht Hp Hnd Hfuel)
    as (h1 & Hd & Hp1 & _).
  exists h1. split; [done|]. exists (flat t al.1). split; [done|].
  by rewrite flat_perm.
Qed.
End disposal.

(** C7. Pool round trip: disposing a tree-shaped heap's tree of [K] nodes
    terminates with fuel at least the height of the tree, and the next [K]
    calls of [node()] return each node of the tree exactly once, allocate
    nothing, and find each of them with [leaf = true], no particle and no
    children; the free list is then what it was before the disposal. *)
Theorem pool_round_trip fuel T h t al :
  repr h (root T) t al → height t ≤ fuel →
  ∃ h1 ns h2,
    dispose fuel T h = Some h1 ∧
    acquire (length (addrs t)) h1 = (ns, h2) ∧
    NoDup ns ∧ (∀ n, n ∈ ns ↔ reachable h (root T) n) ∧
    length ns = length (addrs t) ∧
    store h2 = store h1 ∧ length (store h2) = length (store h) ∧
    (∀ n, n ∈ ns → ∃ nd, store h2 !! n = Some nd ∧ Node.cleared nd) ∧
    pool_at (store h2) (cache h2) al.1.
Proof.
  intros (Ht & Hp & Hm & Hnd) Hfuel.
  destruct (dispose_sim t fuel (Some (root T)) h al.1 Ht Hp Hnd Hfuel)
    as (h1 & Hd & Hp1 & Hl1 & Hf1).
  rewrite flat_app in Hp1.
  pose proof (flat_perm t []) as Hperm. rewrite app_nil_r in Hperm.
  destruct (acquire_pool _ _ _ Hp1) as (h2 & Hacq & Hs2 & Hp2).
  rewrite (Permutation_length Hperm) in Hacq.
  exists h1, (flat t []), h2. split_and!; try done.
  - rewrite Hperm. by apply NoDup_app in Hnd as [? _].
  - intros n. rewrite Hperm. by apply addrs_reachable.
  - by rewrite Hperm.
  - by rewrite Hs2.
  - intros n Hn. rewrite Hs2. eapply pool_at_cleared; [exact Hp1|].
    apply elem_of_app. by left.
Qed.

(** ** The bounds loop, coordinate by coordinate *)

Lemma scan_fold ps x1 y1 x2 y2 :
  fold_left scan_step ps (x1, y1, x2, y2)
  = (fold_left lo_step (xs ps) x1, fold_left lo_step (ys ps) y1,
     fold_left hi_step (xs ps) x2, fold_left hi_step (ys ps) y2).
Proof.
  revert x1 y1 x2 y2. induction ps as [|p ps IH]; intros; [done|].
  simpl. by rewrite IH.
Qed.

Lemma lo_spec vs :
  ∀ m, is_nan m = false →
  let r := fold_left lo_step vs m in
  is_nan r = false ∧ (r <=? m)%float = true ∧
  (∀ v, v ∈ vs → is_nan v = false → (r <=? v)%float = true) ∧
  (r = m ∨ r ∈ vs).
Proof.
  induction vs as [|v vs IH]; intros m Hm; simpl.
  - split_and!; [done|by apply leb_refl| |by left].
    by intros v ?%elem_of_nil.
  - change (lo_step m v) with (if (v <? m)%float then v else m).
    destruct (v <? m)%float eqn:Hlt.
    + destruct (ltb_valid _ _ Hlt) as [Hv _].
      destruct (IH v Hv) as (Hr & Hle & Hall & Hin).
      split_and!; [done| | |].
      * eapply leb_trans; [done|]. by apply ltb_leb.
      * intros w [->|Hw]%elem_of_cons Hnw; [done|by apply Hall].
      * right. destruct Hin as [->|?]; [left|by right].
    + destruct (IH m Hm) as (Hr & Hle & Hall & Hin).
      split_and!; [done..| |].
      * intros w [->|Hw]%elem_of_cons Hnw; [|by apply Hall].
        eapply leb_trans; [done|]. by apply leb_total.
      * destruct Hin as [->|?]; [by left|right; by right].
Qed.

Lemma hi_spec vs :
  ∀ m, is_nan m = false →
  let r := fold_left hi_step vs m in
  is_nan r = false ∧ (m <=? r)%float = true ∧
  (∀ v, v ∈ vs → is_nan v = false → (v <=? r)%float = true) ∧
  (r = m ∨ r ∈ vs).
Proof.
  induction vs as [|v vs IH]; intros m Hm; simpl.
  - split_and!; [done|by apply leb_refl| |by left].
    by intros v ?%elem_of_nil.
  - change (hi_step m v) with (if (m <? v)%float then v else m).
    destruct (m <? v)%float eqn:Hlt.
    + destruct (ltb_valid _ _ Hlt) as [_ Hv].
      destruct (IH v Hv) as (Hr & Hle & Hall & Hin).
      split_and!; [done| | |].
      * eapply leb_trans; [|done]. by apply ltb_leb.
      * intros w [->|Hw]%elem_of_cons Hnw; [done|by apply Hall].
      * right. destruct Hin as [->|?]; [left|by right].
    + destruct (IH m Hm) as (Hr & Hle & Hall & Hin).
      split_and!; [done..| |].
      * intros w [->|Hw]%elem_of_cons Hnw; [|by apply Hall].
        eapply leb_trans; [|done]. by apply leb_total.
      * destruct Hin as [->|?]; [by left|right; by right].
Qed.

Lemma lo_least vs : least vs (fold_left lo_step vs infinity).
Proof.
  destruct (lo_spec vs infinity eq_refl) as (Hr & _ & Hall & Hin).
  split; [done|]. intros (v & Hv & Hnv). split; [|done].
  destruct Hin as [Heq|?]; [|done].
  specialize (Hall v Hv Hnv). rewrite Heq in *.
  by apply leb_infinity in Hall as <-.
Qed.

Lemma hi_greatest vs : greatest vs (fold_left hi_step vs neg_infinity).
Proof.
  destruct (hi_spec vs neg_infinity eq_refl) as (Hr & _ & Hall & Hin).
  split; [done|]. intros (v & Hv & Hnv). split; [|done].
  destruct Hin as [Heq|?]; [|done].
  specialize (Hall v Hv Hnv). rewrite Heq in *.
  by apply leb_neg_infinity in Hall as <-.
Qed.

Lemma scan_enclosing ps :
  let '(x1, y1, x2, y2) := scan ps in
  least (xs ps) x1 ∧ least (ys ps) y1 ∧
  greatest (xs ps) x2 ∧ greatest (ys ps) y2.
Proof.
  unfold scan. rewrite scan_fold.
  split_and!; auto using lo_least, hi_greatest.
Qed.

(** C3 (amended). The stored region: [xMin], [yMin] are the least x and y
    and, before the adjustment, [xMax], [yMax] the greatest x and y among
    the coordinates that are not NaN; the region keeps that lower-left
    corner; if the width exceeds the height then [yMax] is replaced by
    [yMin + width], otherwise [xMax] by [xMin + height], both sums rounded
    to binary64. *)
Theorem squarified_bounds fuel ps h T h' :
  new_Quadtree fuel ps h = Some (T, h') →
  ∃ x1 y1 x2 y2, scan ps = (x1, y1, x2, y2) ∧
    least (xs ps) x1 ∧ least (ys ps) y1 ∧
    greatest (xs ps) x2 ∧ greatest (ys ps) y2 ∧
    xMin T = x1 ∧ yMin T = y1 ∧
    (if (y2 - y1 <? x2 - x1)%float
     then xMax T = x2 ∧ yMax T = (yMin T + (xMax T - xMin T))%float
     else yMax T = y2 ∧ xMax T = (xMin T + (yMax T - yMin T))%float).
Proof.
  intros (_ & Hb & _)%new_Quadtree_inv.
  pose proof (scan_enclosing ps) as Henc.
  destruct (scan ps) as [[[x1 y1] x2] y2]. exists x1, y1, x2, y2.
  destruct Henc as (? & ? & ? & ?). split_and!; try done.
  - unfold squarify in Hb. destruct (_ <? _)%float; by injection Hb.
  - unfold squarify in Hb. destruct (_ <? _)%float; by injection Hb.
  - unfold squarify in Hb. destruct (_ <? _)%float;
      injection Hb as -> -> -> ->; by split.
Qed.

Lemma squarified_bounds_witness :
  ∃ T h', new_Quadtree 10 off_grid empty_heap = Some (T, h') ∧
  ∃ x1 y1 x2 y2, scan off_grid = (x1, y1, x2, y2) ∧
    least (xs off_grid) x1 ∧ least (ys off_grid) y1 ∧
    greatest (xs off_grid) x2 ∧ greatest (ys off_grid) y2 ∧
    xMin T = x1 ∧ yMin T = y1 ∧
    (if (y2 - y1 <? x2 - x1)%float
     then xMax T = x2 ∧ yMax T = (yMin T + (xMax T - xMin T))%float
     else yMax T = y2 ∧ xMax T = (xMin T + (yMax T - yMin T))%float).
Proof.
  eexists _, _. split; [reflexivity|].
  eapply (squarified_bounds 10 off_grid empty_heap). reflexivity.
Defined.

(** C3 as stated fails: for the particles (0.1, 0) and (0.2, 0.3) the
    stored region is [0.1, 0.4] x [0, 0.3], whose width 0.4 - 0.1 is
    0.30000000000000004 in binary64 and not its height 0.3. *)
Lemma squarified_not_square :
  ∃ h', new_Quadtree 10 off_grid empty_heap
        = Some (mkQuadtree 0 0.1 0 0.4 0.3, h') ∧
    (0.4 - 0.1 =? 0.3 - 0)%float = false ∧
    (0.4 - 0.1)%float ≠ (0.3 - 0)%float.
Proof.
  eexists. split; [reflexivity|]. split; [reflexivity|].
  intros Heq. apply (f_equal (λ v, (v =? 0.3 - 0)%float)) in Heq.
  vm_compute in Heq. discriminate.
Qed.

(** ** Rejected particles *)

(** C2 (defect of the code). The input (0,0), (1,1), (NaN,4), on an empty
    pool.  The bounds loop runs first and has no test for NaN: it takes
    y = 4 from the third particle, and the region is [0,4] x [0,4].  The
    first two particles are then inserted without line 44 being reached,
    into a tree that has four nodes by now.  The third particle satisfies
    the test of line 43, so that the next statement is the call [fail()]
    of line 44, of a function that src/ binds nowhere.  Without the third
    particle the region is [0,1] x [0,1], the build returns without
    reaching line 44, and the tree has three nodes. *)
Theorem nan_point_reaches_fail :
  squarify (scan (diagonal ++ [half_nan])) = (0, 0, 4, 4)%float ∧
  (∃ h1, insert_all 10 0 diagonal 0 0 4 4 (node empty_heap).2 = Some h1 ∧
         length (store h1) = 4 ∧ failed h1 = 0) ∧
  invalid half_nan = true ∧
  (∃ T' h', new_Quadtree 10 diagonal empty_heap = Some (T', h') ∧
            bounds T' = (0, 0, 1, 1)%float ∧
            length (store h') = 3 ∧ failed h' = 0).
Proof.
  split; [reflexivity|]. split; [by eexists|]. split; [reflexivity|].
  by eexists _, _.
Qed.

(** ** Fuel *)

(** A run that returns with some fuel returns the same heap with more. *)
Lemma insert_mono fuel :
  (∀ fuel' n p x1 y1 x2 y2 h h',
     fuel ≤ fuel' → insert fuel n p x1 y1 x2 y2 h = Some h' →
     insert fuel' n p x1 y1 x2 y2 h = Some h') ∧
  (∀ fuel' n p x1 y1 x2 y2 h h',
     fuel ≤ fuel' → insertChild fuel n p x1 y1 x2 y2 h = Some h' →
     insertChild fuel' n p x1 y1 x2 y2 h = Some h').
Proof.
  induction fuel as [|fuel [IHi IHc]]; split;
    intros fuel' n p x1 y1 x2 y2 h h' Hle.
  - rewrite insert_0. destruct (invalid p) eqn:Hp; [|done].
    intros [= <-]. destruct fuel'; [rewrite insert_0|rewrite insert_S];
      by rewrite Hp.
  - done.
  - destruct fuel' as [|fuel']; [lia|]. rewrite !insert_S.
    destruct (invalid p); [done|].
    destruct (Node.leaf _); [|apply IHc; lia].
    destruct (Node.p _) as [q|]; [|done].
    destruct (coincident q p); [apply IHc; lia|].
    destruct (insertChild fuel n q _ _ _ _ _) as [h1|] eqn:H1; [|done].
    apply (IHc fuel') in H1; [|lia]. rewrite H1. simpl. apply IHc. lia.
  - destruct fuel' as [|fuel']; [lia|]. rewrite !insertChild_S.
    destruct (descend p x1 y1 x2 y2) as [c [[[a1 b1] a2] b2]].
    destruct (child_or_new _ _ _ _) as [k h2]. apply IHi. lia.
Qed.

Lemma insert_all_mono fuel fuel' n ps x1 y1 x2 y2 :
  fuel ≤ fuel' →
  ∀ h h', insert_all fuel n ps x1 y1 x2 y2 h = Some h' →
          insert_all fuel' n ps x1 y1 x2 y2 h = Some h'.
Proof.
  intros Hle. induction ps as [|p ps IH]; intros h h'; [done|]. simpl.
  destruct (insert fuel n p x1 y1 x2 y2 h) as [h1|] eqn:H1; [|done].
  apply (proj1 (insert_mono fuel) fuel') in H1; [|done].
  rewrite H1. simpl. apply IH.
Qed.

Lemma new_Quadtree_mono fuel fuel' ps h r :
  fuel ≤ fuel' → new_Quadtree fuel ps h = Some r →
  new_Quadtree fuel' ps h = Some r.
Proof.
  intros Hle. unfold new_Quadtree.
  destruct (squarify _) as [[[x1 y1] x2] y2]. destruct (node h) as [n h0].
  destruct (insert_all fuel n ps x1 y1 x2 y2 h0) as [h1|] eqn:H1; [|done].
  apply (insert_all_mono fuel fuel') in H1; [|done]. by rewrite H1.
Qed.

(** ** The two scenarios of the spec *)

(** The four corners of [0,10] x [0,10]: the root is internal and holds no
    particle, and each particle sits in a leaf of its own, one per slot. *)
Example four_corners_tree :
  ∃ h, new_Quadtree 3 four_corners empty_heap
       = Some (mkQuadtree 0 0 0 10 10, h) ∧
    store h =
      [Node.mk false None (Some 1) (Some 2) (Some 3) (Some 4) None;
       Node.mk true (Some (Particle.mk 0 0 0)) None None None None None;
       Node.mk true (Some (Particle.mk 1 10 0)) None None None None None;
       Node.mk true (Some (Particle.mk 2 0 10)) None None None None None;
       Node.mk true (Some (Particle.mk 3 10 10)) None None None None None].
Proof. eexists. split; reflexivity. Qed.

(** C6 (amended). Built from (5,5) and then (5.005,5.005), with any fuel
    from three on and an empty free list: the two particles are coincident;
    the root keeps the first one but is no longer a leaf; the second one
    sits in a leaf that is the root's fourth child, a direct child; the
    other three slots are empty and the tree has these two nodes only. *)
Theorem near_pair_tree fuel :
  coincident (Particle.mk 0 5 5) (Particle.mk 1 5.005 5.005) = true ∧
  ∃ T h,
    new_Quadtree (3 + fuel) near_pair empty_heap = Some (T, h) ∧
    bounds T = (5, 5, 5.005, 5.005)%float ∧
    store h !! root T
      = Some (Node.mk false (Some (Particle.mk 0 5 5))
                None None None (Some 1) None) ∧
    store h !! 1
      = Some (Node.mk true (Some (Particle.mk 1 5.005 5.005))
                None None None None None) ∧
    length (store h) = 2.
Proof.
  split; [reflexivity|]. eexists _, _. split.
  - apply (new_Quadtree_mono 3); [lia|]. vm_compute. reflexivity.
  - by split_and!.
Qed.

(** C6 as stated fails: the root does not remain a leaf. *)
Lemma near_pair_root_internal :
  ∃ T h, new_Quadtree 10 near_pair empty_heap = Some (T, h) ∧
    Node.leaf (deref h (root T)) = false ∧
    Node.p (deref h (root T)) = Some (Particle.mk 0 5 5).
Proof. eexists _, _. split; [reflexivity|]. by split. Qed.

(** C9 (amended). Built from no particles, on any heap and with any fuel:
    the build returns; the root is the node acquired first; the stored
    bounds are what the bounds loop and the squarification leave when the
    loop body never runs: [xMin = yMin = +Infinity], [yMax = -Infinity] and
    [xMax = +Infinity + (-Infinity - +Infinity)], which is NaN. *)
Theorem empty_input_bounds fuel h :
  new_Quadtree fuel [] h
  = Some (mkQuadtree (node h).1 infinity infinity nan neg_infinity,
          (node h).2) ∧
  (infinity + (neg_infinity - infinity))%float = nan.
Proof.
  split; [|reflexivity]. unfold new_Quadtree.
  change (squarify (scan [])) with (infinity, infinity, nan, neg_infinity).
  by destruct (node h).
Qed.

(** C9 as stated fails: the stored bounds of the tree built from no
    particles are the infinities of the scan and a NaN derived from them. *)
Lemma empty_input_infinite_bounds :
  ∃ T h, new_Quadtree 0 [] empty_heap = Some (T, h) ∧
    xMin T = infinity ∧ yMin T = infinity ∧
    yMax T = neg_infinity ∧ is_nan (xMax T) = true.
Proof. eexists _, _. split; [reflexivity|]. by split_and!. Qed.

(** ** The theorems at concrete inputs *)

Lemma containment_witness :
  ∃ T h', new_Quadtree 10 near_pair empty_heap = Some (T, h') ∧
  ∃ n, walk h' (Particle.mk 1 5.005 5.005) (root T) (bounds T) n ∧
       Node.p (deref h' n) = Some (Particle.mk 1 5.005 5.005).
Proof.
  eexists _, _. split; [reflexivity|].
  eapply (containment 10 near_pair empty_heap).
  - exists []. split; [reflexivity|constructor].
  - reflexivity.
  - apply list_elem_of_further, list_elem_of_here.
  - reflexivity.
Defined.

Lemma nonleaf_invariant_witness :
  ∃ T h', new_Quadtree 10 four_corners empty_heap = Some (T, h') ∧
  ∃ h1,
    insert_allB 10 (root T) [Particle.mk 0 0 0; Particle.mk 1 10 0]
      (bounds T) (node empty_heap).2 = Some h1 ∧
    insert_allB 10 (root T) [Particle.mk 2 0 10; Particle.mk 3 10 10]
      (bounds T) h1 = Some h' ∧
    Node.leaf (deref h1 (root T)) = false ∧
    has_child (deref h1 (root T)).
Proof.
  eexists _, _. split; [reflexivity|].
  destruct (nonleaf_invariant 10 four_corners empty_heap
              (mkQuadtree 0 0 0 10 10) _ pool_ok_empty eq_refl
              [Particle.mk 0 0 0; Particle.mk 1 10 0]
              [Particle.mk 2 0 10; Particle.mk 3 10 10] eq_refl)
    as (h1 & H1 & H2 & Hinv).
  exists h1. split; [exact H1|]. split; [exact H2|].
  vm_compute in H1. injection H1 as <-.
  split; [reflexivity|]. apply Hinv; [apply reach_root|reflexivity].
Defined.

Lemma root_always_acquired_witness :
  ∃ T h', new_Quadtree 10 [] empty_heap = Some (T, h') ∧
    root T = 0 ∧ Node.cleared (deref h' (root T)).
Proof.
  destruct (root_always_acquired 10 near_pair empty_heap)
    as [_ (T & h' & Hnew & Hroot & _ & Hcl)].
  - exists []. split; [reflexivity|constructor].
  - exists T, h'. split; [exact Hnew|]. split; [exact Hroot|exact Hcl].
Defined.

Lemma coincident_keeps_anchor_witness :
  ∃ h' k,
    insert 3 0 (Particle.mk 1 5.005 5.005) 5 5 5.005 5.005 anchored
      = Some h' ∧
    Node.p (deref h' 0) = Some (Particle.mk 0 5 5) ∧
    Node.leaf (deref h' 0) = false ∧
    Node.child 3 (deref h' 0) = Some k ∧
    Node.p (deref h' k) = Some (Particle.mk 1 5.005 5.005).
Proof.
  destruct (coincident_keeps_anchor 0 0 (Particle.mk 1 5.005 5.005)
              (Particle.mk 0 5 5) 5 5 5.005 5.005 anchored)
    as (_ & h' & k & H1 & H2 & H3 & H4 & _ & H5 & _).
  - exists (Sh 0 true (Some (Particle.mk 0 5 5)) Nil Nil Nil Nil), ([], 1).
    split; [|by simpl]. split_and!.
    + simpl. repeat first [reflexivity | split | eexists].
    + reflexivity.
    + reflexivity.
    + simpl. apply NoDup_singleton.
  - reflexivity.
  - reflexivity.
  - reflexivity.
  - exists h', k. exact (conj H1 (conj H2 (conj H3 (conj H4 H5)))).
Defined.

Lemma pool_round_trip_witness :
  new_Quadtree 10 near_pair empty_heap
    = Some (mkQuadtree 0 5 5 5.005 5.005, pair_heap) ∧
  ∃ h1 ns h2,
    dispose 2 (mkQuadtree 0 5 5 5.005 5.005) pair_heap = Some h1 ∧
    acquire 2 h1 = (ns, h2) ∧ NoDup ns ∧
    (∀ n, n ∈ ns ↔ reachable pair_heap 0 n) ∧
    length (store h2) = 2 ∧
    (∀ n, n ∈ ns → ∃ nd, store h2 !! n = Some nd ∧ Node.cleared nd).
Proof.
  split; [reflexivity|].
  destruct (pool_round_trip 2 (mkQuadtree 0 5 5 5.005 5.005) pair_heap
              pair_shape ([], 2))
    as (h1 & ns & h2 & H1 & H2 & H3 & H4 & _ & _ & H5 & H6 & _).
  - split_and!.
    + simpl. repeat first [reflexivity | split | eexists].
    + reflexivity.
    + reflexivity.
    + simpl. apply NoDup_cons. split; [|apply NoDup_singleton].
      intros H%list_elem_of_singleton. discriminate H.
  - simpl. lia.
  - exists h1, ns, h2.
    exact (conj H1 (conj H2 (conj H3 (conj H4 (conj H5 H6))))).
Defined.

(** * Further properties of the code *)

(** ** Nodes below the root *)

Lemma sub_shape_ok t s : sub t s → shape_ok t → shape_ok s.
Proof. induction 1; [done|]. intros. by apply shape_ok_elim; auto. Qed.

Lemma sub_points t s p : sub t s → p ∈ points s → p ∈ points t.
Proof.
  induction 1 as [|s i _ IH]; [done|]. intros Hp. apply IH.
  rewrite (points_split i s). apply elem_of_app. by left.
Qed.

Lemma sub_addrs t s a : sub t s → a ∈ addrs s → a ∈ addrs t.
Proof.
  induction 1 as [|s i _ IH]; [done|]. intros Ha.
  by apply IH, (child_in_addrs i).
Qed.

Lemma reachable_sub h r t n :
  tree_at (store h) (Some r) t → reachable h r n →
  ∃ s, sub t s ∧ tree_at (store h) (Some n) s.
Proof.
  intros Ht. induction 1 as [|n i k _ (s & Hsub & Hts) Hk].
  - exists t. split; [constructor|done].
  - destruct (tree_at_elim _ _ _ Hts) as (nd & _ & Hn & _ & _ & Hch).
    rewrite (deref_lookup _ _ _ Hn) in Hk.
    exists (childS i s). split; [by constructor|].
    rewrite <-Hk. apply Hch.
Qed.

Lemma pt_of_points t p : pt_of t = Some p → p ∈ points t.
Proof.
  destruct t as [|a lf pt k1 k2 k3 k4]; [done|]. simpl. intros ->.
  simpl. left.
Qed.

(** X1. Leaves have no children: in a built tree, every node reachable
    from the root with [leaf = true] has its four child slots null. *)
Theorem leaf_invariant fuel ps h T h' n :
  pool_ok h → new_Quadtree fuel ps h = Some (T, h') →
  reachable h' (root T) n → Node.leaf (deref h' n) = true →
  childless (deref h' n).
Proof.
  intros Hpool Hnew Hreach Hlf.
  destruct (new_Quadtree_built _ _ _ _ _ Hpool Hnew)
    as (t & al & (Ht & _) & (Hok & _) & _).
  destruct (reachable_sub _ _ _ _ Ht Hreach) as (s & Hsub & Hts).
  pose proof (sub_shape_ok _ _ Hsub Hok) as Hoks.
  destruct (tree_at_elim _ _ _ Hts) as (nd & _ & Hn & Hlfs & _ & Hch).
  rewrite (deref_lookup _ _ _ Hn) in *.
  assert (Hnil : ∀ i, Node.child i nd = None).
  { intros i. pose proof (Hch i) as Hi.
    rewrite (shape_ok_leaf s i) in Hi by congruence. exact Hi. }
  split_and!; [apply (Hnil 0)|apply (Hnil 1)|apply (Hnil 2)|apply (Hnil 3)].
Qed.

(** X2. The built tree holds the particles of the input that have no NaN
    coordinate, each of them once, and nothing else: every particle found
    on a reachable node is such an input particle, and the particles of the
    nodes, taken together, are a permutation of them. *)
Theorem particles_kept fuel ps h T h' :
  pool_ok h → new_Quadtree fuel ps h = Some (T, h') →
  (∀ n p, reachable h' (root T) n → Node.p (deref h' n) = Some p →
     p ∈ ps ∧ invalid p = false) ∧
  ∃ t al, repr h' (root T) t al ∧ points t ≡ₚ accepted ps.
Proof.
  intros Hpool Hnew.
  destruct (new_Quadtree_built _ _ _ _ _ Hpool Hnew)
    as (t & al & Hrepr & _ & Hpts).
  split; [|by exists t, al]. intros n p Hreach Hp.
  destruct Hrepr as (Ht & _).
  destruct (reachable_sub _ _ _ _ Ht Hreach) as (s & Hsub & Hts).
  destruct (tree_at_elim _ _ _ Hts) as (nd & _ & Hn & _ & Hpt & _).
  rewrite (deref_lookup _ _ _ Hn), Hpt in Hp.
  apply pt_of_points, (sub_points t) in Hp; [|done].
  rewrite Hpts in Hp. unfold accepted in Hp.
  by apply list_elem_of_filter in Hp as [? ?].
Qed.

(** ** The insertion loop on shapes *)

Lemma insert_all_sim fuel r x1 y1 x2 y2 ps :
  ∀ h h' t al, repr h r t al →
  insert_all fuel r ps x1 y1 x2 y2 h = Some h' →
  ∃ r', insert_allS fuel t ps x1 y1 x2 y2 al = Some r' ∧
        sim_post h r t al h' r'.
Proof.
  induction ps as [|p ps IH]; intros h h' t al Hrepr; simpl.
  - intros [= <-]. exists (t, al). split; [done|].
    split; [done|]. split; [done|]. by intros a _ _.
  - destruct (insert fuel r p x1 y1 x2 y2 h) as [h1|] eqn:H1; [|done].
    simpl. intros H2.
    destruct (proj1 (insert_sim fuel) _ _ _ _ _ _ _ _ _ _ Hrepr H1)
      as (r1 & HS1 & Hr1 & Hle1 & Hfr1).
    destruct (IH _ _ _ _ Hr1 H2) as (r2 & HS2 & Hr2 & Hle2 & Hfr2).
    exists r2. rewrite HS1. split; [done|].
    split; [done|]. split; [lia|]. intros a Ha Hna.
    rewrite Hfr2, Hfr1; [done..|lia|].
    apply (proj1 (insertS_addrs fuel)) in HS1 as (_ & _ & Hperm);
      [|destruct Hrepr; by eapply tree_at_Some].
    intros [Hin|Hin]%(after_elem _ _ _ _ Hperm); [done|].
    destruct Hrepr as (_ & _ & Hm & _). lia.
Qed.

Lemma insert_allS_nonNil fuel x1 y1 x2 y2 ps :
  ∀ t al r, nonNil t → insert_allS fuel t ps x1 y1 x2 y2 al = Some r →
  nonNil r.1.
Proof.
  induction ps as [|p ps IH]; intros t al r Ht; simpl.
  - by intros [= <-].
  - destruct (insertS fuel t p x1 y1 x2 y2 al) as [r1|] eqn:H1; [|done].
    simpl. apply IH.
    apply (proj1 (insertS_addrs fuel)) in H1 as (Hroot & _); [|done].
    apply nonNil_root. rewrite Hroot. by apply nonNil_root.
Qed.

Lemma drained_refl al : drained al al.
Proof. split; [done|lia]. Qed.

Lemma drained_trans al1 al2 al3 :
  al1.2 ≤ al2.2 → drained al1 al2 → drained al2 al3 → drained al1 al3.
Proof.
  intros Hle [Hs1 He1] [Hs2 He2]. split; [by etrans|]. intros Hlt.
  destruct (decide (al1.2 < al2.2)) as [H|H].
  - rewrite (He1 H) in Hs2. by apply suffix_nil_inv in Hs2.
  - apply He2. lia.
Qed.

Lemma nodeS_drained al a al' : nodeS al = (a, al') → drained al al'.
Proof.
  destruct al as [[|b l] m]; unfold nodeS; simpl; intros [= <- <-].
  - split; [done|]. by intros _.
  - split; [by apply suffix_cons_r|]. simpl. lia.
Qed.

Lemma child_or_newS_drained c t al k al' :
  child_or_newS c t al = (k, al') → drained al al'.
Proof.
  unfold child_or_newS. destruct (childS c t).
  - destruct (nodeS al) as [a al1] eqn:Hn. intros [= <- <-].
    by eapply nodeS_drained.
  - intros [= <- <-]. apply drained_refl.
Qed.

Lemma insertS_drained fuel :
  (∀ t p x1 y1 x2 y2 al r,
    nonNil t → insertS fuel t p x1 y1 x2 y2 al = Some r → drained al r.2) ∧
  (∀ t p x1 y1 x2 y2 al r,
    nonNil t → insertChildS fuel t p x1 y1 x2 y2 al = Some r →
    drained al r.2).
Proof.
  induction fuel as [|fuel [IHi IHc]]; split;
    intros t p x1 y1 x2 y2 al r Ht.
  - rewrite insertS_0. destruct (invalid p); [|done].
    intros [= <-]. apply drained_refl.
  - done.
  - rewrite insertS_S.
    destruct (invalid p); [intros [= <-]; apply drained_refl|].
    destruct t as [|a lf pt k1 k2 k3 k4]; [done|].
    destruct lf; [|by apply IHc].
    destruct pt as [q|]; [|intros [= <-]; apply drained_refl].
    destruct (coincident q p); [by apply IHc|].
    destruct (insertChildS fuel _ q _ _ _ _ _) as [r1|] eqn:H1; [|done].
    cbn [mbind option_bind]. intros H2.
    pose proof H1 as Ha1.
    apply (proj2 (insertS_addrs fuel)) in Ha1 as (Hroot1 & Hle1 & _);
      [|done].
    apply IHc in H1; [|done].
    apply IHc in H2; [|by apply nonNil_root; rewrite Hroot1].
    by eapply drained_trans.
  - rewrite insertChildS_S.
    destruct (descend p x1 y1 x2 y2) as [c [[[a1 b1] a2] b2]].
    destruct (child_or_newS c t al) as [k al1] eqn:Hk.
    destruct (insertS fuel k p a1 b1 a2 b2 al1) as [r1|] eqn:H1; [|done].
    cbn [mbind option_bind]. intros [= <-]. cbn [snd].
    pose proof (child_or_newS_spec _ _ _ _ _ Hk) as (Hkn & Hle & _).
    apply child_or_newS_drained in Hk. apply IHi in H1; [|done].
    by eapply drained_trans.
Qed.

Lemma insert_allS_addrs fuel x1 y1 x2 y2 ps :
  ∀ t al r, nonNil t → insert_allS fuel t ps x1 y1 x2 y2 al = Some r →
  rootS r.1 = rootS t ∧ al.2 ≤ r.2.2 ∧ drained al r.2 ∧
  addrs r.1 ++ r.2.1 ≡ₚ addrs t ++ al.1 ++ seq al.2 (r.2.2 - al.2).
Proof.
  induction ps as [|p ps IH]; intros t al r Ht; simpl.
  - intros [= <-]. simpl. split_and!; [done|lia|apply drained_refl|].
    by rewrite Nat.sub_diag, app_nil_r.
  - destruct (insertS fuel t p x1 y1 x2 y2 al) as [r1|] eqn:H1; [|done].
    simpl. intros H2.
    pose proof (proj1 (insertS_drained fuel) _ _ _ _ _ _ _ _ Ht H1) as Hd1.
    apply (proj1 (insertS_addrs fuel)) in H1 as (Hroot1 & Hle1 & Hp1);
      [|done].
    apply IH in H2 as (Hroot2 & Hle2 & Hd2 & Hp2);
      [|by apply nonNil_root; rewrite Hroot1; apply nonNil_root].
    split_and!; [congruence|lia|by eapply drained_trans|].
    rewrite Hp2, app_assoc, Hp1, <-!app_assoc. by rewrite seq_join.
Qed.

(** ** Leaves hold particles, kept particles have company *)

Lemma stocked_child t i : stocked t → stocked (childS i t).
Proof.
  destruct t as [|a lf pt k1 k2 k3 k4]; [done|].
  intros (_ & ? & ? & ? & ?). by destruct i as [|[|[|i]]].
Qed.

Lemma anchors_child t i : anchors_ok t → anchors_ok (childS i t).
Proof.
  destruct t as [|a lf pt k1 k2 k3 k4]; [done|].
  intros (_ & ? & ? & ? & ?). by destruct i as [|[|[|i]]].
Qed.

Lemma sub_stocked t s : sub t s → stocked t → stocked s.
Proof. induction 1; [done|]. intros. by apply stocked_child; auto. Qed.

Lemma sub_anchors t s : sub t s → anchors_ok t → anchors_ok s.
Proof. induction 1; [done|]. intros. by apply anchors_child; auto. Qed.

Lemma below_elem t p :
  p ∈ below t ↔ ∃ i, i < 4 ∧ p ∈ points (childS i t).
Proof.
  destruct t as [|a lf pt k1 k2 k3 k4]; simpl.
  - split; [by intros ?%elem_of_nil|]. by intros (i & _ & ?%elem_of_nil).
  - rewrite !elem_of_app. split.
    + intros [?|[?|[?|?]]];
        [exists 0|exists 1|exists 2|exists 3]; by (split; [lia|]).
    + intros (i & Hi & Hp). destruct i as [|[|[|[|]]]]; try lia; tauto.
Qed.

Lemma stocked_plug c s t :
  c < 4 → nonNil t → (∀ i, stocked (childS i t)) → stocked s →
  stocked (set_childS c s (set_leafS false t)).
Proof.
  intros Hc Ht Hk Hs. destruct t as [|a lf pt k1 k2 k3 k4]; [done|].
  pose proof (Hk 0) as H0. pose proof (Hk 1) as H1.
  pose proof (Hk 2) as H2. pose proof (Hk 3) as H3. simpl in H0, H1, H2, H3.
  destruct c as [|[|[|[|]]]]; try lia; simpl; by split_and!.
Qed.

Lemma anchors_plug c s t :
  c < 4 → nonNil t → (∀ i, anchors_ok (childS i t)) → anchors_ok s →
  (∀ q, pt_of t = Some q →
     ∃ p, p ∈ below (set_childS c s t) ∧ coincident q p = true) →
  anchors_ok (set_childS c s (set_leafS false t)).
Proof.
  intros Hc Ht Hk Hs Hroot. destruct t as [|a lf pt k1 k2 k3 k4]; [done|].
  pose proof (Hk 0) as H0. pose proof (Hk 1) as H1.
  pose proof (Hk 2) as H2. pose proof (Hk 3) as H3. simpl in H0, H1, H2, H3.
  simpl in Hroot.
  destruct c as [|[|[|[|]]]]; try lia; simpl; split_and!; try done;
    intros _ q Hq; by apply Hroot.
Qed.

Lemma child_or_newS_stock c t al k al' :
  child_or_newS c t al = (k, al') →
  stocked (childS c t) → anchors_ok (childS c t) →
  (∀ i, stocked (childS i k)) ∧ anchors_ok k.
Proof.
  unfold child_or_newS. destruct (childS c t) as [|a lf pt k1 k2 k3 k4] eqn:E.
  - destruct (nodeS al) as [a al1]. intros [= <- <-] _ _.
    split; [by intros [|[|[|i]]]|by simpl].
  - intros [= <- <-] Hs Ha. split; [|done]. intros i.
    by apply stocked_child.
Qed.

Lemma insertChildS_root fuel t p x1 y1 x2 y2 al r :
  nonNil t → insertChildS fuel t p x1 y1 x2 y2 al = Some r →
  pt_of r.1 = pt_of t ∧ leaf_of r.1 = false.
Proof.
  intros Ht. destruct fuel as [|fuel]; [done|]. rewrite insertChildS_S.
  destruct (descend p x1 y1 x2 y2) as [c [[[a1 b1] a2] b2]].
  destruct (child_or_newS c t al) as [k al1].
  destruct (insertS fuel k p a1 b1 a2 b2 al1) as [r1|]; [|done].
  cbn [mbind option_bind]. intros [= <-]. cbn [fst].
  rewrite pt_of_set_child, leaf_of_set_child. by destruct t.
Qed.

Lemma insertS_stock fuel :
  (∀ t p x1 y1 x2 y2 al r,
    nonNil t → invalid p = false → shape_inv (x1, y1, x2, y2) t →
    (∀ i, stocked (childS i t)) → anchors_ok t →
    insertS fuel t p x1 y1 x2 y2 al = Some r →
    stocked r.1 ∧ anchors_ok r.1) ∧
  (∀ t p x1 y1 x2 y2 al r,
    nonNil t → invalid p = false → shape_inv (x1, y1, x2, y2) t →
    (∀ i, stocked (childS i t)) → (∀ i, anchors_ok (childS i t)) →
    (∀ q, pt_of t = Some q →
       coincident q p = true ∨
       ∃ p', p' ∈ below t ∧ coincident q p' = true) →
    insertChildS fuel t p x1 y1 x2 y2 al = Some r →
    stocked r.1 ∧ anchors_ok r.1).
Proof.
  induction fuel as [|fuel [IHi IHc]]; split.
  - intros t p x1 y1 x2 y2 al r Ht Hp Hinv Hst Han.
    rewrite insertS_0, Hp. done.
  - done.
  - intros t p x1 y1 x2 y2 al r Ht Hp Hinv Hst Han.
    rewrite insertS_S, Hp.
    destruct t as [|a lf pt k1 k2 k3 k4]; [done|].
    set (t := Sh a lf pt k1 k2 k3 k4) in *.
    assert (Hkan : ∀ i, anchors_ok (childS i t))
      by (intros i; by apply anchors_child).
    destruct lf.
    + destruct pt as [q|].
      * destruct (coincident q p) eqn:Hco.
        { apply IHc; try done. intros q' [= <-]. by left. }
        destruct (insertChildS fuel _ q _ _ _ _ _) as [r1|] eqn:H1; [|done].
        cbn [mbind option_bind]. intros H2.
        assert (Hq : invalid q = false).
        { apply Hinv. simpl. left. }
        assert (Hinv0 : shape_inv (x1, y1, x2, y2) (set_pS None t))
          by (by apply shape_inv_set_p).
        assert (Ht0 : nonNil (set_pS None t)) by done.
        pose proof (insertChildS_root _ _ _ _ _ _ _ _ _ Ht0 H1)
          as [Hpt1 Hlf1].
        pose proof H1 as Ha1.
        apply (proj2 (insertS_addrs fuel)) in Ha1 as (Hroot1 & _); [|done].
        pose proof H1 as Hi1.
        apply (proj2 (insertS_inv fuel)) in Hi1 as (Hinv1 & _); [|done..].
        apply IHc in H1 as (Hst1 & Han1); try done.
        apply IHc in H2; try done.
        -- by apply nonNil_root; rewrite Hroot1.
        -- intros i. by apply stocked_child.
        -- intros i. by apply anchors_child.
        -- intros q'. by rewrite Hpt1.
      * intros [= <-]. cbn [fst set_pS t].
        destruct Han as (_ & Ha1 & Ha2 & Ha3 & Ha4).
        pose proof (Hst 0) as Hs1. pose proof (Hst 1) as Hs2.
        pose proof (Hst 2) as Hs3. pose proof (Hst 3) as Hs4.
        simpl in Hs1, Hs2, Hs3, Hs4. split; simpl; by split_and!.
    + apply IHc; try done. intros q Hq.
      right. destruct Han as (Hroot & _). by apply Hroot.
  - intros t p x1 y1 x2 y2 al r Ht Hp Hinv Hst Han Hroot.
    rewrite insertChildS_S.
    pose proof (descendB_lt p (x1, y1, x2, y2)) as Hc.
    pose proof (descend_cell p (x1, y1, x2, y2)) as Hcell.
    cbn [descendB] in Hc, Hcell.
    destruct (descend p x1 y1 x2 y2) as [c [[[a1 b1] a2] b2]] eqn:Hd.
    cbn [fst snd] in Hc, Hcell.
    destruct (child_or_newS c t al) as [k al1] eqn:Hk.
    destruct (insertS fuel k p a1 b1 a2 b2 al1) as [r1|] eqn:H1; [|done].
    cbn [mbind option_bind]. intros [= <-]. cbn [fst].
    pose proof (child_or_newS_spec _ _ _ _ _ Hk) as (Hkn & _).
    pose proof (child_or_newS_stock _ _ _ _ _ Hk (Hst c) (Han c))
      as [Hstk Hank].
    apply (child_or_newS_inv _ _ _ _ _ (x1, y1, x2, y2) Hc) in Hk
      as (Hinvk & Hptk); [|done].
    rewrite <-Hcell in Hinvk.
    pose proof H1 as Hi1.
    apply (proj1 (insertS_inv fuel)) in Hi1 as (_ & Hp1); [|done..].
    apply IHi in H1 as (Hst1 & Han1); try done.
    assert (Harr : arriving p = [p]) by (unfold arriving; by rewrite Hp).
    split; [by apply stocked_plug|]. apply anchors_plug; try done.
    intros q Hq. destruct (Hroot q Hq) as [Hco|(p' & Hp' & Hco)].
    + exists p. split; [|done]. apply below_elem. exists c. split; [done|].
      rewrite childS_set_child, decide_True by done.
      rewrite Hp1, Harr. left.
    + exists p'. split; [|done]. apply below_elem.
      apply below_elem in Hp' as (i & Hi & Hp'). exists i. split; [done|].
      rewrite childS_set_child by done.
      destruct (decide (i = c)) as [->|]; [|done].
      rewrite Hp1, Hptk. apply elem_of_app. by right.
Qed.

Lemma stock_inv_leafS a : stock_inv (leafS a).
Proof. split_and!; [by intros [|[|[|i]]]|by simpl|by right]. Qed.

Lemma insertS_stock_inv fuel t p x1 y1 x2 y2 al r :
  nonNil t → shape_inv (x1, y1, x2, y2) t → stock_inv t →
  insertS fuel t p x1 y1 x2 y2 al = Some r → stock_inv r.1.
Proof.
  intros Ht Hinv (Hst & Han & Hor) HS.
  destruct (invalid p) eqn:Hp.
  - destruct fuel; [rewrite insertS_0 in HS|rewrite insertS_S in HS];
      rewrite Hp in HS; injection HS as <-; by split_and!.
  - apply (proj1 (insertS_stock fuel)) in HS as [Hst1 Han1]; try done.
    split_and!; [|done|by left]. intros i. by apply stocked_child.
Qed.

Lemma insert_allS_inv fuel x1 y1 x2 y2 ps :
  ∀ t al r ps0,
  nonNil t → shape_inv (x1, y1, x2, y2) t → stock_inv t →
  points t ≡ₚ accepted ps0 →
  insert_allS fuel t ps x1 y1 x2 y2 al = Some r →
  shape_inv (x1, y1, x2, y2) r.1 ∧ stock_inv r.1 ∧
  points r.1 ≡ₚ accepted (ps0 ++ ps).
Proof.
  induction ps as [|p ps IH]; intros t al r ps0 Ht Hinv Hst Hpts; simpl.
  - intros [= <-]. by rewrite app_nil_r.
  - destruct (insertS fuel t p x1 y1 x2 y2 al) as [r1|] eqn:H1; [|done].
    simpl. intros H2.
    pose proof (insertS_stock_inv _ _ _ _ _ _ _ _ _ Ht Hinv Hst H1) as Hst1.
    pose proof H1 as Ha1.
    apply (proj1 (insertS_addrs fuel)) in Ha1 as (Hroot1 & _); [|done].
    apply (proj1 (insertS_inv fuel)) in H1 as (Hinv1 & Hp1); [|done..].
    rewrite (cons_middle p ps0 ps), app_assoc.
    eapply IH; [|done..| |done].
    + apply nonNil_root. rewrite Hroot1. by apply nonNil_root.
    + rewrite Hp1, Hpts, accepted_snoc. solve_Permutation.
Qed.

(** Everything the build establishes, in one place. *)
Lemma build_shapes fuel ps h l T h' :
  pool_at (store h) (cache h) l → NoDup l →
  new_Quadtree fuel ps h = Some (T, h') →
  ∃ t al,
    repr h' (root T) t al ∧ shape_inv (bounds T) t ∧ stock_inv t ∧
    points t ≡ₚ accepted ps ∧
    (∀ a, a < length (store h) → a ∉ l → store h' !! a = store h !! a) ∧
    length (store h) ≤ length (store h') ∧
    drained (l, length (store h)) al ∧
    addrs t ++ al.1
      ≡ₚ l ++ seq (length (store h)) (length (store h') - length (store h)).
Proof.
  intros Hp Hnd (Hroot & Hb & Hins)%new_Quadtree_inv.
  unfold insert_allB in Hins. destruct (bounds T) as [[[x1 y1] x2] y2].
  destruct (node h) as [r h0] eqn:Hn. cbn [fst snd] in *. subst r.
  destruct (node_sim h (l, length (store h)) _ h0 Hp eq_refl Hn)
    as (al0 & ndk & HnS & Hp0 & Hm0 & Hfr0 & Hk & Hcl & Hle0).
  assert (Hrepr0 : repr h0 (root T) (leafS (root T)) al0).
  { split_and!; try done.
    - unfold leafS. cbn [tree_at]. split; [done|]. exists ndk.
      destruct Hcl as (? & ? & -> & -> & -> & ->). by split_and!.
    - simpl. eapply nodeS_NoDup; [done..|].
      intros a Ha. simpl. by eapply pool_at_bound. }
  destruct (insert_all_sim _ _ _ _ _ _ _ _ _ _ _ Hrepr0 Hins)
    as (r' & HS & Hrepr' & Hle' & Hfr').
  assert (Hnon : nonNil (leafS (root T))) by done.
  pose proof (insert_allS_addrs _ _ _ _ _ _ _ _ _ Hnon HS)
    as (_ & Hle2 & Hdr & Hperm).
  apply (insert_allS_inv _ _ _ _ _ _ _ _ _ []) in HS as (Hinv & Hst & Hpts);
    [|done|apply shape_inv_leafS|apply stock_inv_leafS|done].
  pose proof (nodeS_spec _ _ _ HnS) as [Hle1 Hperm1].
  pose proof (nodeS_drained _ _ _ HnS) as Hdr1.
  destruct Hrepr' as (Ht' & Hp' & Hm' & Hnd').
  cbn [fst snd] in *.
  exists r'.1, r'.2. split_and!; try done.
  - intros a Ha Hna. rewrite Hfr'; [by apply Hfr0|lia|].
    intros Hin. simpl in Hin.
    apply (nodeS_elem _ _ _ _ HnS) in Hin as [Hin|Hin]; [done|].
    simpl in Hin. lia.
  - lia.
  - by eapply drained_trans.
  - rewrite Hperm. simpl.
    rewrite app_comm_cons, Hperm1, <-Hm', <-app_assoc.
    by rewrite seq_join by lia.
Qed.

Lemma reachable_trans h a b c :
  reachable h a b → reachable h b c → reachable h a c.
Proof.
  intros Hab. induction 1 as [|n i k _ IH Hk]; [done|].
  by eapply reach_child.
Qed.

Lemma points_reachable h p s :
  ∀ k, tree_at (store h) (Some k) s → p ∈ points s →
  ∃ n, reachable h k n ∧ Node.p (deref h n) = Some p.
Proof.
  induction s as [|a lf pt k1 IH1 k2 IH2 k3 IH3 k4 IH4];
    intros k Ht Hp; [by apply elem_of_nil in Hp|].
  set (t := Sh a lf pt k1 k2 k3 k4) in *.
  assert (IH : ∀ i k, tree_at (store h) (Some k) (childS i t) →
               p ∈ points (childS i t) →
               ∃ n, reachable h k n ∧ Node.p (deref h n) = Some p)
    by (by intros [|[|[|i]]]).
  destruct (tree_at_elim _ _ _ Ht) as (nd & _ & Hn & _ & Hpt & Hch).
  apply points_cases in Hp as [Hp|(i & Hi & Hp)].
  - exists k. split; [constructor|].
    by rewrite (deref_lookup _ _ _ Hn), Hpt.
  - assert (Hnon : nonNil (childS i t)).
    { intros Hnil. rewrite Hnil in Hp. by apply elem_of_nil in Hp. }
    destruct (child_nonNil _ _ _ (Hch i) Hnon) as [c Hc].
    pose proof (Hch i) as Hti. rewrite Hc in Hti.
    destruct (IH i c Hti Hp) as (n & Hreach & Hn').
    exists n. split; [|done]. eapply reachable_trans; [|done].
    eapply reach_child; [constructor|].
    by rewrite (deref_lookup _ _ _ Hn).
Qed.

Lemma sub_NoDup t s : sub t s → NoDup (addrs t) → NoDup (addrs s).
Proof.
  induction 1 as [|s i _ IH]; [done|]. intros Hnd%IH.
  rewrite <-(app_nil_r (addrs s)) in Hnd.
  apply (NoDup_split i) in Hnd as [Hnd _]. by rewrite app_nil_r in Hnd.
Qed.

Lemma sub_kids_stocked t s :
  sub t s → (∀ i, stocked (childS i t)) → s = t ∨ stocked s.
Proof.
  induction 1 as [|s i _ IH]; [by left|]. intros Hk. right.
  destruct (IH Hk) as [->|Hs]; [done|by apply stocked_child].
Qed.

(** X3. A build writes only nodes that it took from the free list or
    allocated: every node that existed before and was not on the free list
    is left as it was, and no node disappears from the store. *)
Theorem build_isolated fuel ps h l T h' :
  pool_at (store h) (cache h) l → NoDup l →
  new_Quadtree fuel ps h = Some (T, h') →
  length (store h) ≤ length (store h') ∧
  ∀ a, a < length (store h) → a ∉ l → store h' !! a = store h !! a.
Proof.
  intros Hp Hnd Hnew.
  destruct (build_shapes _ _ _ _ _ _ Hp Hnd Hnew)
    as (t & al & _ & _ & _ & _ & Hfr & Hle & _). by split.
Qed.

(** X4. Reuse before allocation: the free list left by a build is a tail of
    the one it started with, the store has grown only if that tail is empty,
    and the nodes of the tree are as many as were taken from the free list
    plus as many as were allocated. *)
Theorem free_list_first fuel ps h l T h' :
  pool_at (store h) (cache h) l → NoDup l →
  new_Quadtree fuel ps h = Some (T, h') →
  ∃ l' ns,
    pool_at (store h') (cache h') l' ∧ l' `suffix_of` l ∧
    (length (store h) < length (store h') → l' = []) ∧
    NoDup ns ∧ (∀ n, n ∈ ns ↔ reachable h' (root T) n) ∧
    length ns + length l'
      = length l + (length (store h') - length (store h)).
Proof.
  intros Hp Hnd Hnew.
  destruct (build_shapes _ _ _ _ _ _ Hp Hnd Hnew)
    as (t & al & (Ht & Hp' & Hm & Hnd') & _ & _ & _ & _ & Hle &
        [Hsuf Hgrow] & Hperm).
  exists al.1, (addrs t). simpl in Hsuf, Hgrow. split_and!; try done.
  - intros Hlt. apply Hgrow. lia.
  - by apply NoDup_app in Hnd' as [? _].
  - intros n. by apply addrs_reachable.
  - apply Permutation_length in Hperm.
    rewrite !length_app, length_seq in Hperm. done.
Qed.

(** X5. In a built tree every leaf holds a particle, except a root that is
    a leaf because no particle of the input was accepted. *)
Theorem leaves_hold_particles fuel ps h T h' n :
  pool_ok h → new_Quadtree fuel ps h = Some (T, h') →
  reachable h' (root T) n → Node.leaf (deref h' n) = true →
  is_Some (Node.p (deref h' n)) ∨ (n = root T ∧ accepted ps = []).
Proof.
  intros (l & Hp & Hnd) Hnew Hreach Hlf.
  destruct (build_shapes _ _ _ _ _ _ Hp Hnd Hnew)
    as (t & al & (Ht & _) & _ & (Hkids & _ & Hor) & Hpts & _).
  destruct (reachable_sub _ _ _ _ Ht Hreach) as (s & Hsub & Hts).
  destruct (tree_at_elim _ _ _ Hts) as (nd & Hroot & Hn & Hlfs & Hpt & _).
  rewrite (deref_lookup _ _ _ Hn) in *.
  assert (Hfull : stocked s → is_Some (Node.p nd)).
  { destruct s as [|a lf pt k1 k2 k3 k4]; [done|]. simpl in *.
    intros (Hs & _). subst lf. rewrite Hpt.
    destruct pt; [by eexists|]. by destruct Hs. }
  destruct (sub_kids_stocked _ _ Hsub Hkids) as [->|Hs]; [|by left; auto].
  destruct Hor as [Hs|Hnil]; [by left; auto|]. right. split.
  - apply tree_at_root in Ht, Hts. congruence.
  - rewrite Hnil in Hpts. by apply Permutation_nil_l in Hpts.
Qed.

(** X6. In a built tree an internal node that holds a particle has another
    node below it whose particle is coincident with the one it holds. *)
Theorem anchor_has_company fuel ps h T h' n q :
  pool_ok h → new_Quadtree fuel ps h = Some (T, h') →
  reachable h' (root T) n →
  Node.leaf (deref h' n) = false → Node.p (deref h' n) = Some q →
  ∃ n' p, reachable h' n n' ∧ n' ≠ n ∧
          Node.p (deref h' n') = Some p ∧ coincident q p = true.
Proof.
  intros (l & Hp & Hnd) Hnew Hreach Hlf Hq.
  destruct (build_shapes _ _ _ _ _ _ Hp Hnd Hnew)
    as (t & al & (Ht & _ & _ & Hndt) & _ & (_ & Han & _) & _).
  destruct (reachable_sub _ _ _ _ Ht Hreach) as (s & Hsub & Hts).
  pose proof (sub_anchors _ _ Hsub Han) as Hans.
  apply NoDup_app in Hndt as (Hndt & _).
  pose proof (sub_NoDup _ _ Hsub Hndt) as Hnds.
  destruct (tree_at_elim _ _ _ Hts) as (nd & Hroot & Hn & Hlfs & Hpt & Hch).
  rewrite (deref_lookup _ _ _ Hn) in *.
  assert (Hco : ∃ p, p ∈ below s ∧ coincident q p = true).
  { destruct s as [|a lf pt k1 k2 k3 k4]; [done|]. simpl in *.
    destruct Hans as (Hr & _). apply Hr; congruence. }
  destruct Hco as (p & (i & Hi & Hp')%below_elem & Hco).
  assert (Hnon : nonNil (childS i s)).
  { intros Hnil. rewrite Hnil in Hp'. by apply elem_of_nil in Hp'. }
  destruct (child_nonNil _ _ _ (Hch i) Hnon) as [c Hc].
  pose proof (Hch i) as Hti. rewrite Hc in Hti.
  destruct (points_reachable _ _ _ _ Hti Hp') as (n' & Hreach' & Hn').
  exists n', p. split_and!; try done.
  - eapply reachable_trans; [|done]. eapply reach_child; [constructor|].
    by rewrite (deref_lookup _ _ _ Hn).
  - intros ->. apply (addrs_reachable _ _ _ _ Hti) in Hreach'.
    rewrite <-(app_nil_r (addrs s)) in Hnds.
    eapply (root_not_in_child i s [] n); [done..|].
    by rewrite app_nil_r.
Qed.

(** ** Disposal after a build *)

(** X7. A built tree can always be disposed: with enough fuel [dispose]
    returns, it writes only the nodes of the tree, leaves each of them
    cleared, keeps the size of the store, and leaves a well-formed free list
    from which the next build can start. *)
Theorem dispose_after_build fuel ps h T h1 :
  pool_ok h → new_Quadtree fuel ps h = Some (T, h1) →
  ∃ fuel0, ∀ fuel', fuel0 ≤ fuel' →
  ∃ h2, dispose fuel' T h1 = Some h2 ∧ pool_ok h2 ∧
    length (store h2) = length (store h1) ∧
    (∀ a, ¬ reachable h1 (root T) a → store h2 !! a = store h1 !! a) ∧
    (∀ a, reachable h1 (root T) a →
       ∃ nd, store h2 !! a = Some nd ∧ Node.cleared nd).
Proof.
  intros Hpool Hnew.
  destruct (new_Quadtree_tree_shaped _ _ _ _ _ Hpool Hnew)
    as (t & al & Ht & Hp & Hm & Hnd).
  exists (height t). intros fuel' Hfuel.
  destruct (dispose_sim t fuel' (Some (root T)) h1 al.1 Ht Hp Hnd Hfuel)
    as (h2 & Hd & Hp2 & Hl2 & Hf2).
  exists h2. split_and!; try done.
  - exists (flat t al.1). split; [done|]. by rewrite flat_perm.
  - intros a Ha. apply Hf2. by rewrite (addrs_reachable h1 (root T)).
  - intros a Ha. eapply pool_at_cleared; [exact Hp2|].
    rewrite flat_perm. apply elem_of_app. left.
    by apply (addrs_reachable h1 (root T)).
Qed.

Lemma acquire_cycle st r nd fl :
  st !! r = Some nd → Node.next nd = Some r →
  ∀ k, acquire k (mkHeap st (Some r) fl)
       = (replicate k r, mkHeap st (Some r) fl).
Proof.
  intros Hr Hnext. induction k as [|k IH]; [done|].
  cbn [acquire replicate]. unfold node. cbn [cache store failed].
  rewrite (deref_lookup (mkHeap st (Some r) fl) r nd Hr), Hnext.
  by rewrite IH.
Qed.

(** X8. Disposing a tree twice corrupts the free list: after the second
    [dispose] the root is its own successor on the list, so every later
    [node()] returns that same root and two "new" nodes are one object. *)
Theorem double_dispose_cycle fuel ps h T h1 :
  pool_ok h → new_Quadtree fuel ps h = Some (T, h1) →
  ∃ fuel0, ∀ f1 f2, fuel0 ≤ f1 → 1 ≤ f2 →
  ∃ h2 h3, dispose f1 T h1 = Some h2 ∧ dispose f2 T h2 = Some h3 ∧
    ∀ k, acquire k h3 = (replicate k (root T), h3).
Proof.
  intros Hpool Hnew.
  destruct (new_Quadtree_tree_shaped _ _ _ _ _ Hpool Hnew)
    as (t & al & Ht & Hp & Hm & Hnd).
  exists (height t). intros f1 f2 Hf1 Hf2.
  destruct (dispose_sim t f1 (Some (root T)) h1 al.1 Ht Hp Hnd Hf1)
    as (h2 & Hd & Hp2 & _).
  exists h2. destruct t as [|a lf pt k1 k2 k3 k4]; [done|].
  destruct Ht as ([= <-] & _).
  destruct Hp2 as (Hc2 & nd & Hn2 & (_ & _ & H1 & H2 & H3 & H4) & _).
  destruct f2 as [|f2]; [lia|].
  eexists. split; [done|]. split.
  - unfold dispose. cbn [dispose_node].
    rewrite (dispose_child_opt _ _ _ _ _ Hn2), H1.
    cbn [dispose_opt mbind option_bind].
    rewrite (dispose_child_opt _ _ _ _ _ Hn2), H2.
    cbn [dispose_opt mbind option_bind].
    rewrite (dispose_child_opt _ _ _ _ _ Hn2), H3.
    cbn [dispose_opt mbind option_bind].
    rewrite (dispose_child_opt _ _ _ _ _ Hn2), H4.
    cbn [dispose_opt mbind option_bind].
    reflexivity.
  - unfold recycle, update. cbn [store cache failed]. rewrite Hc2.
    apply acquire_cycle
      with (Node.mk true None None None None None (Some (root T))).
    + by rewrite list_lookup_alter_eq, Hn2.
    + done.
Qed.

(** ** The tree does not depend on where its nodes come from *)

Lemma skel_child i t : skel (childS i t) = childS i (skel t).
Proof. destruct t; [done|]. by destruct i as [|[|[|i]]]. Qed.

Lemma skel_set_child i s t :
  skel (set_childS i s t) = set_childS i (skel s) (skel t).
Proof. destruct t; [done|]. by destruct i as [|[|[|i]]]. Qed.

Lemma skel_set_leaf b t : skel (set_leafS b t) = set_leafS b (skel t).
Proof. by destruct t. Qed.

Lemma skel_set_p o t : skel (set_pS o t) = set_pS o (skel t).
Proof. by destruct t. Qed.

Lemma skel_Nil t : skel t = Nil ↔ t = Nil.
Proof. by destruct t. Qed.

Lemma skel_length t1 t2 :
  skel t1 = skel t2 → length (addrs t1) = length (addrs t2).
Proof.
  revert t2. induction t1 as [|a lf pt k1 IH1 k2 IH2 k3 IH3 k4 IH4];
    intros [|a' lf' pt' k1' k2' k3' k4']; try done.
  simpl. intros [= _ _ H1 H2 H3 H4]. rewrite !length_app.
  by rewrite (IH1 _ H1), (IH2 _ H2), (IH3 _ H3), (IH4 _ H4).
Qed.

Lemma child_or_newS_skel c t1 t2 al1 al2 :
  skel t1 = skel t2 →
  skel (child_or_newS c t1 al1).1 = skel (child_or_newS c t2 al2).1.
Proof.
  intros Hs. assert (Hc : skel (childS c t1) = skel (childS c t2))
    by (by rewrite !skel_child, Hs).
  unfold child_or_newS.
  destruct (childS c t1) eqn:E1, (childS c t2) eqn:E2; try done.
  by destruct (nodeS al1), (nodeS al2).
Qed.

Lemma insertS_skel fuel :
  (∀ t1 t2 p x1 y1 x2 y2 al1 al2 r1,
    skel t1 = skel t2 →
    insertS fuel t1 p x1 y1 x2 y2 al1 = Some r1 →
    ∃ r2, insertS fuel t2 p x1 y1 x2 y2 al2 = Some r2 ∧
          skel r1.1 = skel r2.1) ∧
  (∀ t1 t2 p x1 y1 x2 y2 al1 al2 r1,
    skel t1 = skel t2 →
    insertChildS fuel t1 p x1 y1 x2 y2 al1 = Some r1 →
    ∃ r2, insertChildS fuel t2 p x1 y1 x2 y2 al2 = Some r2 ∧
          skel r1.1 = skel r2.1).
Proof.
  induction fuel as [|fuel [IHi IHc]]; split;
    intros t1 t2 p x1 y1 x2 y2 al1 al2 r1 Hs.
  - rewrite !insertS_0. destruct (invalid p); [|done].
    intros [= <-]. by eexists.
  - done.
  - rewrite !insertS_S. destruct (invalid p); [intros [= <-]; by eexists|].
    destruct t1 as [|a lf pt k1 k2 k3 k4]; [done|].
    destruct t2 as [|a' lf' pt' k1' k2' k3' k4']; [done|].
    pose proof Hs as Hs'. simpl in Hs'. injection Hs' as <- <- H1 H2 H3 H4.
    destruct lf; [|by apply IHc].
    destruct pt as [q|].
    + destruct (coincident q p); [by apply IHc|].
      destruct (insertChildS fuel _ q _ _ _ _ al1) as [r|] eqn:E1; [|done].
      cbn [mbind option_bind]. intros E2.
      eapply (IHc _ (set_pS None (Sh a' true (Some q) k1' k2' k3' k4')))
        in E1 as (r' & -> & Hr); [|by rewrite !skel_set_p, Hs].
      cbn [mbind option_bind]. by eapply IHc.
    + intros [= <-]. eexists. split; [done|]. simpl. by rewrite H1, H2, H3, H4.
  - rewrite !insertChildS_S.
    destruct (descend p x1 y1 x2 y2) as [c [[[a1 b1] a2] b2]].
    pose proof (child_or_newS_skel c t1 t2 al1 al2 Hs) as Hk.
    destruct (child_or_newS c t1 al1) as [k1 al1'].
    destruct (child_or_newS c t2 al2) as [k2 al2']. cbn [fst] in Hk.
    destruct (insertS fuel k1 p a1 b1 a2 b2 al1') as [r|] eqn:E1; [|done].
    cbn [mbind option_bind]. intros [= <-].
    eapply (IHi _ k2) in E1 as (r' & -> & Hr); [|done].
    cbn [mbind option_bind fst]. eexists. split; [done|]. cbn [fst].
    by rewrite !skel_set_child, !skel_set_leaf, Hr, Hs.
Qed.

Lemma insert_allS_skel fuel x1 y1 x2 y2 ps :
  ∀ t1 t2 al1 al2 r1, skel t1 = skel t2 →
  insert_allS fuel t1 ps x1 y1 x2 y2 al1 = Some r1 →
  ∃ r2, insert_allS fuel t2 ps x1 y1 x2 y2 al2 = Some r2 ∧
        skel r1.1 = skel r2.1.
Proof.
  induction ps as [|p ps IH]; intros t1 t2 al1 al2 r1 Hs; simpl.
  - intros [= <-]. by eexists.
  - destruct (insertS fuel t1 p x1 y1 x2 y2 al1) as [r|] eqn:E1; [|done].
    simpl. intros E2.
    eapply (proj1 (insertS_skel fuel) _ t2) in E1 as (r' & -> & Hr); [|done].
    simpl. by eapply IH.
Qed.

(** A heap run that exhausts its fuel is a shape run that does. *)
Lemma insert_none fuel :
  (∀ n p x1 y1 x2 y2 h t al,
    repr h n t al → insert fuel n p x1 y1 x2 y2 h = None →
    insertS fuel t p x1 y1 x2 y2 al = None) ∧
  (∀ n p x1 y1 x2 y2 h t al,
    repr h n t al → insertChild fuel n p x1 y1 x2 y2 h = None →
    insertChildS fuel t p x1 y1 x2 y2 al = None).
Proof.
  induction fuel as [|fuel [IHi IHc]]; split;
    intros n p x1 y1 x2 y2 h t al Hrepr.
  - rewrite insert_0, insertS_0. by destruct (invalid p).
  - done.
  - rewrite insert_S, insertS_S. destruct (invalid p); [done|].
    pose proof Hrepr as (Ht & _).
    destruct (tree_at_elim _ _ _ Ht) as (nd & Hroot & Hn & Hlf & Hpt & _).
    rewrite (deref_lookup _ _ _ Hn), Hlf, Hpt.
    destruct t as [|a lf pt k1 k2 k3 k4]; [done|].
    cbn [leaf_of pt_of]. destruct lf; [|by apply IHc].
    destruct pt as [q|]; [|done].
    destruct (coincident q p); [by apply IHc|].
    set (t := Sh a true (Some q) k1 k2 k3 k4) in *.
    pose proof (repr_set_p h n t al None Hrepr) as Hrepr0.
    destruct (insertChild fuel n q _ _ _ _ _) as [h1|] eqn:E1.
    + cbn [mbind option_bind]. intros E2.
      destruct (proj2 (insert_sim fuel) _ _ _ _ _ _ _ _ _ _ Hrepr0 E1)
        as (r1 & -> & Hr1 & _).
      cbn [mbind option_bind]. by eapply IHc.
    + intros _. by rewrite (IHc _ _ _ _ _ _ _ _ _ Hrepr0 E1).
  - rewrite insertChild_S, insertChildS_S.
    pose proof (descend_lt p x1 y1 x2 y2) as Hc.
    destruct (descend p x1 y1 x2 y2) as [c [[[a1 b1] a2] b2]].
    cbn [fst] in Hc.
    destruct (child_or_new _ _ _ _) as [k h3] eqn:Hcn. intros Hins.
    destruct (child_or_new_sim _ _ _ _ _ _ _ Hrepr Hc Hcn)
      as (s & al3 & nd3 & -> & Hrepr3 & _).
    by rewrite (IHi _ _ _ _ _ _ _ _ _ Hrepr3 Hins).
Qed.

Lemma insert_all_none fuel r x1 y1 x2 y2 ps :
  ∀ h t al, repr h r t al →
  insert_all fuel r ps x1 y1 x2 y2 h = None →
  insert_allS fuel t ps x1 y1 x2 y2 al = None.
Proof.
  induction ps as [|p ps IH]; intros h t al Hrepr; simpl; [done|].
  destruct (insert fuel r p x1 y1 x2 y2 h) as [h1|] eqn:E1.
  - simpl. intros E2.
    destruct (proj1 (insert_sim fuel) _ _ _ _ _ _ _ _ _ _ Hrepr E1)
      as (r1 & -> & Hr1 & _).
    simpl. by eapply IH.
  - intros _. by rewrite (proj1 (insert_none fuel) _ _ _ _ _ _ _ _ _ Hrepr E1).
Qed.

Lemma tree_at_unique st t :
  ∀ o t', tree_at st o t → tree_at st o t' → t = t'.
Proof.
  induction t as [|a lf pt k1 IH1 k2 IH2 k3 IH3 k4 IH4]; intros o t'.
  - simpl. intros ->. by intros ->%tree_at_None.
  - intros (-> & nd & Hn & <- & <- & H1 & H2 & H3 & H4).
    destruct t' as [|a' lf' pt' k1' k2' k3' k4']; [done|].
    intros ([= <-] & nd' & Hn' & <- & <- & H1' & H2' & H3' & H4').
    rewrite Hn in Hn'. injection Hn' as <-.
    by rewrite (IH1 _ _ H1 H1'), (IH2 _ _ H2 H2'), (IH3 _ _ H3 H3'),
      (IH4 _ _ H4 H4').
Qed.

(** The constructor in terms of the loop on shapes, in both directions. *)
Lemma node_repr h l r h0 :
  pool_at (store h) (cache h) l → NoDup l → node h = (r, h0) →
  ∃ al0, nodeS (l, length (store h)) = (r, al0) ∧
         repr h0 r (leafS r) al0.
Proof.
  intros Hp Hnd Hn.
  destruct (node_sim h (l, length (store h)) _ h0 Hp eq_refl Hn)
    as (al0 & ndk & HnS & Hp0 & Hm0 & Hfr0 & Hk & Hcl & Hle0).
  exists al0. split; [done|]. split_and!; try done.
  - unfold leafS. cbn [tree_at]. split; [done|]. exists ndk.
    destruct Hcl as (? & ? & -> & -> & -> & ->). by split_and!.
  - simpl. eapply nodeS_NoDup; [done..|].
    intros a Ha. simpl. by eapply pool_at_bound.
Qed.

Lemma new_Quadtree_shapes fuel ps h l T h' :
  pool_at (store h) (cache h) l → NoDup l →
  new_Quadtree fuel ps h = Some (T, h') →
  ∃ al0 r',
    nodeS (l, length (store h)) = (root T, al0) ∧
    bounds T = squarify (scan ps) ∧
    (let '(x1, y1, x2, y2) := bounds T in
     insert_allS fuel (leafS (root T)) ps x1 y1 x2 y2 al0) = Some r' ∧
    repr h' (root T) r'.1 r'.2.
Proof.
  intros Hp Hnd (Hroot & Hb & Hins)%new_Quadtree_inv.
  unfold insert_allB in Hins. rewrite Hb.
  destruct (bounds T) as [[[x1 y1] x2] y2]. rewrite <-Hb.
  destruct (node h) as [r h0] eqn:Hn. cbn [fst snd] in *. subst r.
  destruct (node_repr _ _ _ _ Hp Hnd Hn) as (al0 & HnS & Hrepr0).
  destruct (insert_all_sim _ _ _ _ _ _ _ _ _ _ _ Hrepr0 Hins)
    as (r' & HS & Hrepr' & _).
  by exists al0, r'.
Qed.

Lemma new_Quadtree_complete fuel ps h l r' :
  pool_at (store h) (cache h) l → NoDup l →
  (let '(x1, y1, x2, y2) := squarify (scan ps) in
   insert_allS fuel (leafS (nodeS (l, length (store h))).1) ps x1 y1 x2 y2
     (nodeS (l, length (store h))).2) = Some r' →
  ∃ T h', new_Quadtree fuel ps h = Some (T, h').
Proof.
  intros Hp Hnd HS. unfold new_Quadtree.
  destruct (squarify (scan ps)) as [[[x1 y1] x2] y2].
  destruct (node h) as [r h0] eqn:Hn.
  destruct (node_repr _ _ _ _ Hp Hnd Hn) as (al0 & HnS & Hrepr0).
  rewrite HnS in HS. cbn [fst snd] in HS.
  destruct (insert_all fuel r ps x1 y1 x2 y2 h0) as [h'|] eqn:Hins.
  - by eexists _, _.
  - apply (insert_all_none _ _ _ _ _ _ _ _ _ _ Hrepr0) in Hins. congruence.
Qed.

Lemma build_skeleton fuel ps h1 h2 T1 h1' :
  pool_ok h1 → pool_ok h2 →
  new_Quadtree fuel ps h1 = Some (T1, h1') →
  ∃ T2 h2' t1 t2 al1 al2,
    new_Quadtree fuel ps h2 = Some (T2, h2') ∧ bounds T2 = bounds T1 ∧
    repr h1' (root T1) t1 al1 ∧ repr h2' (root T2) t2 al2 ∧
    skel t1 = skel t2.
Proof.
  intros (l1 & Hp1 & Hnd1) (l2 & Hp2 & Hnd2) Hnew1.
  destruct (new_Quadtree_shapes _ _ _ _ _ _ Hp1 Hnd1 Hnew1)
    as (al01 & r1 & HnS1 & Hb1 & HS1 & Hrepr1).
  rewrite Hb1 in HS1.
  assert (HS2 : ∃ r2,
    (let '(x1, y1, x2, y2) := squarify (scan ps) in
     insert_allS fuel (leafS (nodeS (l2, length (store h2))).1) ps
       x1 y1 x2 y2 (nodeS (l2, length (store h2))).2) = Some r2 ∧
    skel r1.1 = skel r2.1).
  { destruct (squarify (scan ps)) as [[[x1 y1] x2] y2].
    eapply insert_allS_skel; [|exact HS1]. done. }
  destruct HS2 as (r2 & HS2 & Hskel).
  destruct (new_Quadtree_complete _ _ _ _ _ Hp2 Hnd2 HS2) as (T2 & h2' & Hnew2).
  destruct (new_Quadtree_shapes _ _ _ _ _ _ Hp2 Hnd2 Hnew2)
    as (al02 & r2' & HnS2 & Hb2 & HS2' & Hrepr2).
  rewrite Hb2, HnS2 in *. cbn [fst snd] in HS2.
  assert (r2' = r2) as -> by congruence.
  exists T2, h2', r1.1, r2.1, r1.2, r2.2. split_and!; try done.
  congruence.
Qed.


(** X10. Rebuilding after a disposal allocates nothing: when a built tree
    is disposed and the same particles are built again with the same fuel,
    the second build returns, its root is the old root, its bounds are the
    old bounds, it has the shape of the old tree, and the store has not
    grown. *)
Theorem rebuild_reuses_nodes fuel ps h T h1 :
  pool_ok h → new_Quadtree fuel ps h = Some (T, h1) →
  ∃ fuel0, ∀ fuel', fuel0 ≤ fuel' →
  ∃ h2 T' h3,
    dispose fuel' T h1 = Some h2 ∧
    new_Quadtree fuel ps h2 = Some (T', h3) ∧
    root T' = root T ∧ bounds T' = bounds T ∧
    length (store h3) = length (store h1) ∧
    ∃ t t' al al', repr h1 (root T) t al ∧ repr h3 (root T') t' al' ∧
                   skel t = skel t'.
Proof.
  intros Hpool Hnew.
  destruct (new_Quadtree_tree_shaped _ _ _ _ _ Hpool Hnew)
    as (t & al & Hrepr).
  pose proof Hrepr as (Ht & Hp & Hm & Hnd).
  exists (height t). intros fuel' Hfuel.
  destruct (dispose_sim t fuel' (Some (root T)) h1 al.1 Ht Hp Hnd Hfuel)
    as (h2 & Hd & Hp2 & Hl2 & _).
  assert (Hnd2 : NoDup (flat t al.1)) by (by rewrite flat_perm).
  assert (Hpool2 : pool_ok h2) by (by exists (flat t al.1)).
  destruct (build_skeleton _ _ _ _ _ _ Hpool Hpool2 Hnew)
    as (T' & h3 & t1 & t' & al1 & al' & Hnew' & Hb & Hr1 & Hr' & Hskel).
  assert (t1 = t) as ->.
  { destruct Hr1 as (Ht1 & _). by eapply tree_at_unique. }
  destruct (build_shapes _ _ _ _ _ _ Hp2 Hnd2 Hnew')
    as (t2 & al2 & (Ht2 & _ & Hm2 & _) & _ & _ & _ & _ & Hle & [_ Hgrow]
        & Hperm).
  assert (t2 = t') as ->.
  { destruct Hr' as (Ht' & _). by eapply tree_at_unique. }
  destruct (new_Quadtree_shapes _ _ _ _ _ _ Hp2 Hnd2 Hnew')
    as (al0 & r' & HnS & _).
  exists h2, T', h3. split_and!; try done.
  - destruct t as [|a lf pt k1 k2 k3 k4]; [done|].
    destruct Ht as ([= <-] & _). unfold nodeS in HnS. simpl in HnS.
    by injection HnS as -> _.
  - simpl in Hgrow. rewrite Hm2 in Hgrow.
    apply Permutation_length in Hperm.
    rewrite !length_app, length_seq, (Permutation_length (flat_perm _ _)),
      length_app, <-(skel_length _ _ Hskel) in Hperm.
    destruct (decide (length (store h2) < length (store h3))) as [Hlt|Hge];
      [|lia].
    rewrite (Hgrow Hlt) in Hperm. simpl in Hperm. lia.
  - by exists t, t', al, al'.
Qed.

(** ** Line 44 is reached for the particles of the input only *)








(** ** pv.Text and its FontSizeCache *)

Section text_facts.
Import Text.

Lemma assign_lookup {V} (k k' : string) (v : V) (o : gmap string V) :
  assign k v o !! k' =
  if decide (k' = k ∧ ¬ (k = "__proto__" ∧ o !! k = None)) then Some v
  else o !! k'.
Proof.
  unfold assign. destruct (decide (k = "__proto__" ∧ o !! k = None)).
  - rewrite decide_False; intuition congruence.
  - destruct (decide (k' = k)) as [->|].
    + rewrite lookup_insert_eq, decide_True; done.
    + rewrite lookup_insert_ne, decide_False by intuition congruence. done.
Qed.

Lemma entry_default s c k :
  default ∅ (instances s !! c) !! k = entry s c k.
Proof. unfold entry. by destruct (instances s !! c). Qed.

Lemma getFont_spec c font s :
  let k := or_empty font in
  let o := (_getFont c font s).1 in
  let s' := (_getFont c font s).2 in
  _cache s' = _cache s ∧ calls s' = calls s ∧
  length (instances s') = length (instances s) ∧
  ((entry s c k = Some o ∧ s' = s) ∨
   (entry s c k = None ∧ o = length (fontCaches s) ∧
    fontCaches s' = fontCaches s ++ [∅] ∧
    ∀ c' k', entry s' c' k' =
      if decide (c' = c ∧ k' = k ∧ storable s c k) then Some o
      else entry s c' k')).
Proof.
  intros k. unfold _getFont. rewrite entry_default. fold k.
  destruct (entry s c k) as [o|] eqn:He; simpl; [by split_and!; auto|].
  rewrite length_alter. split_and!; try done. right. split_and!; try done.
  intros c' k'. unfold entry, storable. simpl.
  destruct (decide (c' = c)) as [->|Hne].
  - rewrite list_lookup_alter_eq. unfold entry in He.
    destruct (instances s !! c) as [fc|] eqn:Hc; simpl in *.
    + apply lookup_lt_Some in Hc as Hlt. rewrite assign_lookup.
      rewrite He. repeat case_decide; intuition congruence.
    + apply lookup_ge_None in Hc. rewrite decide_False; [done|lia].
  - rewrite list_lookup_alter_ne by done.
    rewrite decide_False; intuition congruence.
Qed.

Ltac getFont_cases c font s o s1 :=
  let H := fresh in
  pose proof (getFont_spec c font s) as H;
  destruct (_getFont c font s) as [o s1]; simpl in *;
  destruct H as (Hc & Hcalls & Hlen & [[He ->]|(He & Ho & Hfc & Hent)]).

Lemma getFont_wf c font s : wf s → wf (_getFont c font s).2.
Proof.
  intros Hwf. getFont_cases c font s o s'; [done|].
  assert (Hold : ∀ c' k' o', entry s c' k' = Some o' → o' ≠ o).
  { intros c' k' o' H%(wf_bound _ Hwf). lia. }
  split.
  - intros c' k' o'. rewrite Hent, Hfc, length_app. simpl.
    destruct (decide _); [intros [= ?]; lia|].
    intros H%(wf_bound _ Hwf). lia.
  - intros c1 c2 k1 k2 o'. rewrite !Hent.
    destruct (decide _) as [(-> & -> & _)|_],
      (decide _) as [(-> & -> & _)|_].
    + done.
    + intros [= <-] H. by apply Hold in H.
    + intros H [= <-]. by apply Hold in H.
    + apply (wf_inj _ Hwf).
  - intros c'. rewrite Hent. rewrite decide_False.
    + apply (wf_proto_font _ Hwf).
    + unfold storable. intuition congruence.
  - intros o' m. rewrite Hfc. intros [H|[_ H]]%lookup_app_Some.
    + by apply (wf_proto_text _ Hwf) in H.
    + apply list_lookup_singleton_Some in H as [_ <-]. done.
  - intros c'. rewrite Hc, Hlen. apply (wf_cache _ Hwf).
Qed.

Lemma getFont_held c font s c' k' t' :
  wf s → held (_getFont c font s).2 c' k' t' = held s c' k' t'.
Proof.
  intros Hwf. getFont_cases c font s o s'; [done|].
  unfold held. rewrite Hent, Hfc.
  destruct (decide _) as [(-> & -> & _)|Hd].
  - rewrite He, Ho. simpl.
    by rewrite lookup_app_r, Nat.sub_diag.
  - destruct (entry s c' k') as [o'|] eqn:He'; [|done]. simpl.
    by rewrite lookup_app_l by by eapply wf_bound.
Qed.

Lemma getFont_entry c font s :
  wf s →
  let o := (_getFont c font s).1 in
  let s' := (_getFont c font s).2 in
  o < length (fontCaches s') ∧
  (storable s c (or_empty font) → entry s' c (or_empty font) = Some o) ∧
  (¬ storable s c (or_empty font) → ∀ c' k', entry s' c' k' ≠ Some o).
Proof.
  intros Hwf. getFont_cases c font s o s'.
  - split_and!; [by eapply wf_bound|done|].
    intros []. split.
    + unfold entry in He. destruct (instances s !! c) eqn:Hi; [|done].
      by apply lookup_lt_Some in Hi.
    + intros Hk. by rewrite Hk, (wf_proto_font _ Hwf) in He.
  - rewrite Hfc, length_app, Ho. simpl. split_and!; [lia| |].
    + intros Hst. rewrite Hent, decide_True; [by rewrite Ho|done].
    + intros Hst c' k'. rewrite Hent, decide_False by intuition congruence.
      intros H%(wf_bound _ Hwf). lia.
Qed.

Lemma get_fst c font text s :
  (get c font text s).1 = held s c (or_empty font) (or_empty text).
Proof.
  unfold get, held.
  getFont_cases c font s o s'; rewrite He; simpl.
  - by destruct (fontCaches s !! o).
  - by rewrite Hfc, Ho, lookup_app_r, Nat.sub_diag.
Qed.

Lemma get_snd c font text s : (get c font text s).2 = (_getFont c font s).2.
Proof. unfold get. by destruct (_getFont c font s). Qed.

Lemma put_fst c font text size s : (put c font text size s).1 = size.
Proof. unfold put. by destruct (_getFont c font s). Qed.

Lemma put_snd c font text size s :
  (put c font text size s).2 =
  let r := _getFont c font s in
  mkState (alter (assign (or_empty text) size) r.1 (fontCaches r.2))
    (instances r.2) (_cache r.2) (calls r.2).
Proof. unfold put. by destruct (_getFont c font s). Qed.

Lemma put_fields c font text size s :
  calls (put c font text size s).2 = calls s ∧
  _cache (put c font text size s).2 = _cache s ∧
  length (instances (put c font text size s).2) = length (instances s).
Proof.
  rewrite put_snd. simpl.
  by destruct (getFont_spec c font s) as (-> & -> & -> & _).
Qed.

Lemma put_wf c font text size s : wf s → wf (put c font text size s).2.
Proof.
  intros Hwf%(getFont_wf c font). rewrite put_snd. simpl.
  destruct (_getFont c font s) as [o s1]. simpl in *.
  split; simpl; try apply Hwf.
  - intros c' k' o'. rewrite length_alter. apply (wf_bound _ Hwf).
  - intros o' m. destruct (decide (o' = o)) as [->|Hne].
    + rewrite list_lookup_alter_eq.
      destruct (fontCaches s1 !! o) as [m0|] eqn:Hm0; [|done].
      intros [= <-]. rewrite assign_lookup.
      pose proof (wf_proto_text _ Hwf _ _ Hm0) as Hp.
      destruct (decide _) as [[Heq Hn]|_]; [|done].
      exfalso. apply Hn. by rewrite <-Heq.
    + rewrite list_lookup_alter_ne by done. apply (wf_proto_text _ Hwf).
Qed.

Lemma put_held c font text size s c' k' t' :
  wf s →
  held (put c font text size s).2 c' k' t' =
  if decide (c' = c ∧ k' = or_empty font ∧ t' = or_empty text ∧
             storable s c (or_empty font) ∧ or_empty text ≠ "__proto__")
  then Some size else held s c' k' t'.
Proof.
  intros Hwf. rewrite <-(getFont_held c font s c' k' t' Hwf).
  pose proof (getFont_wf c font s Hwf) as Hwf1.
  destruct (getFont_entry c font s Hwf) as (Hlt & Hst & Hnst).
  rewrite put_snd. simpl.
  destruct (_getFont c font s) as [o s1]. simpl in *.
  unfold held, entry. simpl. fold (entry s1 c' k').
  destruct (entry s1 c' k') as [o'|] eqn:He'; simpl.
  - destruct (decide (o' = o)) as [->|Hne].
    + destruct (decide (storable s c (or_empty font))) as [Hs|Hs];
        [|by apply Hnst in He'].
      destruct (wf_inj _ Hwf1 _ _ _ _ _ He' (Hst Hs)) as [-> ->].
      rewrite list_lookup_alter_eq.
      destruct (lookup_lt_is_Some_2 _ _ Hlt) as [m Hm]. rewrite Hm. simpl.
      rewrite assign_lookup. pose proof (wf_proto_text _ Hwf1 _ _ Hm) as Hp.
      destruct (decide (or_empty text = "__proto__")) as [Ht|Ht].
      * rewrite Ht in *. rewrite !decide_False; tauto.
      * destruct (decide (t' = or_empty text)) as [Ht'|Ht'].
        -- rewrite !decide_True; tauto.
        -- rewrite !decide_False; tauto.
    + rewrite list_lookup_alter_ne by done. rewrite decide_False; [done|].
      intros (-> & -> & _ & Hs & _). rewrite (Hst Hs) in He'.
      intuition congruence.
  - rewrite decide_False; [done|].
    intros (-> & -> & _ & Hs & _). rewrite (Hst Hs) in He'. done.
Qed.

Lemma held_entry s c k t b :
  held s c k t = Some b → ∃ o, entry s c k = Some o.
Proof. unfold held. destruct (entry s c k); [by eexists|done]. Qed.

Lemma get_hit c font text s b :
  held s c (or_empty font) (or_empty text) = Some b →
  get c font text s = (Some b, s).
Proof.
  intros Hh. destruct (held_entry _ _ _ _ _ Hh) as [o Ho].
  pose proof (get_fst c font text s) as H1.
  pose proof (get_snd c font text s) as H2.
  destruct (get c font text s) as [r s']. simpl in *. subst r s'.
  rewrite Hh. f_equal. unfold _getFont. rewrite entry_default, Ho. done.
Qed.

Lemma wf_calls s cs :
  wf s → wf (mkState (fontCaches s) (instances s) (_cache s) cs).
Proof. intros []. by split. Qed.

Lemma measure_hit measureCore text font s c b :
  _cache s = Some c →
  held s c (or_empty font) (default "" text) = Some b →
  measure measureCore text font s = (Return b, s).
Proof.
  intros Hc Hh. unfold measure. rewrite Hc.
  by rewrite (get_hit c font (Some (default "" text)) s b).
Qed.

Lemma measure_miss measureCore text font s :
  wf s →
  (∀ c, _cache s = Some c →
        held s c (or_empty font) (default "" text) = None) →
  let t := default "" text in
  let r0 := if decide (t = "") then Return (Bbox 0 0)
            else measureCore t font in
  let s' := (measure measureCore text font s).2 in
  (measure measureCore text font s).1 = r0 ∧
  calls s' = (if decide (t = "") then calls s
              else calls s ++ [(t, font)]) ∧
  _cache s' = _cache s ∧ wf s' ∧
  ∀ c' k' t', held s' c' k' t' =
    match r0 with
    | Throw _ => held s c' k' t'
    | Return b =>
      if decide (_cache s = Some c' ∧ k' = or_empty font ∧ t' = t ∧
                 or_empty font ≠ "__proto__" ∧ t ≠ "__proto__")
      then Some b else held s c' k' t'
    end.
Proof.
  intros Hwf Hmiss t0. subst t0. unfold measure.
  remember (default "" text) as t eqn:Ht0. clear Ht0 text.
  assert (Hg : ∃ s1, (match _cache s with
                      | Some c => get c font (Some t) s
                      | None => (None, s)
                      end) = (None, s1) ∧ wf s1 ∧ _cache s1 = _cache s ∧
                     calls s1 = calls s ∧
                     length (instances s1) = length (instances s) ∧
                     ∀ c' k' t', held s1 c' k' t' = held s c' k' t').
  { destruct (_cache s) as [c|] eqn:Hc; [|by exists s].
    exists (_getFont c font s).2.
    pose proof (get_fst c font (Some t) s) as H1.
    pose proof (get_snd c font (Some t) s) as H2.
    destruct (get c font (Some t) s) as [r s1]. simpl in *. subst.
    rewrite (Hmiss c eq_refl). split_and!; [done|by apply getFont_wf|..].
    - by destruct (getFont_spec c font s) as (-> & _).
    - by destruct (getFont_spec c font s) as (_ & -> & _).
    - by destruct (getFont_spec c font s) as (_ & _ & -> & _).
    - intros. by apply getFont_held. }
  destruct Hg as (s1 & -> & Hwf1 & Hc1 & Hcalls1 & Hlen1 & Hh1).
  assert (Hput : ∀ cs b,
    let s2 := mkState (fontCaches s1) (instances s1) (_cache s1) cs in
    let s3 := match _cache s2 with
              | Some c => (put c font (Some t) b s2).2
              | None => s2
              end in
    calls s3 = cs ∧ _cache s3 = _cache s ∧ wf s3 ∧
    ∀ c' k' t', held s3 c' k' t' =
      if decide (_cache s = Some c' ∧ k' = or_empty font ∧ t' = t ∧
                 or_empty font ≠ "__proto__" ∧ t ≠ "__proto__")
      then Some b else held s c' k' t').
  { intros cs b s2.
    assert (Hwf2 : wf s2) by by apply wf_calls.
    assert (Hc2 : _cache s2 = _cache s) by done.
    assert (Hl2 : length (instances s2) = length (instances s)) by done.
    assert (Hh2 : ∀ c' k' t', held s2 c' k' t' = held s c' k' t')
      by (intros; by rewrite <-Hh1).
    assert (Hcs : calls s2 = cs) by done.
    clearbody s2. rewrite Hc2. destruct (_cache s) as [c|] eqn:Hc; simpl.
    - destruct (put_fields c font (Some t) b s2) as (-> & -> & _).
      split_and!; [done|by rewrite Hc2|by apply put_wf|].
      intros c' k' t'. rewrite put_held, Hh2 by done. unfold storable.
      assert (Hlt : c < length (instances s2)).
      { rewrite Hl2. by apply (wf_cache _ Hwf). }
      simpl. destruct (decide _) as [Hd|Hd], (decide _) as [Hd'|Hd'];
        try done; exfalso.
      + apply Hd'. destruct Hd as (-> & ?). tauto.
      + apply Hd. destruct Hd' as ([= ->] & ?). tauto.
    - split_and!; [done..|]. intros c' k' t'.
      apply Hh2. }
  destruct (decide (t = "")) as [Ht|Ht].
  - destruct (Hput (calls s1) (Bbox 0 0)) as (H1 & H2 & H3 & H4).
    simpl in *. destruct s1. simpl in *. by rewrite <-Hcalls1.
  - destruct (measureCore t font) as [b|e] eqn:Hm; simpl.
    + destruct (Hput (calls s1 ++ [(t, font)]) b) as (H1 & H2 & H3 & H4).
      simpl in *. by rewrite <-Hcalls1.
    + split_and!; [done|by rewrite Hcalls1|done|by apply wf_calls|done].
Qed.

Lemma held_proto s c k t :
  wf s → k = "__proto__" ∨ t = "__proto__" → held s c k t = None.
Proof.
  intros Hwf Hk. unfold held.
  destruct (entry s c k) as [o|] eqn:He; [|done]. simpl.
  destruct (fontCaches s !! o) as [m|] eqn:Hm; [|done]. simpl.
  destruct Hk as [->| ->].
  - by rewrite (wf_proto_font _ Hwf) in He.
  - by apply (wf_proto_text _ Hwf) in Hm.
Qed.

Lemma wf_set_cache s c :
  wf s → c < length (instances s) →
  wf (mkState (fontCaches s) (instances s) (Some c) (calls s)).
Proof. intros [] Hc. split; try done. by intros ? [= <-]. Qed.

Lemma wf_init : wf init.
Proof. by split. Qed.

Lemma createCache_entry s c k :
  entry (createCache s).2 c k = entry s c k.
Proof.
  unfold entry. simpl.
  destruct (decide (c < length (instances s))) as [Hlt|Hge].
  - by rewrite lookup_app_l.
  - rewrite lookup_app_r by lia.
    rewrite (lookup_ge_None_2 (instances s)) by lia.
    by destruct (c - length (instances s)) as [|[]].
Qed.

Lemma createCache_wf s : wf s → wf (createCache s).2.
Proof.
  intros Hwf. split.
  - intros c k o. rewrite createCache_entry. apply (wf_bound _ Hwf).
  - intros c c' k k' o. rewrite !createCache_entry. apply (wf_inj _ Hwf).
  - intros c. rewrite createCache_entry. apply (wf_proto_font _ Hwf).
  - apply (wf_proto_text _ Hwf).
  - intros c Hc%(wf_cache _ Hwf). simpl. rewrite length_app. lia.
Qed.

Lemma measure_fields measureCore text font s :
  wf s →
  let s' := (measure measureCore text font s).2 in
  wf s' ∧ _cache s' = _cache s.
Proof.
  intros Hwf.
  destruct (_cache s) as [c|] eqn:Hc.
  - destruct (held s c (or_empty font) (default "" text)) as [b|] eqn:Hh.
    + by rewrite (measure_hit measureCore text font s c b).
    + destruct (measure_miss measureCore text font s Hwf)
        as (_ & _ & H1 & H2 & _); [|by rewrite <-Hc].
      intros c' Hc'. rewrite Hc in Hc'. by injection Hc' as <-.
  - destruct (measure_miss measureCore text font s Hwf)
      as (_ & _ & H1 & H2 & _); [|by rewrite <-Hc].
    intros c' Hc'. by rewrite Hc in Hc'.
Qed.

Lemma measure_again measureCore measureCore' text font font' s c b :
  wf s → _cache s = Some c →
  or_empty font ≠ "__proto__" → default "" text ≠ "__proto__" →
  or_empty font' = or_empty font →
  (measure measureCore text font s).1 = Return b →
  measure measureCore' text font' (measure measureCore text font s).2 =
  (Return b, (measure measureCore text font s).2).
Proof.
  intros Hwf Hc Hk Ht Hk' Hm.
  destruct (held s c (or_empty font) (default "" text)) as [b'|] eqn:Hh.
  - rewrite (measure_hit measureCore text font s c b') in * by done.
    simpl in *. injection Hm as ->.
    apply measure_hit with c; [done|by rewrite Hk'].
  - destruct (measure_miss measureCore text font s Hwf)
      as (H1 & _ & H2 & _ & H3).
    { intros c' Hc'. rewrite Hc in Hc'. by injection Hc' as <-. }
    rewrite Hm in H1.
    apply measure_hit with c; [by rewrite H2|].
    rewrite Hk', H3, <-H1. by rewrite decide_True.
Qed.

(** X11. A box that [put] stores under a cache, a font and a text is what
    [get] then reads there, and [put] changes the answer of no other
    lookup, in that cache or in another; the keys are the font and the
    text with a missing or empty argument read as the empty string, and
    neither is ["__proto__"]. *)
Theorem put_then_get c font text size s :
  wf s → c < length (instances s) →
  or_empty font ≠ "__proto__" → or_empty text ≠ "__proto__" →
  (get c font text (put c font text size s).2).1 = Some size ∧
  ∀ c' font' text',
    (c', or_empty font', or_empty text') ≠ (c, or_empty font, or_empty text) →
    (get c' font' text' (put c font text size s).2).1 =
    (get c' font' text' s).1.
Proof.
  intros Hwf Hc Hk Ht. split.
  - rewrite get_fst, put_held by done. by rewrite decide_True.
  - intros c' font' text' Hne. rewrite !get_fst, put_held by done.
    rewrite decide_False; [done|]. intros (-> & H1 & H2 & _).
    apply Hne. by rewrite H1, H2.
Qed.

(** X12. A lookup changes the answer of no lookup, although it creates
    the entry of a font it has not seen; once the entry exists, further
    lookups under that font leave the state as it is. *)
Theorem get_changes_no_answer c font text s :
  wf s →
  (∀ c' font' text',
     (get c' font' text' (get c font text s).2).1 =
     (get c' font' text' s).1) ∧
  (c < length (instances s) → or_empty font ≠ "__proto__" →
   ∀ text', (get c font text' (get c font text s).2).2 =
            (get c font text s).2).
Proof.
  intros Hwf. split.
  - intros c' font' text'. by rewrite !get_fst, get_snd, getFont_held.
  - intros Hc Hk text'. rewrite !get_snd.
    destruct (getFont_entry c font s Hwf) as (_ & He & _).
    specialize (He (conj Hc Hk)).
    destruct (_getFont c font s) as [o s1]. simpl in *.
    unfold _getFont. by rewrite entry_default, He.
Qed.

(** X13. Nothing is ever held under the key ["__proto__"]: when the font
    key or the text is ["__proto__"], the lookup that follows a [put]
    answers [null], and the [put] changes the answer of no lookup. *)
Theorem proto_key_holds_nothing c font text size s :
  wf s → or_empty font = "__proto__" ∨ or_empty text = "__proto__" →
  (get c font text (put c font text size s).2).1 = None ∧
  ∀ c' font' text',
    (get c' font' text' (put c font text size s).2).1 =
    (get c' font' text' s).1.
Proof.
  intros Hwf Hk.
  assert (H : ∀ c' font' text',
    (get c' font' text' (put c font text size s).2).1 =
    (get c' font' text' s).1).
  { intros c' font' text'. rewrite !get_fst, put_held by done.
    rewrite decide_False; [done|]. unfold storable. tauto. }
  split; [|done]. rewrite H, get_fst. by apply held_proto.
Qed.

(** X14. Measuring with a cache in use, a second measure of the same text
    under a font with the same key (the font itself, or a missing font
    for an empty one) returns the box of the first without calling
    [measureCore] and without changing the state. *)
Theorem measure_twice measureCore measureCore' text font font' s c b :
  wf s → _cache s = Some c →
  or_empty font ≠ "__proto__" → default "" text ≠ "__proto__" →
  or_empty font' = or_empty font →
  (measure measureCore text font s).1 = Return b →
  measure measureCore' text font' (measure measureCore text font s).2 =
  (Return b, (measure measureCore text font s).2).
Proof. apply measure_again. Qed.

(** X15. A text or a font ["__proto__"] is measured at every call, cache or
    not: each measure of a non-empty text calls [measureCore] once more
    and returns or throws what it does. *)
Theorem proto_key_measured_each_time measureCore text font s :
  wf s → default "" text ≠ "" →
  or_empty font = "__proto__" ∨ default "" text = "__proto__" →
  let s' := (measure measureCore text font s).2 in
  (measure measureCore text font s).1 = measureCore (default "" text) font ∧
  calls s' = calls s ++ [(default "" text, font)] ∧
  wf s' ∧ _cache s' = _cache s.
Proof.
  intros Hwf Ht Hk.
  destruct (measure_miss measureCore text font s Hwf)
    as (H1 & H2 & H3 & H4 & _).
  { intros c _. by apply held_proto. }
  rewrite decide_False in H1 by done. rewrite decide_False in H2 by done.
  done.
Qed.

(** X16. An empty or missing text is never passed to [measureCore]: the
    measure returns, with the box that the cache in use holds for the
    empty text under the font, and otherwise the box of width and height
    zero. *)
Theorem empty_text_not_measured measureCore text font s :
  wf s → default "" text = "" →
  (measure measureCore text font s).1 =
    Return (default (Bbox 0 0)
              (c ← _cache s; held s c (or_empty font) "")) ∧
  calls (measure measureCore text font s).2 = calls s.
Proof.
  intros Hwf Ht.
  destruct (_cache s) as [c|] eqn:Hc; simpl.
  - destruct (held s c (or_empty font) "") as [b|] eqn:Hh; simpl.
    + rewrite (measure_hit measureCore text font s c b); [done..|].
      by rewrite Ht.
    + destruct (measure_miss measureCore text font s Hwf)
        as (H1 & H2 & _).
      { intros c' Hc'. rewrite Hc in Hc'. injection Hc' as <-.
        by rewrite Ht. }
      rewrite Ht in H1, H2. rewrite decide_True in H1 by done.
      by rewrite decide_True in H2 by done.
  - destruct (measure_miss measureCore text font s Hwf) as (H1 & H2 & _).
    { intros c' Hc'. by rewrite Hc in Hc'. }
    rewrite Ht in H1, H2. rewrite decide_True in H1 by done.
    by rewrite decide_True in H2 by done.
Qed.

(** X17. A measure overwrites nothing: a box that a cache holds before a
    measure is held after it, whether the measure returns or throws. *)
Theorem measure_overwrites_nothing measureCore text font s c' font' text' b :
  wf s → (get c' font' text' s).1 = Some b →
  (get c' font' text' (measure measureCore text font s).2).1 = Some b.
Proof.
  intros Hwf. rewrite !get_fst. intros Hb.
  destruct (_cache s) as [c|] eqn:Hc.
  - destruct (held s c (or_empty font) (default "" text)) as [b'|] eqn:Hh.
    + by rewrite (measure_hit measureCore text font s c b').
    + destruct (measure_miss measureCore text font s Hwf)
        as (_ & _ & _ & _ & H).
      { intros c0 Hc0. rewrite Hc in Hc0. by injection Hc0 as <-. }
      rewrite H.
      destruct (decide (default "" text = ""));
        [|destruct (measureCore _ _); [|done]];
        (destruct (decide _) as [(Hc' & Hk' & Ht' & _)|]; [|done]);
        rewrite Hc in Hc'; injection Hc' as <-; congruence.
  - destruct (measure_miss measureCore text font s Hwf)
      as (_ & _ & _ & _ & H).
    { intros c0 Hc0. by rewrite Hc in Hc0. }
    rewrite H.
    destruct (decide (default "" text = ""));
      [|destruct (measureCore _ _); [|done]];
      destruct (decide _) as [(Hc' & _)|]; congruence.
Qed.

(** X18. A measure that throws caches nothing: when [measureCore] throws,
    the measure throws the same exception and no lookup answers
    otherwise than before. *)
Theorem failed_measure_caches_nothing measureCore text font s e :
  wf s → (measure measureCore text font s).1 = Throw e →
  measureCore (default "" text) font = Throw e ∧
  ∀ c' font' text',
    (get c' font' text' (measure measureCore text font s).2).1 =
    (get c' font' text' s).1.
Proof.
  intros Hwf Hthrow.
  assert (Hmiss : ∀ c, _cache s = Some c →
            held s c (or_empty font) (default "" text) = None).
  { intros c Hc.
    destruct (held s c (or_empty font) (default "" text)) as [b|] eqn:Hh;
      [|done].
    by rewrite (measure_hit measureCore text font s c b) in Hthrow. }
  destruct (measure_miss measureCore text font s Hwf Hmiss)
    as (H1 & _ & _ & _ & H).
  rewrite Hthrow in H1. destruct (decide (default "" text = "")); [done|].
  split; [done|]. intros c' font' text'. rewrite !get_fst, H.
  by rewrite <-H1.
Qed.

(** X19. [usingCache] leaves [_cache] as it found it, whether the callback
    returns or throws, and two sessions on the same cache share what was
    measured: the second session returns the box of the first without
    calling [measureCore] and without changing the state. *)
Theorem usingCache_sessions_share measureCore measureCore' text font c s b :
  wf s → c < length (instances s) →
  or_empty font ≠ "__proto__" → default "" text ≠ "__proto__" →
  let session mc := usingCache (Instance c) (measure mc text font) in
  (session measureCore s).1 = Return b →
  session measureCore' (session measureCore s).2 =
    (Return b, (session measureCore s).2) ∧
  ∀ A cache (fun_ : M A), _cache (usingCache cache fun_ s).2 = _cache s.
Proof.
  intros Hwf Hc Hk Ht session Hret. split.
  - unfold session, usingCache in *.
    set (s0 := mkState (fontCaches s) (instances s) (Some c) (calls s)) in *.
    pose proof (wf_set_cache s c Hwf Hc) as Hwf0. fold s0 in Hwf0.
    pose proof (measure_fields measureCore text font s0 Hwf0) as [_ Hc1].
    pose proof (measure_again measureCore measureCore' text font font
                  s0 c b Hwf0 eq_refl Hk Ht eq_refl) as Hagain.
    destruct (measure measureCore text font s0) as [r s1]. simpl in *.
    replace (mkState (fontCaches s1) (instances s1) (Some c) (calls s1))
      with s1 by (destruct s1; simpl in *; by subst).
    by rewrite (Hagain Hret).
  - intros A [c'|] fun_; [|done]. unfold usingCache.
    by destruct (fun_ _).
Qed.

(** X20. The height of a font comes from the cache in use once ["M"] has
    been measured under that font. *)
Theorem fontHeight_from_cache measureCore measureCore' font s c b :
  wf s → _cache s = Some c → or_empty font ≠ "__proto__" →
  (measure measureCore (Some "M") font s).1 = Return b →
  fontHeight measureCore' font (measure measureCore (Some "M") font s).2 =
  (Return (height b), (measure measureCore (Some "M") font s).2).
Proof.
  intros Hwf Hc Hk Hm. unfold fontHeight.
  by rewrite (measure_again measureCore measureCore' (Some "M") font font
                s c b).
Qed.

(** X21. The states the code reaches are well formed: the state of the
    loaded script is, and [createCache], [get], [put], [measure] and
    [usingCache] around a callback that keeps states well formed and
    discards no instance keep it so.  In such a state no object is the
    entry of two fonts, and [_cache] is unset or refers to an instance. *)
Theorem text_states_wf s :
  wf init ∧
  (wf s →
   wf (createCache s).2 ∧
   (∀ c font text, wf (get c font text s).2) ∧
   (∀ c font text size, wf (put c font text size s).2) ∧
   (∀ measureCore text font, wf (measure measureCore text font s).2) ∧
   (∀ A c (fun_ : M A),
      c < length (instances s) →
      (∀ s0, wf s0 → wf (fun_ s0).2 ∧
             length (instances s0) ≤ length (instances (fun_ s0).2)) →
      wf (usingCache (Instance c) fun_ s).2)).
Proof.
  split; [apply wf_init|]. intros Hwf. split_and!.
  - by apply createCache_wf.
  - intros. rewrite get_snd. by apply getFont_wf.
  - intros. by apply put_wf.
  - intros. by apply measure_fields.
  - intros A c fun_ Hc Hfun. unfold usingCache.
    destruct (Hfun _ (wf_set_cache s c Hwf Hc)) as [Hwf1 Hle].
    destruct (fun_ _) as [r s1]. simpl in *.
    destruct Hwf1. split; try done. simpl.
    intros c' Hc'%(wf_cache _ Hwf). lia.
Qed.

(** X24. A new cache holds nothing and disturbs no other: [createCache]
    returns an instance that no earlier call returned, every lookup in it
    answers [null], and lookups in the other caches answer as before. *)
Theorem createCache_is_empty s font text :
  wf s →
  (createCache s).1 = Instance (length (instances s)) ∧
  (get (length (instances s)) font text (createCache s).2).1 = None ∧
  ∀ c, (get c font text (createCache s).2).1 = (get c font text s).1.
Proof.
  intros Hwf.
  assert (H : ∀ c, (get c font text (createCache s).2).1
                   = (get c font text s).1).
  { intros c. rewrite !get_fst. unfold held.
    by rewrite createCache_entry. }
  split_and!; [done| |done]. rewrite H, get_fst. unfold held, entry.
  by rewrite (lookup_ge_None_2 (instances s)) by lia.
Qed.

End text_facts.

(** ** pv.Layout.indent *)

Lemma node_ind' (P : Indent.node → Prop) :
  (∀ x y cs, Forall P cs → P (Indent.Node x y cs)) → ∀ n, P n.
Proof.
  intros H. fix IH 1. intros [x y cs]. apply H.
  induction cs as [|c cs IHcs]; constructor; [apply IH|apply IHcs].
Qed.

Lemma levels_length d n : length (Indent.levels d n) = Indent.size n.
Proof.
  revert d. induction n as [x y cs IH] using node_ind'. intros d. simpl.
  f_equal. induction IH as [|c cs Hc _ IHcs]; [done|]. simpl.
  by rewrite length_app, Hc, IHcs.
Qed.

Lemma position_spec ax ay ds bs n b d :
  (Indent.position ax ay ds bs n b d).2 = b + Indent.size n ∧
  Indent.coords (Indent.position ax ay ds bs n b d).1 =
  zip_with (Indent.place ax ay ds bs) (seq b (Indent.size n))
    (Indent.levels d n).
Proof.
  revert b d. induction n as [x y cs IH] using node_ind'. intros b d.
  simpl.
  match goal with |- context [?f cs (S b)] => set (loop := f) end.
  assert (Hloop : ∀ b',
    (loop cs b').2 = b' + list_sum (List.map Indent.size cs) ∧
    flat_map Indent.coords (loop cs b').1 =
    zip_with (Indent.place ax ay ds bs)
      (seq b' (list_sum (List.map Indent.size cs)))
      (flat_map (Indent.levels (S d)) cs)).
  { induction IH as [|c cs Hc _ IHcs]; intros b'; simpl.
    - split; [lia|done].
    - destruct (Hc b' (S d)) as [H1 H2].
      destruct (Indent.position ax ay ds bs c b' (S d)) as [c' b1].
      simpl in *. subst b1. destruct (IHcs (b' + Indent.size c)) as [H3 H4].
      destruct (loop cs (b' + Indent.size c)) as [rest b2]. simpl in *.
      split; [lia|]. rewrite H2, H4, seq_app, zip_with_app; [done|].
      by rewrite length_seq, levels_length. }
  destruct (Hloop (S b)) as [H1 H2].
  destruct (loop cs (S b)) as [cs' b1]. simpl in *.
  split; [lia|]. by rewrite H2.
Qed.

(** X22. The walk numbers the nodes in the order it meets them: it returns
    the rank it was given plus the number of nodes of the tree, and it
    puts the node of rank [i] and level [j], parents before children, at
    [x = ax + j * dspace] and [y = ay + i * bspace]. *)
Theorem position_rows ax ay ds bs n breadth depth :
  (Indent.position ax ay ds bs n breadth depth).2
    = breadth + Indent.size n ∧
  Indent.coords (Indent.position ax ay ds bs n breadth depth).1 =
  zip_with (Indent.place ax ay ds bs) (seq breadth (Indent.size n))
    (Indent.levels depth n).
Proof. apply position_spec. Qed.

(** X23. The layout is computed once: the first call of [data] places the
    nodes with the spacings of that moment, and a later [spacing] changes
    nothing of what [data] returns. *)
Theorem data_lays_out_once l :
  Indent.nodes l = None →
  let ax := (Indent.dspace l - 0.5)%float in
  let ay := (Indent.bspace l - 0.5)%float in
  Indent.coords (Indent.data l).1 =
  zip_with (Indent.place ax ay (Indent.dspace l) (Indent.bspace l))
    (seq 0 (Indent.size (Indent.map l))) (Indent.levels 0 (Indent.map l)) ∧
  ∀ depth breadth,
    (Indent.data (Indent.spacing depth breadth (Indent.data l).2)).1 =
    (Indent.data l).1.
Proof.
  intros Hn. unfold Indent.data. rewrite Hn. simpl. split; [|done].
  apply position_spec.
Qed.

(** ** The properties above at concrete inputs *)

Lemma empty_heap_pool : pool_ok empty_heap.
Proof. exists []. split; [reflexivity|constructor]. Qed.

Lemma near_pair_built :
  new_Quadtree 10 near_pair empty_heap
  = Some (mkQuadtree 0 5 5 5.005 5.005, pair_heap).
Proof. reflexivity. Qed.

Lemma pair_heap_leaf : reachable pair_heap 0 1.
Proof. apply (reach_child _ _ 0 3); [apply reach_root|reflexivity]. Qed.

Lemma leaf_invariant_witness : childless (deref pair_heap 1).
Proof.
  apply (leaf_invariant 10 near_pair empty_heap
           (mkQuadtree 0 5 5 5.005 5.005) pair_heap 1).
  - apply empty_heap_pool.
  - reflexivity.
  - apply pair_heap_leaf.
  - reflexivity.
Defined.

Lemma particles_kept_witness :
  (∀ n p, reachable pair_heap 0 n → Node.p (deref pair_heap n) = Some p →
     p ∈ near_pair ∧ invalid p = false) ∧
  ∃ t al, repr pair_heap 0 t al ∧ points t ≡ₚ accepted near_pair.
Proof.
  apply (particles_kept 10 near_pair empty_heap
           (mkQuadtree 0 5 5 5.005 5.005) pair_heap).
  - apply empty_heap_pool.
  - reflexivity.
Defined.

Lemma spare_heap_pool :
  pool_at (store spare_heap) (cache spare_heap) [1; 2; 3].
Proof. simpl. repeat (split || eexists); reflexivity. Qed.

Lemma spare_heap_NoDup : NoDup [1; 2; 3].
Proof. repeat constructor; set_solver. Qed.

Lemma build_isolated_witness :
  ∃ T h', new_Quadtree 10 near_pair spare_heap = Some (T, h') ∧
    length (store spare_heap) ≤ length (store h') ∧
    (∀ a, a < length (store spare_heap) → a ∉ [1; 2; 3] →
          store h' !! a = store spare_heap !! a) ∧
    store h' !! 0
      = Some (Node.mk true (Some (Particle.mk 7 1 2)) None None None None
                None) ∧
    store h' !! 1 ≠ store spare_heap !! 1.
Proof.
  eexists _, _. split; [reflexivity|].
  destruct (build_isolated 10 near_pair spare_heap [1; 2; 3] _ _
              spare_heap_pool spare_heap_NoDup eq_refl) as [Hle Hfr].
  split; [exact Hle|]. split; [exact Hfr|]. split; [reflexivity|].
  discriminate.
Defined.

Lemma free_list_first_witness :
  ∃ T h', new_Quadtree 10 near_pair spare_heap = Some (T, h') ∧
    root T = 1 ∧ cache h' = Some 3 ∧
    length (store h') = length (store spare_heap) ∧
    ∃ l' ns,
      pool_at (store h') (cache h') l' ∧ l' `suffix_of` [1; 2; 3] ∧
      (length (store spare_heap) < length (store h') → l' = []) ∧
      NoDup ns ∧ (∀ n, n ∈ ns ↔ reachable h' (root T) n) ∧
      length ns + length l'
        = 3 + (length (store h') - length (store spare_heap)).
Proof.
  eexists _, _. split; [reflexivity|].
  split; [reflexivity|]. split; [reflexivity|]. split; [reflexivity|].
  apply (free_list_first 10 near_pair spare_heap [1; 2; 3]).
  - apply spare_heap_pool.
  - apply spare_heap_NoDup.
  - reflexivity.
Defined.

Lemma leaves_hold_particles_witness :
  is_Some (Node.p (deref pair_heap 1)) ∨ (1 = 0 ∧ accepted near_pair = []).
Proof.
  apply (leaves_hold_particles 10 near_pair empty_heap
           (mkQuadtree 0 5 5 5.005 5.005) pair_heap 1).
  - apply empty_heap_pool.
  - reflexivity.
  - apply pair_heap_leaf.
  - reflexivity.
Defined.

Lemma anchor_has_company_witness :
  ∃ n' p, reachable pair_heap 0 n' ∧ n' ≠ 0 ∧
          Node.p (deref pair_heap n') = Some p ∧
          coincident (Particle.mk 0 5 5) p = true.
Proof.
  apply (anchor_has_company 10 near_pair empty_heap
           (mkQuadtree 0 5 5 5.005 5.005) pair_heap 0).
  - apply empty_heap_pool.
  - reflexivity.
  - apply reach_root.
  - reflexivity.
  - reflexivity.
Defined.

Lemma dispose_after_build_witness :
  ∃ fuel0, ∀ fuel', fuel0 ≤ fuel' →
  ∃ h2, dispose fuel' (mkQuadtree 0 5 5 5.005 5.005) pair_heap = Some h2 ∧
    pool_ok h2 ∧ length (store h2) = length (store pair_heap) ∧
    (∀ a, ¬ reachable pair_heap 0 a → store h2 !! a = store pair_heap !! a) ∧
    (∀ a, reachable pair_heap 0 a →
       ∃ nd, store h2 !! a = Some nd ∧ Node.cleared nd).
Proof.
  apply (dispose_after_build 10 near_pair empty_heap).
  - apply empty_heap_pool.
  - reflexivity.
Defined.

Lemma double_dispose_cycle_witness :
  ∃ fuel0, ∀ f1 f2, fuel0 ≤ f1 → 1 ≤ f2 →
  ∃ h2 h3,
    dispose f1 (mkQuadtree 0 5 5 5.005 5.005) pair_heap = Some h2 ∧
    dispose f2 (mkQuadtree 0 5 5 5.005 5.005) h2 = Some h3 ∧
    ∀ k, acquire k h3 = (replicate k 0, h3).
Proof.
  apply (double_dispose_cycle 10 near_pair empty_heap).
  - apply empty_heap_pool.
  - reflexivity.
Defined.



Lemma rebuild_reuses_nodes_witness :
  ∃ fuel0, ∀ fuel', fuel0 ≤ fuel' →
  ∃ h2 T' h3,
    dispose fuel' (mkQuadtree 0 5 5 5.005 5.005) pair_heap = Some h2 ∧
    new_Quadtree 10 near_pair h2 = Some (T', h3) ∧
    root T' = 0 ∧ bounds T' = bounds (mkQuadtree 0 5 5 5.005 5.005) ∧
    length (store h3) = length (store pair_heap) ∧
    ∃ t t' al al', repr pair_heap 0 t al ∧ repr h3 (root T') t' al' ∧
                   skel t = skel t'.
Proof.
  apply (rebuild_reuses_nodes 10 near_pair empty_heap).
  - apply empty_heap_pool.
  - reflexivity.
Defined.

Lemma session0_wf : Text.wf Text.session0.
Proof.
  apply (wf_set_cache (Text.createCache Text.init).2 0).
  - apply createCache_wf, wf_init.
  - simpl. lia.
Qed.

Lemma put_then_get_witness :
  (Text.get 0 None (Some "Hello")
     (Text.put 0 None (Some "Hello") (Text.Bbox 30 12) Text.session0).2).1
  = Some (Text.Bbox 30 12) ∧
  ∀ c' font' text',
    (c', Text.or_empty font', Text.or_empty text') ≠ (0, "", "Hello") →
    (Text.get c' font' text'
       (Text.put 0 None (Some "Hello") (Text.Bbox 30 12) Text.session0).2).1
    = (Text.get c' font' text' Text.session0).1.
Proof.
  apply (put_then_get 0 None (Some "Hello") (Text.Bbox 30 12) Text.session0).
  - apply session0_wf.
  - simpl. lia.
  - discriminate.
  - discriminate.
Defined.

Lemma get_changes_no_answer_witness :
  (∀ c' font' text',
     (Text.get c' font' text'
        (Text.get 0 (Some "serif") None Text.session0).2).1 =
     (Text.get c' font' text' Text.session0).1) ∧
  (0 < length (Text.instances Text.session0) →
   Text.or_empty (Some "serif") ≠ "__proto__" →
   ∀ text', (Text.get 0 (Some "serif") text'
               (Text.get 0 (Some "serif") None Text.session0).2).2 =
            (Text.get 0 (Some "serif") None Text.session0).2).
Proof.
  apply (get_changes_no_answer 0 (Some "serif") None Text.session0).
  apply session0_wf.
Defined.

Lemma proto_key_holds_nothing_witness :
  (Text.get 0 (Some "__proto__") (Some "Hello")
     (Text.put 0 (Some "__proto__") (Some "Hello") (Text.Bbox 30 12)
        Text.session0).2).1 = None ∧
  ∀ c' font' text',
    (Text.get c' font' text'
       (Text.put 0 (Some "__proto__") (Some "Hello") (Text.Bbox 30 12)
          Text.session0).2).1 =
    (Text.get c' font' text' Text.session0).1.
Proof.
  apply (proto_key_holds_nothing 0 (Some "__proto__") (Some "Hello")).
  - apply session0_wf.
  - left. reflexivity.
Defined.

Lemma measure_twice_witness :
  Text.measure Text.no_box (Some "Hello") (Some "")
    (Text.measure Text.fixed_box (Some "Hello") None Text.session0).2 =
  (Text.Return (Text.Bbox 30 12),
   (Text.measure Text.fixed_box (Some "Hello") None Text.session0).2).
Proof.
  apply (measure_twice Text.fixed_box Text.no_box (Some "Hello") None
           (Some "") Text.session0 0).
  - apply session0_wf.
  - reflexivity.
  - discriminate.
  - discriminate.
  - reflexivity.
  - reflexivity.
Defined.

Lemma proto_key_measured_each_time_witness :
  (Text.measure Text.fixed_box (Some "__proto__") None Text.session0).1
    = Text.Return (Text.Bbox 30 12) ∧
  Text.calls
    (Text.measure Text.fixed_box (Some "__proto__") None Text.session0).2
    = [("__proto__", None)] ∧
  Text.wf
    (Text.measure Text.fixed_box (Some "__proto__") None Text.session0).2 ∧
  Text._cache
    (Text.measure Text.fixed_box (Some "__proto__") None Text.session0).2
    = Some 0.
Proof.
  apply (proto_key_measured_each_time Text.fixed_box (Some "__proto__") None
           Text.session0).
  - apply session0_wf.
  - discriminate.
  - right. reflexivity.
Defined.

Lemma empty_text_not_measured_witness :
  (Text.measure Text.no_box None (Some "serif") Text.session0).1 =
    Text.Return (default (Text.Bbox 0 0)
              (c ← Text._cache Text.session0;
               Text.held Text.session0 c "serif" "")) ∧
  Text.calls (Text.measure Text.no_box None (Some "serif") Text.session0).2
    = [].
Proof.
  apply (empty_text_not_measured Text.no_box None (Some "serif")
           Text.session0).
  - apply session0_wf.
  - reflexivity.
Defined.

Lemma measure_overwrites_nothing_witness :
  (Text.get 0 None (Some "Hello")
     (Text.measure Text.fixed_box (Some "World") None
        (Text.put 0 None (Some "Hello") (Text.Bbox 1 2) Text.session0).2).2).1
  = Some (Text.Bbox 1 2).
Proof.
  apply (measure_overwrites_nothing Text.fixed_box (Some "World") None
           (Text.put 0 None (Some "Hello") (Text.Bbox 1 2) Text.session0).2).
  - apply put_wf, session0_wf.
  - reflexivity.
Defined.

Lemma failed_measure_caches_nothing_witness :
  Text.no_box "Hello" None = Text.Throw "getBBox" ∧
  ∀ c' font' text',
    (Text.get c' font' text'
       (Text.measure Text.no_box (Some "Hello") None Text.session0).2).1 =
    (Text.get c' font' text' Text.session0).1.
Proof.
  apply (failed_measure_caches_nothing Text.no_box (Some "Hello") None
           Text.session0 "getBBox").
  - apply session0_wf.
  - reflexivity.
Defined.

Lemma usingCache_sessions_share_witness :
  Text.usingCache (Text.Instance 0)
    (Text.measure Text.no_box (Some "Hello") None)
    (Text.usingCache (Text.Instance 0)
       (Text.measure Text.fixed_box (Some "Hello") None)
       (Text.createCache Text.init).2).2 =
  (Text.Return (Text.Bbox 30 12),
   (Text.usingCache (Text.Instance 0)
      (Text.measure Text.fixed_box (Some "Hello") None)
      (Text.createCache Text.init).2).2) ∧
  ∀ A cache (fun_ : Text.M A),
    Text._cache (Text.usingCache cache fun_ (Text.createCache Text.init).2).2
    = None.
Proof.
  apply (usingCache_sessions_share Text.fixed_box Text.no_box (Some "Hello")
           None 0 (Text.createCache Text.init).2 (Text.Bbox 30 12)).
  - apply createCache_wf, wf_init.
  - simpl. lia.
  - discriminate.
  - discriminate.
  - reflexivity.
Defined.

Lemma fontHeight_from_cache_witness :
  Text.fontHeight Text.no_box (Some "serif")
    (Text.measure Text.fixed_box (Some "M") (Some "serif") Text.session0).2 =
  (Text.Return 12%float,
   (Text.measure Text.fixed_box (Some "M") (Some "serif") Text.session0).2).
Proof.
  apply (fontHeight_from_cache Text.fixed_box Text.no_box (Some "serif")
           Text.session0 0 (Text.Bbox 30 12)).
  - apply session0_wf.
  - reflexivity.
  - discriminate.
  - reflexivity.
Defined.

Lemma text_states_wf_witness : Text.wf (Text.createCache Text.init).2.
Proof.
  destruct (text_states_wf Text.init) as [Hinit Hstep].
  apply (Hstep Hinit).
Defined.

Lemma data_lays_out_once_witness :
  Indent.coords (Indent.data (Indent.indent Indent.family)).1 =
  zip_with (Indent.place 14.5 14.5 15 15) (seq 0 4) [0; 1; 2; 1] ∧
  ∀ depth breadth,
    (Indent.data
       (Indent.spacing depth breadth
          (Indent.data (Indent.indent Indent.family)).2)).1 =
    (Indent.data (Indent.indent Indent.family)).1.
Proof.
  apply (data_lays_out_once (Indent.indent Indent.family)). reflexivity.
Defined.

Lemma createCache_is_empty_witness :
  (Text.createCache Text.session0).1 = Text.Instance 1 ∧
  (Text.get 1 None (Some "Hello") (Text.createCache Text.session0).2).1
    = None ∧
  ∀ c, (Text.get c None (Some "Hello") (Text.createCache Text.session0).2).1
       = (Text.get c None (Some "Hello") Text.session0).1.
Proof.
  apply (createCache_is_empty Text.session0 None (Some "Hello")).
  apply session0_wf.
Defined.

